(** * PhyloGenius: a shallow embedding of the exercise logic

    The development follows the TypeScript sources:
    - [types.ts]            the exercise payload,
    - [MatrixExercise.tsx]  the three-state matrix grid and its check,
    - [TreeExercise.tsx]    the cladogram builder (slots, inventory, layout),
    - [TeacherZone.tsx]     the password gate and the static tree layout,
    - [geminiService.ts]    [generateExercise],
    - [App.tsx]             [shuffleArray], [DEFAULT_DATA], [startExercise]
                            and the screen state machine.

    JavaScript objects used as dictionaries are finite maps ([gmap]),
    arrays are lists, [string | null] and [T | undefined] are options,
    React state is an explicit record threaded through the handlers, and
    [alert] calls are logged in the state, the ones behind a [setTimeout]
    when their timer fires.  The text that the model answers is parsed into
    a value of any shape ([JS.Value]), as [JSON.parse] does, and the types
    of [types.ts] are read off that value.  A read of a dictionary sees the
    keys written into it and nothing else: ids are taken not to be names of
    members of [Object.prototype].  Numbers of the layout are exact
    rationals; the counter of mistakes is a natural number. *)

From Stdlib Require Import Ascii String QArith Qround Qcanon.
From stdpp Require Import gmap strings list fin_maps pretty.

Open Scope string_scope.

(** ** types.ts *)

Module Taxon.
Record t := mk {
  id : string;
  name : string;
  scientificName : option string;
  description : string;
  imageUrl : option string;
  wikipediaUrl : option string;
  emoji : string;
  isFossil : option bool
}.
End Taxon.

Module Character.
Record t := mk {
  id : string;
  name : string;
  description : string
}.
End Character.

Inductive Difficulty := Facile | Moyen | Difficile.

Record EvolutionStep := mkStep {
  characterId : option string;
  branchingTaxonId : option string
}.

Record ExerciseData := mkExercise {
  title : string;
  difficulty : Difficulty;
  taxons : list Taxon.t;
  characters : list Character.t;
  correctMatrix : gmap string (list string);
  evolutionOrder : list EvolutionStep
}.

Inductive AppState :=
  | setup | loading | info | matrix | tree | success.

#[global] Instance AppState_eq_dec : EqDecision AppState.
Proof. solve_decision. Defined.

(** JavaScript truthiness of a string: only the empty string is falsy. *)
Definition truthy (s : string) : bool := bool_decide (s ≠ "").

(** Truthiness of a [string | null] (or [string | undefined]) value. *)
Definition truthy_opt (o : option string) : bool :=
  match o with
  | Some s => truthy s
  | None => false
  end.

(** ** MatrixExercise.tsx *)

Module MatrixExercise.

(** [Record<string, Record<string, boolean | undefined>>]: the inner value
    [None] is a key bound to [undefined]. *)
Abbreviation UserMatrix := (gmap string (gmap string (option bool))).

Record State := mkState {
  userMatrix : UserMatrix;
  showErrors : bool;
  success : bool;
  alerts : list string   (* the messages passed to [alert], latest first *)
}.

(** [useState] initial values. *)
Definition mount : State :=
  {| userMatrix := ∅; showErrors := false; success := false; alerts := [] |}.

(** The initialising effect: every cell bound to [undefined]. *)
Definition initial (taxons : list Taxon.t) (characters : list Character.t)
  : UserMatrix :=
  foldl (λ init t,
           foldl (λ init c,
                    <[Taxon.id t :=
                        <[Character.id c := None]>
                          (default ∅ (init !! Taxon.id t))]> init)
                 (<[Taxon.id t := ∅]> init) characters)
        ∅ taxons.

Definition initEffect (taxons : list Taxon.t) (characters : list Character.t)
  (st : State) : State :=
  {| userMatrix := initial taxons characters;
     showErrors := showErrors st;
     success := success st;
     alerts := alerts st |}.

(** [m[taxonId]?.[charId]] *)
Definition cell (m : UserMatrix) (taxonId charId : string) : option bool :=
  match m !! taxonId with
  | Some row => default None (row !! charId)
  | None => None
  end.

(** The three-state cycle of [toggleCell]. *)
Definition nextVal (currentVal : option bool) : option bool :=
  match currentVal with
  | None => Some true
  | Some true => Some false
  | Some false => None
  end.

Definition toggleCell (taxonId charId : string) (st : State) : State :=
  if success st then st
  else
    let prev := userMatrix st in
    {| userMatrix :=
         <[taxonId := <[charId := nextVal (cell prev taxonId charId)]>
                        (default ∅ (prev !! taxonId))]> prev;
       showErrors := false;
       success := success st;
       alerts := alerts st |}.

(** [correctMatrix[t.id]?.includes(c.id)]: [None] is [undefined]. *)
Definition shouldBePresent (correctMatrix : gmap string (list string))
  (taxonId charId : string) : option bool :=
  (λ present : list string, bool_decide (charId ∈ present))
    <$> (correctMatrix !! taxonId).

Record Flags := mkFlags { hasErrors : bool; allFilled : bool }.

(** The body of the inner loop of [checkMatrix]. *)
Definition checkCell (m : UserMatrix) (correctMatrix : gmap string (list string))
  (t : Taxon.t) (fl : Flags) (c : Character.t) : Flags :=
  let userVal := cell m (Taxon.id t) (Character.id c) in
  let expected := shouldBePresent correctMatrix (Taxon.id t) (Character.id c) in
  let fl1 :=
    match userVal with
    | None => {| hasErrors := hasErrors fl; allFilled := false |}
    | Some _ => fl
    end in
  match userVal with
  | Some v =>
      if bool_decide (Some v ≠ expected)
      then {| hasErrors := true; allFilled := allFilled fl1 |}
      else fl1
  | None => fl1
  end.

Definition scan (taxons : list Taxon.t) (characters : list Character.t)
  (correctMatrix : gmap string (list string)) (m : UserMatrix) : Flags :=
  foldl (λ fl t, foldl (checkCell m correctMatrix t) fl characters)
        {| hasErrors := false; allFilled := true |} taxons.

Definition fillAlert : string :=
  "Tu dois remplir toutes les cases de la matrice avant de vérifier !".

Definition checkMatrix (taxons : list Taxon.t) (characters : list Character.t)
  (correctMatrix : gmap string (list string)) (st : State) : State :=
  let fl := scan taxons characters correctMatrix (userMatrix st) in
  if negb (allFilled fl) then
    {| userMatrix := userMatrix st; showErrors := showErrors st;
       success := success st; alerts := fillAlert :: alerts st |}
  else if hasErrors fl then
    {| userMatrix := userMatrix st; showErrors := true;
       success := success st; alerts := alerts st |}
  else
    {| userMatrix := userMatrix st; showErrors := showErrors st;
       success := true; alerts := alerts st |}.

(** The button under the grid: "Vérifier" until success, then
    "Construire l'Arbre" which fires [onComplete]. *)
Inductive Button := Verifier | ConstruireArbre.

Definition button (st : State) : Button :=
  if negb (success st) then Verifier else ConstruireArbre.

(** States the component can be in: the props never change while it is
    mounted, so the initialising effect runs once, right after the mount. *)
Inductive reachable (taxons : list Taxon.t) (characters : list Character.t)
  (correctMatrix : gmap string (list string)) : State → Prop :=
  | reach_mount : reachable taxons characters correctMatrix mount
  | reach_init :
      reachable taxons characters correctMatrix
        (initEffect taxons characters mount)
  | reach_toggle st t c :
      reachable taxons characters correctMatrix st →
      reachable taxons characters correctMatrix (toggleCell t c st)
  | reach_check st :
      reachable taxons characters correctMatrix st →
      button st = Verifier →
      reachable taxons characters correctMatrix
        (checkMatrix taxons characters correctMatrix st).

(** What one cell contributes to the two flags of [checkMatrix]. *)
Definition cellFilled (m : UserMatrix) (t : Taxon.t) (c : Character.t) : bool :=
  bool_decide (cell m (Taxon.id t) (Character.id c) ≠ None).

Definition cellWrong (m : UserMatrix) (cm : gmap string (list string))
  (t : Taxon.t) (c : Character.t) : bool :=
  match cell m (Taxon.id t) (Character.id c) with
  | Some v =>
      bool_decide (Some v ≠ shouldBePresent cm (Taxon.id t) (Character.id c))
  | None => false
  end.

(** A correctly filled cell: set, and ticked "present" exactly when the
    answer key lists the character for the taxon. *)
Definition cellMatchesKey (cm : gmap string (list string)) (m : UserMatrix)
  (t : Taxon.t) (c : Character.t) : Prop :=
  ∃ v, cell m (Taxon.id t) (Character.id c) = Some v ∧
       (v = true ↔ Character.id c ∈ default [] (cm !! Taxon.id t)).

End MatrixExercise.

(** ** Numbers used by the SVG layout

    JavaScript numbers are modelled by exact rationals. *)

Definition num (z : Z) : Qc := Q2Qc (inject_Z z).

(** An array index used as a number. *)
Definition idx (index : nat) : Qc := num (Z.of_nat index).

(** The literal [0.5]. *)
Definition half : Qc := Q2Qc (1 # 2).

Record Point := mkPoint { px : Qc; py : Qc }.

(** The middle of two points. *)
Definition midpoint (p q : Point) : Point :=
  {| px := (px p + px q) / num 2; py := (py p + py q) / num 2 |}.

(** [Math.max] *)
Definition Qcmax (a b : Qc) : Qc := if Qclt_le_dec a b then b else a.

(** ** TreeExercise.tsx *)

Module TreeExercise.

Inductive SlotType := attribute | taxon.

#[global] Instance SlotType_eq_dec : EqDecision SlotType.
Proof. solve_decision. Defined.

Record Slot := mkSlot {
  id : string;
  type : SlotType;
  x : Qc;
  y : Qc;
  expectedId : option string;
  filledWithId : option string
}.

Record State := mkState {
  slots : list Slot;
  selectedItemId : option (string * SlotType);
  success : bool;
  mistakes : nat;
  alerts : list string;  (* the messages passed to [alert], latest first *)
  timers : list string   (* the alerts scheduled by [setTimeout] and not
                            yet raised, oldest first *)
}.

(** Layout constants *)
Definition TAXON_W : Qc := num 112.
Definition TAXON_H : Qc := num 112.
Definition ATTR_W : Qc := num 120.
Definition ATTR_H : Qc := num 40.
Definition START_X : Qc := num 50.
Definition STEP_X : Qc := num 200.
Definition TAXON_TOP_Y : Qc := num 40.
Definition FOSSIL_OFFSET_Y : Qc := num 100.
Definition TRUNK_BASE_Y : Qc := num 550.
Definition TRUNK_TIP_Y : Qc := TAXON_TOP_Y + TAXON_H + num 40.

Definition containerWidth (data : ExerciseData) : Qc :=
  Qcmax (num 900)
        (START_X + idx (length (evolutionOrder data)) * STEP_X + num 100).

(** [getTrunkPoint], a closure over the two trunk abscissae. *)
Definition getTrunkPoint (trunkBaseX trunkTipX : Qc) (t : Qc) : Point :=
  {| px := trunkBaseX + (trunkTipX - trunkBaseX) * t;
     py := TRUNK_BASE_Y + (TRUNK_TIP_Y - TRUNK_BASE_Y) * t |}.

Definition taxonPositions (data : ExerciseData) : list Point :=
  imap (λ index _, {| px := START_X + idx index * STEP_X; py := TAXON_TOP_Y |})
       (evolutionOrder data).

(** [trunkTipX] of the layout effect: [taxonPositions[count - 1].x + TAXON_W / 2].
    With no step the array read is [undefined] and the property access throws:
    [None]. *)
Definition effectTrunkTipX (data : ExerciseData) : option Qc :=
  match length (evolutionOrder data) with
  | O => None
  | S last => p ← taxonPositions data !! last; Some (px p + TAXON_W / num 2)%Qc
  end.

Definition attrT (count index : nat) : Qc :=
  (idx index + half) * (1 / idx count).

Definition nodeT (count index : nat) : Qc :=
  (idx index + 1) * (1 / idx count).

Definition prevNodeT (count index : nat) : Qc :=
  idx index * (1 / idx count).

(** The slots pushed by one iteration of the [forEach] of the layout effect. *)
Definition stepSlots (trunkBaseX trunkTipX : Qc) (positions : list Point)
  (count index : nat) (step : EvolutionStep) : option (list Slot) :=
  let attrPos := getTrunkPoint trunkBaseX trunkTipX (attrT count index) in
  taxonPos ← positions !! index;
  Some
    (app (if truthy_opt (characterId step)
      then [ {| id := "attr-" +:+ pretty index;
                type := attribute;
                x := px attrPos - ATTR_W / num 2;
                y := py attrPos - ATTR_H / num 2;
                expectedId := characterId step;
                filledWithId := None |} ]
      else [])
     (if truthy_opt (branchingTaxonId step)
      then [ {| id := "taxon-" +:+ pretty index;
                type := taxon;
                x := px taxonPos;
                y := py taxonPos;
                expectedId := branchingTaxonId step;
                filledWithId := None |} ]
      else [])).

Definition newSlots (data : ExerciseData) : option (list Slot) :=
  let count := length (evolutionOrder data) in
  let trunkBaseX := (START_X + num 100)%Qc in
  trunkTipX ← effectTrunkTipX data;
  mjoin <$>
    mapM (λ '(index, step),
            stepSlots trunkBaseX trunkTipX (taxonPositions data) count index step)
         (imap pair (evolutionOrder data)).

(** The layout effect; [None] when it throws. *)
Definition layoutEffect (data : ExerciseData) (st : State) : option State :=
  sl ← newSlots data;
  Some {| slots := sl; selectedItemId := selectedItemId st;
          success := false; mistakes := 0; alerts := alerts st;
          timers := timers st |}.

Definition mount : State :=
  {| slots := []; selectedItemId := None; success := false; mistakes := 0;
     alerts := []; timers := [] |}.

(** [data.taxons.find(t => t.id === id)?.isFossil] as a condition. *)
Definition isFossilId (data : ExerciseData) (oid : option string) : bool :=
  match list_find (λ t, Some (Taxon.id t) = oid) (taxons data) with
  | Some (_, t) => bool_decide (Taxon.isFossil t = Some true)
  | None => false
  end.

(** The effect that lowers the fossil slots once success is declared. *)
Definition fossilEffect (data : ExerciseData) (st : State) : State :=
  if success st then
    {| slots :=
         (λ slot,
            if bool_decide (type slot = taxon) && truthy_opt (expectedId slot)
               && isFossilId data (expectedId slot)
            then {| id := id slot; type := type slot; x := x slot;
                    y := TAXON_TOP_Y + FOSSIL_OFFSET_Y;
                    expectedId := expectedId slot;
                    filledWithId := filledWithId slot |}
            else slot) <$> slots st;
       selectedItemId := selectedItemId st;
       success := success st; mistakes := mistakes st; alerts := alerts st;
       timers := timers st |}
  else st.

(** [slots.map(s => s.filledWithId).filter(Boolean)] *)
Definition placedIds (sl : list Slot) : list string :=
  omap (λ s, match filledWithId s with
             | Some v => if truthy v then Some v else None
             | None => None
             end) sl.

Inductive Item := ItemTaxon (t : Taxon.t) | ItemCharacter (c : Character.t).

Definition itemId (it : Item) : string :=
  match it with
  | ItemTaxon t => Taxon.id t
  | ItemCharacter c => Character.id c
  end.

Definition getAvailableItems (data : ExerciseData) (st : State)
  (ty : SlotType) : list Item :=
  let placed := placedIds (slots st) in
  match ty with
  | taxon =>
      ItemTaxon <$> filter (λ t, Taxon.id t ∉ placed) (taxons data)
  | attribute =>
      ItemCharacter <$> filter (λ c, Character.id c ∉ placed) (characters data)
  end.

Definition handleItemClick (itemId : string) (ty : SlotType) (st : State)
  : State :=
  if success st then st
  else
    {| slots := slots st;
       selectedItemId :=
         match selectedItemId st with
         | Some (sel, _) =>
             if bool_decide (sel = itemId) then None else Some (itemId, ty)
         | None => Some (itemId, ty)
         end;
       success := success st; mistakes := mistakes st; alerts := alerts st;
       timers := timers st |}.

Definition setFilled (slot : Slot) (v : option string) : Slot :=
  {| id := id slot; type := type slot; x := x slot; y := y slot;
     expectedId := expectedId slot; filledWithId := v |}.

Definition incorrectAlert : string :=
  "L'arbre est complet mais incorrect. Vérifie bien l'ordre d'apparition des caractères !".

Definition allFilled (currentSlots : list Slot) : bool :=
  forallb (λ s, bool_decide (filledWithId s ≠ None)) currentSlots.

Definition allCorrect (currentSlots : list Slot) : bool :=
  forallb (λ s, bool_decide (filledWithId s = expectedId s)) currentSlots.

(** The wrong branch counts the mistake at once and schedules the alert:
    [setTimeout(() => alert(...), 300)]. *)
Definition checkCompletion (currentSlots : list Slot) (st : State) : State :=
  if allFilled currentSlots then
    if allCorrect currentSlots then
      {| slots := slots st; selectedItemId := selectedItemId st;
         success := true; mistakes := mistakes st; alerts := alerts st;
         timers := timers st |}
    else
      {| slots := slots st; selectedItemId := selectedItemId st;
         success := success st; mistakes := mistakes st + 1;
         alerts := alerts st;
         timers := timers st ++ [incorrectAlert] |}
  else st.

(** A scheduled alert comes due: the callback of the oldest timer runs. *)
Definition alertTimer (st : State) : State :=
  match timers st with
  | message :: rest =>
      {| slots := slots st; selectedItemId := selectedItemId st;
         success := success st; mistakes := mistakes st;
         alerts := message :: alerts st; timers := rest |}
  | [] => st
  end.

Definition handleSlotClick (slotId : string) (st : State) : State :=
  if success st then st
  else
    match list_find (λ s, id s = slotId) (slots st) with
    | None => st
    | Some (slotIndex, slot) =>
        if truthy_opt (filledWithId slot) then
          {| slots := <[slotIndex := setFilled slot None]> (slots st);
             selectedItemId := selectedItemId st;
             success := success st; mistakes := mistakes st;
             alerts := alerts st; timers := timers st |}
        else
          match selectedItemId st with
          | Some (sel, ty) =>
              if bool_decide (ty = type slot) then
                let newSlots := <[slotIndex := setFilled slot (Some sel)]> (slots st) in
                checkCompletion newSlots
                  {| slots := newSlots; selectedItemId := None;
                     success := success st; mistakes := mistakes st;
                     alerts := alerts st; timers := timers st |}
              else st
          | None => st
          end
    end.

(** A slot click with the effects it triggers flushed: the handler, the
    render, and then the fossil effect when [success] has changed.  The
    render in between is the state [handleSlotClick] returns. *)
Definition slotClicked (data : ExerciseData) (slotId : string) (st : State)
  : State :=
  let st' := handleSlotClick slotId st in
  if bool_decide (success st' ≠ success st) then fossilEffect data st' else st'.

(** [getGeometry] *)
Record Segment := mkSegment {
  startPos : Point;
  endPos : Point;
  taxonTargetX : Qc;
  taxonTargetY : Qc
}.

Definition geomTrunkBaseX : Qc := START_X + num 100.

Definition geomTrunkTipX (count : nat) : Qc :=
  (START_X + (idx count - 1) * STEP_X) + TAXON_W / num 2.

Definition segment (data : ExerciseData) (succ : bool) (count index : nat)
  (step : EvolutionStep) : Segment :=
  let P := getTrunkPoint geomTrunkBaseX (geomTrunkTipX count) in
  {| startPos := P (prevNodeT count index);
     endPos := P (nodeT count index);
     taxonTargetX := START_X + idx index * STEP_X + TAXON_W / num 2;
     taxonTargetY :=
       if succ && isFossilId data (branchingTaxonId step)
       then TAXON_TOP_Y + TAXON_H + FOSSIL_OFFSET_Y
       else TAXON_TOP_Y + TAXON_H |}.

Definition getGeometry (data : ExerciseData) (succ : bool)
  : list Segment * Qc :=
  let count := length (evolutionOrder data) in
  (imap (segment data succ count) (evolutionOrder data), geomTrunkBaseX).

(** The tick mark drawn for a segment: a vertical stroke through the middle
    of the segment, from 10 above to 10 below. *)
Definition tickMark (seg : Segment) : Point * Point :=
  ({| px := (px (startPos seg) + px (endPos seg)) / num 2;
      py := (py (startPos seg) + py (endPos seg)) / num 2 - num 10 |},
   {| px := (px (startPos seg) + px (endPos seg)) / num 2;
      py := (py (startPos seg) + py (endPos seg)) / num 2 + num 10 |}).

(** Steps of the component, from one render to the next: a click on an
    inventory item, which can be clicked only while [getAvailableItems]
    renders it; a click on a slot; the fossil effect, which runs after the
    render in which [success] has turned true (it changes nothing when run
    again); and a scheduled alert coming due. *)
Inductive step (data : ExerciseData) : State → State → Prop :=
  | step_item st it ty :
      it ∈ getAvailableItems data st ty →
      step data st (handleItemClick (itemId it) ty st)
  | step_slot st slot :
      slot ∈ slots st →
      step data st (handleSlotClick (id slot) st)
  | step_fossil st :
      success st = true →
      step data st (fossilEffect data st)
  | step_alert st :
      timers st ≠ [] →
      step data st (alertTimer st).

(** The states from the layout effect on.  React runs the effects of the
    first render before it handles an event. *)
Inductive live (data : ExerciseData) : State → Prop :=
  | reach_layout st0 :
      layoutEffect data mount = Some st0 → live data st0
  | reach_step st st' :
      live data st → step data st st' → live data st'.

(** The states the component renders: the initial state of the first
    render, before the layout effect has run, and the live states. *)
Definition reachable (data : ExerciseData) (st : State) : Prop :=
  st = mount ∨ live data st.

(** A slot holds [v]: its [filledWithId] is the non-empty id [v], the
    test the click handler, the inventory and the rendering all use. *)
Definition holds (v : string) (s : Slot) : Prop :=
  filledWithId s = Some v ∧ v ≠ "".

Definition atMostOneSlotPerId (sl : list Slot) : Prop :=
  ∀ i j si sj v,
    sl !! i = Some si → sl !! j = Some sj → holds v si → holds v sj → i = j.

(** The selected inventory item is not held by any slot. *)
Definition selectionFree (st : State) : Prop :=
  ∀ sel ty, selectedItemId st = Some (sel, ty) → sel ∉ placedIds (slots st).

(** The centre of an attribute slot: [x], [y] is its top left corner. *)
Definition slotCentre (s : Slot) : Point :=
  {| px := x s + ATTR_W / num 2; py := y s + ATTR_H / num 2 |}.

End TreeExercise.

(** ** TeacherZone.tsx *)

Module TeacherZone.

Record State := mkState {
  isAuthenticated : bool;
  passwordInput : string;
  error : bool
}.

Definition mount : State :=
  {| isAuthenticated := false; passwordInput := ""; error := false |}.

Section login.
(** [String.prototype.toLowerCase] and [String.prototype.trim] are host
    functions over all of Unicode; the handler is embedded over them. *)
Variable toLowerCase : string → string.
Variable trim : string → string.

Definition handleLogin (st : State) : State :=
  if bool_decide (trim (toLowerCase (passwordInput st)) = "darwin") then
    {| isAuthenticated := true;
       passwordInput := passwordInput st;
       error := false |}
  else
    {| isAuthenticated := isAuthenticated st;
       passwordInput := "";
       error := true |}.

(** The [onChange] handler of the password field. *)
Definition typePassword (value : string) (st : State) : State :=
  {| isAuthenticated := isAuthenticated st;
     passwordInput := value;
     error := error st |}.

End login.

(** The two host functions on text made of ASCII characters only. *)
Definition asciiLowerChar (c : ascii) : ascii :=
  let n := nat_of_ascii c in
  if (65 <=? n)%nat && (n <=? 90)%nat then ascii_of_nat (n + 32) else c.

Fixpoint asciiToLowerCase (s : string) : string :=
  match s with
  | EmptyString => EmptyString
  | String c s' => String (asciiLowerChar c) (asciiToLowerCase s')
  end.

Definition asciiWhite (c : ascii) : bool :=
  let n := nat_of_ascii c in
  ((9 <=? n)%nat && (n <=? 13)%nat) || (n =? 32)%nat.

Fixpoint trimStart (s : string) : string :=
  match s with
  | EmptyString => EmptyString
  | String c s' => if asciiWhite c then trimStart s' else s
  end.

Definition asciiTrim (s : string) : string :=
  String.rev (trimStart (String.rev (trimStart s))).

(** [getStaticTreeGeometry] *)
Definition TAXON_W : Qc := num 100.
Definition TAXON_H : Qc := num 40.
Definition START_X : Qc := num 50.
Definition STEP_X : Qc := num 150.
Definition TAXON_TOP_Y : Qc := num 20.
Definition FOSSIL_OFFSET_Y : Qc := num 80.
Definition TRUNK_BASE_Y : Qc := num 400.
Definition TRUNK_TIP_Y : Qc := TAXON_TOP_Y + TAXON_H + num 40.

Definition trunkBaseX : Qc := START_X + num 80.

Definition trunkTipX (count : nat) : Qc :=
  (START_X + (idx count - 1) * STEP_X) + TAXON_W / num 2.

Definition getTrunkPoint (count : nat) (t : Qc) : Point :=
  {| px := trunkBaseX + (trunkTipX count - trunkBaseX) * t;
     py := TRUNK_BASE_Y + (TRUNK_TIP_Y - TRUNK_BASE_Y) * t |}.

Record Segment := mkSegment {
  startPos : Point;
  endPos : Point;
  taxonTargetX : Qc;
  taxonTargetY : Qc;
  attrPos : Point;
  step : EvolutionStep;
  isFossil : bool
}.

Definition segment (data : ExerciseData) (count index : nat)
  (st : EvolutionStep) : Segment :=
  let fossil := TreeExercise.isFossilId data (branchingTaxonId st) in
  {| startPos := getTrunkPoint count (TreeExercise.prevNodeT count index);
     endPos := getTrunkPoint count (TreeExercise.nodeT count index);
     taxonTargetX := START_X + idx index * STEP_X + TAXON_W / num 2;
     taxonTargetY :=
       TAXON_TOP_Y + TAXON_H + (if fossil then FOSSIL_OFFSET_Y else 0);
     attrPos := getTrunkPoint count (TreeExercise.attrT count index);
     step := st;
     isFossil := fossil |}.

Record Geometry := mkGeometry {
  segments : list Segment;
  width : Qc;
  height : Qc;
  geomTrunkBaseX : Qc
}.

Definition getStaticTreeGeometry (data : ExerciseData) : Geometry :=
  let count := length (evolutionOrder data) in
  {| segments := imap (segment data count) (evolutionOrder data);
     width := Qcmax (num 800) (START_X + idx count * STEP_X + num 100);
     height := num 450;
     geomTrunkBaseX := trunkBaseX |}.

(** The attribute tick: a horizontal stroke centred on [attrPos]. *)
Definition tickMark (seg : Segment) : Point * Point :=
  ({| px := px (attrPos seg) - num 10; py := py (attrPos seg) |},
   {| px := px (attrPos seg) + num 10; py := py (attrPos seg) |}).

(** The boxes [RenderTree] draws for a segment: the taxon box above the end
    of the branch and the attribute box beside the tick, as top left corner,
    width and height. *)
Record Box := mkBox { left : Qc; top : Qc; boxWidth : Qc; boxHeight : Qc }.

Definition taxonBox (seg : Segment) : Box :=
  {| left := taxonTargetX seg - num 50; top := taxonTargetY seg - num 45;
     boxWidth := num 100; boxHeight := num 40 |}.

(** Drawn only when the step has a [characterId]. *)
Definition attrBox (seg : Segment) : Box :=
  {| left := px (attrPos seg) + num 25; top := py (attrPos seg) + num 5;
     boxWidth := num 120; boxHeight := num 40 |}.

(** The box lies inside the view box [0 0 width height]. *)
Definition inViewBox (g : Geometry) (b : Box) : Prop :=
  (0 <= left b ∧ left b + boxWidth b <= width g
   ∧ 0 <= top b ∧ top b + boxHeight b <= height g)%Qc.

End TeacherZone.

(** ** Values of JavaScript

    What [JSON.parse] returns: the cast [as RawExerciseResponse] lets any of
    these values through.  [undefined] is [None] of [option Value].  A JSON
    number is a double; [JSON.parse] returns a rational or, for a literal
    out of range, an infinity, and the negative zero behaves here as zero.
    An object has each of its names once. *)

Module JS.

Inductive Num :=
  | Finite (q : Q)
  | Infinite (negative : bool).

#[warnings="-register-all"]
Inductive Value :=
  | Null
  | Bool (b : bool)
  | Number (n : Num)
  | Str (s : string)
  | Arr (items : list Value)
  | Obj (members : list (string * Value)).

(** Truthiness of a value. *)
Definition ToBoolean (v : option Value) : bool :=
  match v with
  | None => false
  | Some Null => false
  | Some (Bool b) => b
  | Some (Number (Finite q)) => negb (Qeq_bool q 0)
  | Some (Number (Infinite _)) => true
  | Some (Str s) => bool_decide (s ≠ "")
  | Some (Arr _) => true
  | Some (Obj _) => true
  end.

Fixpoint own (name : string) (members : list (string * Value))
  : option Value :=
  match members with
  | [] => None
  | (key, v) :: rest => if decide (key = name) then Some v else own name rest
  end.

(** [v.name] on a value other than [null], for the names that this program
    reads: none of them is an index, [length], or a member of
    [Object.prototype], [Array.prototype] or of the prototype of a
    primitive, so that only an object has such a member, and only as its
    own. *)
Definition member (name : string) (v : Value) : option Value :=
  match v with
  | Obj members => own name members
  | _ => None
  end.

End JS.

(** ** services/geminiService.ts *)

Module geminiService.

Module MatrixItem.
Record t := mk {
  taxonId : string;
  presentCharacterIds : option (list string)   (* guarded by [|| []] *)
}.
End MatrixItem.

(** [RawExerciseResponse]: the type that the parsed text is cast to. *)
Module Raw.
Record t := mk {
  title : string;
  difficulty : Difficulty;
  taxons : list Taxon.t;
  characters : list Character.t;
  matrixList : option (list MatrixItem.t);   (* guarded by [if] *)
  evolutionOrder : list EvolutionStep
}.
End Raw.

(** What one call of [generateExercise] sends: the prompt and the request
    configuration are fixed texts around these three arguments. *)
Record Request := mkRequest {
  reqTopic : string;
  reqDifficulty : Difficulty;
  reqIncludeFossils : bool
}.

Record GenerateContentResponse := mkResponse {
  text : option string
}.

(** How the awaited [ai.models.generateContent] promise settles. *)
Inductive Settled :=
  | Rejects (reason : string)
  | Resolves (response : GenerateContentResponse).

(** The world around the function and its caller: the credential, the
    remote model, and of the host [JSON.parse] ([None] when it throws
    [SyntaxError]), [ToString] on what is not a string ([None] when it
    throws [TypeError]) and the iterator of a string, which yields its code
    points. *)
Record Env := mkEnv {
  API_KEY : option string;
  generateContent : Request → Settled;
  JSON_parse : string → option JS.Value;
  ToString : option JS.Value → option string;
  stringIterator : string → list string
}.

Inductive Thrown :=
  | Error (message : string)
  | RequestError (reason : string)
  | SyntaxError
  | TypeError.

Inductive Effect := SentRequest (req : Request).

(** The object that [generateExercise] returns.  Nothing has checked the
    fields it copies from the parsed text.  As everywhere, a key written
    into [correctMatrix] is taken not to be the name of a member of
    [Object.prototype]. *)
Module Payload.
Record t := mk {
  title : option JS.Value;
  difficulty : Difficulty;
  taxons : option JS.Value;
  characters : option JS.Value;
  correctMatrix : gmap string JS.Value;
  evolutionOrder : option JS.Value
}.
End Payload.

(** [ToPropertyKey], of the key in [correctMatrix[item.taxonId]]: [None]
    when it throws [TypeError]. *)
Definition ToPropertyKey (env : Env) (v : option JS.Value) : option string :=
  match v with
  | Some (JS.Str s) => Some s
  | _ => ToString env v
  end.

(** [v || []] *)
Definition orEmptyArray (v : option JS.Value) : JS.Value :=
  match v with
  | Some x => if JS.ToBoolean v then x else JS.Arr []
  | None => JS.Arr []
  end.

(** The callback of the [forEach]: [None] when it throws [TypeError], on
    [item.taxonId] for an [item] that is [null] or on the conversion of the
    key. *)
Definition addRow (env : Env) (correctMatrix : gmap string JS.Value)
  (item : JS.Value) : option (gmap string JS.Value) :=
  match item with
  | JS.Null => None
  | _ =>
      key ← ToPropertyKey env (JS.member "taxonId" item);
      Some (<[key := orEmptyArray (JS.member "presentCharacterIds" item)]>
              correctMatrix)
  end.

(** [if (rawData.matrixList) { rawData.matrixList.forEach(...) }], for a
    [rawData] other than [null]: [None] when it throws [TypeError].  Only
    an array has a [forEach] to call. *)
Definition buildCorrectMatrix (env : Env) (rawData : JS.Value)
  : option (gmap string JS.Value) :=
  let matrixList := JS.member "matrixList" rawData in
  if JS.ToBoolean matrixList then
    match matrixList with
    | Some (JS.Arr items) =>
        foldl (λ correctMatrix item,
                 correctMatrix ← correctMatrix; addRow env correctMatrix item)
              (Some ∅) items
    | _ => None
    end
  else Some ∅.

(** The [forEach] that turns [matrixList] into a record, for a
    [matrixList] of the type of the cast. *)
Definition toCorrectMatrix (matrixList : option (list MatrixItem.t))
  : gmap string (list string) :=
  match matrixList with
  | Some items =>
      foldl (λ correctMatrix item,
               <[MatrixItem.taxonId item :=
                   default [] (MatrixItem.presentCharacterIds item)]>
               correctMatrix)
            ∅ items
  | None => ∅
  end.

(** The result pairs the requests issued with the outcome of the promise:
    [inl] when it rejects, [inr] when it resolves. *)
Definition generateExercise (env : Env) (topic : string)
  (difficulty : Difficulty) (includeFossils : bool)
  : list Effect * (Thrown + Payload.t) :=
  if negb (truthy_opt (API_KEY env)) then
    ([], inl (Error "API Key is missing"))
  else
    let req := {| reqTopic := topic; reqDifficulty := difficulty;
                  reqIncludeFossils := includeFossils |} in
    let sent := [SentRequest req] in
    match generateContent env req with
    | Rejects reason => (sent, inl (RequestError reason))
    | Resolves response =>
        match text response with
        | Some txt =>
            if truthy txt then
              match JSON_parse env txt with
              | None => (sent, inl SyntaxError)
              | Some JS.Null => (sent, inl TypeError)
              | Some rawData =>
                  match buildCorrectMatrix env rawData with
                  | None => (sent, inl TypeError)
                  | Some correctMatrix =>
                      (sent,
                       inr (Payload.mk
                              (JS.member "title" rawData)
                              difficulty
                              (JS.member "taxons" rawData)
                              (JS.member "characters" rawData)
                              correctMatrix
                              (JS.member "evolutionOrder" rawData)))
                  end
              end
            else (sent, inl (Error "Impossible de générer l'exercice"))
        | None => (sent, inl (Error "Impossible de générer l'exercice"))
        end
    end.

End geminiService.

(** ** A value seen at a type of [types.ts]

    TypeScript's types are erased: a value has the shape that a type
    declares, or it has not, and nothing at run time tells.  The readers
    below give the value of the type when the shape is there, and [None]
    otherwise.  A member declared with [?] may be missing; one declared
    [string | null] holds a string or [null]. *)

Module Cast.
Import JS.

Definition asString (v : option Value) : option string :=
  match v with
  | Some (Str s) => Some s
  | _ => None
  end.

Definition asBoolean (v : option Value) : option bool :=
  match v with
  | Some (Bool b) => Some b
  | _ => None
  end.

(** [T[]] *)
Definition asArray {A} (read : option Value → option A) (v : option Value)
  : option (list A) :=
  match v with
  | Some (Arr items) => mapM (λ item, read (Some item)) items
  | _ => None
  end.

(** [name?: T] *)
Definition asOptional {A} (read : option Value → option A)
  (v : option Value) : option (option A) :=
  match v with
  | None => Some None
  | _ => Some <$> read v
  end.

(** [T | null] *)
Definition asNullable {A} (read : option Value → option A)
  (v : option Value) : option (option A) :=
  match v with
  | Some Null => Some None
  | _ => Some <$> read v
  end.

(** A member that the code guards against a falsy value: missing or
    [null], or of its type. *)
Definition asGuarded {A} (read : option Value → option A)
  (v : option Value) : option (option A) :=
  match v with
  | None => Some None
  | Some Null => Some None
  | _ => Some <$> read v
  end.

Definition asDifficulty (v : option Value) : option Difficulty :=
  match v with
  | Some (Str s) =>
      if decide (s = "Facile") then Some Facile
      else if decide (s = "Moyen") then Some Moyen
      else if decide (s = "Difficile") then Some Difficile
      else None
  | _ => None
  end.

Definition asTaxon (v : option Value) : option Taxon.t :=
  o ← v;
  id ← asString (member "id" o);
  name ← asString (member "name" o);
  scientificName ← asOptional asString (member "scientificName" o);
  description ← asString (member "description" o);
  imageUrl ← asOptional asString (member "imageUrl" o);
  wikipediaUrl ← asOptional asString (member "wikipediaUrl" o);
  emoji ← asString (member "emoji" o);
  isFossil ← asOptional asBoolean (member "isFossil" o);
  Some (Taxon.mk id name scientificName description imageUrl wikipediaUrl
          emoji isFossil).

Definition asCharacter (v : option Value) : option Character.t :=
  o ← v;
  id ← asString (member "id" o);
  name ← asString (member "name" o);
  description ← asString (member "description" o);
  Some (Character.mk id name description).

Definition asEvolutionStep (v : option Value) : option EvolutionStep :=
  o ← v;
  characterId ← asNullable asString (member "characterId" o);
  branchingTaxonId ← asNullable asString (member "branchingTaxonId" o);
  Some (mkStep characterId branchingTaxonId).

Definition asMatrixItem (v : option Value)
  : option geminiService.MatrixItem.t :=
  o ← v;
  taxonId ← asString (member "taxonId" o);
  presentCharacterIds ←
    asGuarded (asArray asString) (member "presentCharacterIds" o);
  Some (geminiService.MatrixItem.mk taxonId presentCharacterIds).

(** [RawExerciseResponse] *)
Definition asRaw (rawData : Value) : option geminiService.Raw.t :=
  title ← asString (member "title" rawData);
  difficulty ← asDifficulty (member "difficulty" rawData);
  taxons ← asArray asTaxon (member "taxons" rawData);
  characters ← asArray asCharacter (member "characters" rawData);
  matrixList ← asGuarded (asArray asMatrixItem) (member "matrixList" rawData);
  evolutionOrder ← asArray asEvolutionStep (member "evolutionOrder" rawData);
  Some (geminiService.Raw.mk title difficulty taxons characters matrixList
          evolutionOrder).

(** [Record<string, string[]>] *)
Definition asRecord (m : gmap string Value) : option (gmap string (list string)) :=
  if decide (map_Forall (λ _ v, is_Some (asArray asString (Some v))) m)
  then Some (omap (λ v, asArray asString (Some v)) m)
  else None.

(** [ExerciseData] *)
Definition asExerciseData (data : geminiService.Payload.t)
  : option ExerciseData :=
  title ← asString (geminiService.Payload.title data);
  taxons ← asArray asTaxon (geminiService.Payload.taxons data);
  characters ← asArray asCharacter (geminiService.Payload.characters data);
  correctMatrix ← asRecord (geminiService.Payload.correctMatrix data);
  evolutionOrder ←
    asArray asEvolutionStep (geminiService.Payload.evolutionOrder data);
  Some (mkExercise title (geminiService.Payload.difficulty data) taxons
          characters correctMatrix evolutionOrder).

End Cast.

(** ** App.tsx *)

Module App.

(** *** [shuffleArray] (Fisher-Yates)

    [Math.random] is an oracle: [rand k] is the value of the [k]-th call,
    and every function that draws returns the index of the next call. *)

Definition random_ok (rand : nat → Q) : Prop :=
  ∀ k, (0 <= rand k)%Q ∧ (rand k < 1)%Q.

(** [Math.floor(Math.random() * (i + 1))] *)
Definition randomIndex (r : Q) (i : nat) : nat :=
  Z.to_nat (Qfloor (r * inject_Z (Z.of_nat (i + 1)))).

Section shuffle.
Context {A : Type}.

(** [[a[i], a[j]] = [a[j], a[i]]]: both reads, then the write at [i],
    then the write at [j].  The loop only produces indices inside the
    array; outside, the branch below is not the behaviour of a
    JavaScript array, which would grow. *)
Definition swap (a : list A) (i j : nat) : list A :=
  match a !! j, a !! i with
  | Some aj, Some ai => <[j := ai]> (<[i := aj]> a)
  | _, _ => a
  end.

(** The [for] loop, from index [i] down to 1. *)
Fixpoint shuffleLoop (rand : nat → Q) (k : nat) (i : nat) (newArray : list A)
  : list A * nat :=
  match i with
  | O => (newArray, k)
  | S i' =>
      let j := randomIndex (rand k) i in
      shuffleLoop rand (S k) i' (swap newArray i j)
  end.

(** Value view: the contents of the array that is returned. *)
Definition shuffleArray (rand : nat → Q) (k : nat) (array : list A)
  : list A * nat :=
  let newArray := array in
  shuffleLoop rand k (length newArray - 1) newArray.

(** Reference view: arrays live in a store and are passed by address;
    the spread [[...array]] allocates a new array and the loop writes
    into that one. *)
Definition swapAt (h : gmap nat (list A)) (r : nat) (i j : nat)
  : gmap nat (list A) :=
  match h !! r with
  | Some a => <[r := swap a i j]> h
  | None => h
  end.

Fixpoint shuffleLoopAt (rand : nat → Q) (k : nat) (i : nat) (r : nat)
  (h : gmap nat (list A)) : gmap nat (list A) * nat :=
  match i with
  | O => (h, k)
  | S i' =>
      let j := randomIndex (rand k) i in
      shuffleLoopAt rand (S k) i' r (swapAt h r i j)
  end.

Definition shuffleArrayAt (rand : nat → Q) (k : nat)
  (h : gmap nat (list A)) (array : nat)
  : option (gmap nat (list A) * nat * nat) :=
  contents ← h !! array;
  let newArray := fresh (dom h) in
  let '(h', k') :=
    shuffleLoopAt rand k (length contents - 1) newArray
                  (<[newArray := contents]> h) in
  Some (h', newArray, k').
End shuffle.

(** *** [DEFAULT_DATA] *)

Definition DEFAULT_DATA : ExerciseData :=
  {| title := "Vertébrés Simples";
     difficulty := Facile;
     taxons :=
       [ Taxon.mk "t1" "Sardine" (Some "Sardina pilchardus")
           "Vit dans l'eau. Corps recouvert d'écailles non soudées. Possède des nageoires rayonnées. Squelette osseux interne."
           None (Some "https://fr.wikipedia.org/wiki/Sardina_pilchardus") "🐟" None;
         Taxon.mk "t2" "Grenouille" (Some "Pelophylax sp.")
           "Vit près de l'eau. Peau nue et humide. Possède 4 membres (tétrapode) et un squelette osseux."
           None (Some "https://fr.wikipedia.org/wiki/Grenouille") "🐸" None;
         Taxon.mk "t3" "Chat" (Some "Felis catus")
           "Vit sur terre. Corps recouvert de poils. Possède des oreilles avec pavillon externe, 4 membres et des vertèbres."
           None (Some "https://fr.wikipedia.org/wiki/Chat_domestique") "🐱" None;
         Taxon.mk "t4" "Pigeon" (Some "Columba livia")
           "Vit sur terre et dans les airs. Corps recouvert de plumes. Possède un gésier pour broyer les graines, 4 membres (dont 2 ailes) et des vertèbres."
           None (Some "https://fr.wikipedia.org/wiki/Pigeon_biset") "🐦" None ];
     characters :=
       [ Character.mk "c1" "Vertèbres" "Squelette osseux interne";
         Character.mk "c2" "4 membres" "Pattes ou ailes (Tétrapode)";
         Character.mk "c3" "Poils" "Phanères spécifiques aux mammifères";
         Character.mk "c4" "Plumes" "Phanères spécifiques aux oiseaux" ];
     correctMatrix :=
       <["t4" := (["c1"; "c2"; "c4"])]>
         (<["t3" := (["c1"; "c2"; "c3"])]>
            (<["t2" := (["c1"; "c2"])]>
               (<["t1" := (["c1"])]> ∅)));
     evolutionOrder :=
       [ mkStep (Some "c1") (Some "t1");
         mkStep (Some "c2") (Some "t2");
         mkStep (Some "c3") (Some "t3");
         mkStep (Some "c4") (Some "t4") ] |}.

(** [{...data, taxons: shuffleArray(data.taxons),
             characters: shuffleArray(data.characters)}] *)
Definition shuffled (rand : nat → Q) (data : ExerciseData) : ExerciseData :=
  let '(ts, k) := shuffleArray rand 0 (taxons data) in
  let '(cs, _) := shuffleArray rand k (characters data) in
  {| title := title data;
     difficulty := difficulty data;
     taxons := ts;
     characters := cs;
     correctMatrix := correctMatrix data;
     evolutionOrder := evolutionOrder data |}.

(** *** The component state *)

Record State := mkState {
  state : AppState;
  exerciseData : option ExerciseData;
  topic : string;
  level : Difficulty;            (* the [difficulty] state variable *)
  includeFossils : bool;
  isLoading : bool;              (* the [loading] state variable *)
  error : option string;
  showTeacherZone : bool
}.

Definition mount : State :=
  {| state := setup; exerciseData := None; topic := ""; level := Facile;
     includeFossils := false; isLoading := false; error := None;
     showTeacherZone := false |}.

Definition setState (s : AppState) (st : State) : State :=
  {| state := s; exerciseData := exerciseData st; topic := topic st;
     level := level st; includeFossils := includeFossils st;
     isLoading := isLoading st; error := error st;
     showTeacherZone := showTeacherZone st |}.

Definition setExerciseData (d : ExerciseData) (st : State) : State :=
  {| state := state st; exerciseData := Some d; topic := topic st;
     level := level st; includeFossils := includeFossils st;
     isLoading := isLoading st; error := error st;
     showTeacherZone := showTeacherZone st |}.

Definition setTopic (s : string) (st : State) : State :=
  {| state := state st; exerciseData := exerciseData st; topic := s;
     level := level st; includeFossils := includeFossils st;
     isLoading := isLoading st; error := error st;
     showTeacherZone := showTeacherZone st |}.

Definition setLoading (b : bool) (st : State) : State :=
  {| state := state st; exerciseData := exerciseData st; topic := topic st;
     level := level st; includeFossils := includeFossils st;
     isLoading := b; error := error st;
     showTeacherZone := showTeacherZone st |}.

Definition setError (e : option string) (st : State) : State :=
  {| state := state st; exerciseData := exerciseData st; topic := topic st;
     level := level st; includeFossils := includeFossils st;
     isLoading := isLoading st; error := e;
     showTeacherZone := showTeacherZone st |}.

Definition setShowTeacherZone (b : bool) (st : State) : State :=
  {| state := state st; exerciseData := exerciseData st; topic := topic st;
     level := level st; includeFossils := includeFossils st;
     isLoading := isLoading st; error := error st;
     showTeacherZone := b |}.

Definition generationError : string :=
  "Erreur lors de la génération. Veuillez vérifier votre clé API ou réessayer.".

(** *** [startExercise]

    The demo branch is synchronous.  The AI branch runs up to the [await]
    ([startExerciseBegin]) and resumes when the promise settles
    ([startExerciseSettle]: the rest of the [try], the [catch] and the
    [finally], for a payload that is an [ExerciseData]). *)

Definition startExerciseDemo (rand : nat → Q) (st : State) : State :=
  setState info (setExerciseData (shuffled rand DEFAULT_DATA) st).

Definition startExerciseBegin (st : State) : State :=
  setError None (setLoading true st).

Definition startExerciseSettle (rand : nat → Q)
  (outcome : geminiService.Thrown + ExerciseData) (st : State) : State :=
  setLoading false
    match outcome with
    | inr data => setState info (setExerciseData (shuffled rand data) st)
    | inl _ => setError (Some generationError) st
    end.

(** [[...array]] on a value that nothing has checked: [None] when it
    throws [TypeError], the value not being iterable. *)
Definition spread (env : geminiService.Env) (array : option JS.Value)
  : option (list JS.Value) :=
  match array with
  | Some (JS.Arr items) => Some items
  | Some (JS.Str s) => Some (JS.Str <$> geminiService.stringIterator env s)
  | _ => None
  end.

(** [shuffleArray(data.taxons)], [shuffleArray(data.characters)] *)
Definition shuffleValue (env : geminiService.Env) (rand : nat → Q) (k : nat)
  (array : option JS.Value) : option (list JS.Value * nat) :=
  newArray ← spread env array;
  Some (shuffleArray rand k newArray).

(** [{...data, taxons: shuffleArray(data.taxons),
             characters: shuffleArray(data.characters)}], for the [data]
    that [generateExercise] returned: [None] when a spread throws. *)
Definition shuffledPayload (env : geminiService.Env) (rand : nat → Q)
  (data : geminiService.Payload.t) : option geminiService.Payload.t :=
  '(ts, k) ← shuffleValue env rand 0 (geminiService.Payload.taxons data);
  '(cs, _) ← shuffleValue env rand k (geminiService.Payload.characters data);
  Some (geminiService.Payload.mk
          (geminiService.Payload.title data)
          (geminiService.Payload.difficulty data)
          (Some (JS.Arr ts))
          (Some (JS.Arr cs))
          (geminiService.Payload.correctMatrix data)
          (geminiService.Payload.evolutionOrder data)).

(** How a call of [startExercise] ends: with the state of the component,
    whose exercise is an [ExerciseData]; or, [setExerciseData],
    [setState('info')] and [setLoading(false)] done, with an exercise in
    the state that is none, which the components are not made for. *)
Inductive Ended :=
  | Ends (st : State)
  | EndsUntyped (shuffledData : geminiService.Payload.t).

Definition startExercise (env : geminiService.Env) (rand : nat → Q)
  (useAI : bool) (st : State) : list geminiService.Effect * Ended :=
  if negb useAI then ([], Ends (startExerciseDemo rand st))
  else
    let st1 := startExerciseBegin st in
    let '(sent, outcome) :=
      geminiService.generateExercise env (topic st1) (level st1)
                                     (includeFossils st1) in
    match outcome with
    | inl e => (sent, Ends (startExerciseSettle rand (inl e) st1))
    | inr data =>
        match shuffledPayload env rand data with
        | None =>
            (sent, Ends (startExerciseSettle rand (inl geminiService.TypeError)
                           st1))
        | Some shuffledData =>
            match Cast.asExerciseData shuffledData with
            | Some d =>
                (sent,
                 Ends (setLoading false (setState info (setExerciseData d st1))))
            | None => (sent, EndsUntyped shuffledData)
            end
        end
    end.

End App.

(** ** The application as one machine

    [App] with the screen component it currently renders.  A screen
    component is mounted when [renderContent] starts rendering it (its state
    starts afresh) and dropped when the screen changes.  An exception thrown
    while rendering (no error boundary) leaves a dead page.

    A model is the page as the next event finds it: rendered, and the
    effects that the last event set off run.  The renders in between, of
    the tree builder before its layout effect and between the declaration
    of success and the fossil effect, are states of [TreeExercise] only.
    An alert of the tree builder that comes due when the builder is gone
    is shown by the browser and leaves no trace here.  A generation
    settles with an exception or with an exercise; what [startExercise]
    does with a payload that is none is in [App.startExercise]. *)

Module Machine.

Record Model := mkModel {
  app : App.State;
  matrixView : option MatrixExercise.State;
  treeView : option TreeExercise.State;
  crashed : bool
}.

Definition init : Model :=
  {| app := App.mount; matrixView := None; treeView := None;
     crashed := false |}.

Definition screen (m : Model) : AppState := App.state (app m).

Definition mountMatrix (d : ExerciseData) : MatrixExercise.State :=
  MatrixExercise.initEffect (taxons d) (characters d) MatrixExercise.mount.

(** Re-render after [App]'s state became [app']. *)
Definition render (m : Model) (app' : App.State) : Model :=
  match App.state app', App.exerciseData app' with
  | matrix, Some d =>
      {| app := app';
         matrixView := Some (default (mountMatrix d) (matrixView m));
         treeView := None; crashed := crashed m |}
  | tree, Some d =>
      match treeView m with
      | Some v =>
          {| app := app'; matrixView := None; treeView := Some v;
             crashed := crashed m |}
      | None =>
          match TreeExercise.layoutEffect d TreeExercise.mount with
          | Some v =>
              {| app := app'; matrixView := None; treeView := Some v;
                 crashed := crashed m |}
          | None =>
              {| app := app'; matrixView := None; treeView := None;
                 crashed := true |}
          end
      end
  | _, _ =>
      {| app := app'; matrixView := None; treeView := None;
         crashed := crashed m |}
  end.

Definition withMatrix (v : MatrixExercise.State) (m : Model) : Model :=
  {| app := app m; matrixView := Some v; treeView := treeView m;
     crashed := crashed m |}.

Definition withTree (v : TreeExercise.State) (m : Model) : Model :=
  {| app := app m; matrixView := matrixView m; treeView := Some v;
     crashed := crashed m |}.

Inductive Event :=
  | TypeTopic (value : string)
  | PickLevel (l : Difficulty)
  | ToggleFossils
  | ClickGenerate                     (* startExercise(true), up to the await *)
  | Settles (outcome : geminiService.Thrown + ExerciseData) (rand : nat → Q)
  | ClickDemo (rand : nat → Q)        (* startExercise(false) *)
  | ClickHeader
  | ClickEspaceProf
  | CloseTeacherZone
  | ClickContinue                     (* InfoCards' onContinue *)
  | ClickCell (i j : nat)             (* row i, column j of the grid *)
  | ClickMatrixButton
  | ClickItem (ty : TreeExercise.SlotType) (k : nat)  (* k-th inventory item *)
  | ClickSlot (k : nat)               (* k-th slot *)
  | ClickNouveau                      (* TreeExercise's onRestart *)
  | AlertDue.                         (* a timer of the tree builder fires *)

(** One user or network event; [None] when the page offers no such
    control in this state. *)
Definition step (e : Event) (m : Model) : option Model :=
  let a := app m in
  if crashed m then None
  else
    match e with
    | TypeTopic value =>
        if bool_decide (App.state a = setup)
        then Some (render m (App.setTopic value a)) else None
    | PickLevel l =>
        if bool_decide (App.state a = setup)
        then Some (render m
               {| App.state := App.state a;
                  App.exerciseData := App.exerciseData a;
                  App.topic := App.topic a; App.level := l;
                  App.includeFossils := App.includeFossils a;
                  App.isLoading := App.isLoading a; App.error := App.error a;
                  App.showTeacherZone := App.showTeacherZone a |})
        else None
    | ToggleFossils =>
        if bool_decide (App.state a = setup)
        then Some (render m
               {| App.state := App.state a;
                  App.exerciseData := App.exerciseData a;
                  App.topic := App.topic a; App.level := App.level a;
                  App.includeFossils := negb (App.includeFossils a);
                  App.isLoading := App.isLoading a; App.error := App.error a;
                  App.showTeacherZone := App.showTeacherZone a |})
        else None
    | ClickGenerate =>
        if bool_decide (App.state a = setup) && negb (App.isLoading a)
        then Some (render m (App.startExerciseBegin a)) else None
    | Settles outcome rand =>
        if App.isLoading a
        then Some (render m (App.startExerciseSettle rand outcome a)) else None
    | ClickDemo rand =>
        if bool_decide (App.state a = setup) && negb (App.isLoading a)
        then Some (render m (App.startExerciseDemo rand a)) else None
    | ClickHeader => Some (render m (App.setState setup a))
    | ClickEspaceProf =>
        match App.exerciseData a with
        | Some _ =>
            if bool_decide (App.state a ≠ setup)
            then Some (render m (App.setShowTeacherZone true a)) else None
        | None => None
        end
    | CloseTeacherZone =>
        match App.exerciseData a with
        | Some _ =>
            if App.showTeacherZone a
            then Some (render m (App.setShowTeacherZone false a)) else None
        | None => None
        end
    | ClickContinue =>
        match App.state a, App.exerciseData a with
        | info, Some _ => Some (render m (App.setState matrix a))
        | _, _ => None
        end
    | ClickCell i j =>
        match matrixView m, App.exerciseData a with
        | Some v, Some d =>
            t ← taxons d !! i;
            c ← characters d !! j;
            Some (withMatrix
                    (MatrixExercise.toggleCell (Taxon.id t) (Character.id c) v) m)
        | _, _ => None
        end
    | ClickMatrixButton =>
        match matrixView m, App.exerciseData a with
        | Some v, Some d =>
            match MatrixExercise.button v with
            | MatrixExercise.Verifier =>
                Some (withMatrix
                        (MatrixExercise.checkMatrix
                           (taxons d) (characters d) (correctMatrix d) v) m)
            | MatrixExercise.ConstruireArbre =>
                Some (render m (App.setState tree a))
            end
        | _, _ => None
        end
    | ClickItem ty k =>
        match treeView m, App.exerciseData a with
        | Some v, Some d =>
            it ← TreeExercise.getAvailableItems d v ty !! k;
            Some (withTree
                    (TreeExercise.handleItemClick (TreeExercise.itemId it) ty v) m)
        | _, _ => None
        end
    | ClickSlot k =>
        match treeView m, App.exerciseData a with
        | Some v, Some d =>
            slot ← TreeExercise.slots v !! k;
            Some (withTree
                    (TreeExercise.slotClicked d (TreeExercise.id slot) v) m)
        | _, _ => None
        end
    | ClickNouveau =>
        match treeView m with
        | Some v =>
            if TreeExercise.success v
            then Some (render m (App.setState setup (App.setTopic "" a)))
            else None
        | None => None
        end
    | AlertDue =>
        match treeView m with
        | Some v =>
            match TreeExercise.timers v with
            | [] => None
            | _ => Some (withTree (TreeExercise.alertTimer v) m)
            end
        | None => None
        end
    end.

(** The models visited by a sequence of events, the first one included;
    an event the page does not offer changes nothing. *)
Fixpoint run (m : Model) (evs : list Event) : list Model :=
  match evs with
  | [] => [m]
  | e :: evs' => m :: run (default m (step e m)) evs'
  end.

Definition matrixSucceeded (m : Model) : Prop :=
  ∃ v, matrixView m = Some v ∧ MatrixExercise.success v = true.

(** The screen changes allowed between two consecutive models. *)
Definition transition_ok (m m' : Model) : Prop :=
  screen m' = screen m
  ∨ screen m' = setup
  ∨ (screen m = setup ∧ screen m' = info ∧ is_Some (App.exerciseData (app m')))
  ∨ (screen m = info ∧ screen m' = matrix)
  ∨ (screen m = matrix ∧ screen m' = tree ∧ matrixSucceeded m).

(** What every reachable model satisfies: a generation is awaited on the
    setup screen only, the matrix component is mounted on the matrix
    screen only, and two values of [AppState] are never used. *)
Definition invariant (m : Model) : Prop :=
  (App.isLoading (app m) = true → screen m = setup)
  ∧ (is_Some (matrixView m) → screen m = matrix)
  ∧ screen m ≠ loading
  ∧ screen m ≠ success.

(** A student's session on the demo exercise: the cards, then each cell
    of the grid clicked once when the key has the character and twice when
    it has not, then "Vérifier", then "Construire l'Arbre". *)
Definition fillGrid (d : ExerciseData) : list Event :=
  mjoin (imap (λ i t,
           mjoin (imap (λ j c,
                    if bool_decide
                         (Character.id c ∈
                            default [] (correctMatrix d !! Taxon.id t))
                    then [ClickCell i j]
                    else [ClickCell i j; ClickCell i j])
                  (characters d)))
         (taxons d)).

Definition demoSession (rand : nat → Q) : list Event :=
  [ClickDemo rand; ClickContinue]
  ++ fillGrid (App.shuffled rand App.DEFAULT_DATA)
  ++ [ClickMatrixButton; ClickMatrixButton].

End Machine.

(** ** Referenced ids exist *)

Definition taxonIds (d : ExerciseData) : list string := Taxon.id <$> taxons d.
Definition characterIds (d : ExerciseData) : list string :=
  Character.id <$> characters d.

(** Every taxon id that is a key of [correctMatrix] or the
    [branchingTaxonId] of a step is the id of a taxon, and every character id
    in a row of [correctMatrix] or the [characterId] of a step is the id of a
    character. *)
Definition referencedIdsExist (d : ExerciseData) : Prop :=
  (∀ taxonId row,
     correctMatrix d !! taxonId = Some row →
     taxonId ∈ taxonIds d ∧ ∀ c, c ∈ row → c ∈ characterIds d)
  ∧ (∀ step,
       step ∈ evolutionOrder d →
       (∀ t, branchingTaxonId step = Some t → t ∈ taxonIds d)
       ∧ (∀ c, characterId step = Some c → c ∈ characterIds d)).

(** The same property of a parsed response, before [generateExercise]
    turns [matrixList] into a record. *)
Definition rawReferencedIdsExist (raw : geminiService.Raw.t) : Prop :=
  let tids := Taxon.id <$> geminiService.Raw.taxons raw in
  let cids := Character.id <$> geminiService.Raw.characters raw in
  (∀ item,
     item ∈ default [] (geminiService.Raw.matrixList raw) →
     geminiService.MatrixItem.taxonId item ∈ tids
     ∧ ∀ c, c ∈ default [] (geminiService.MatrixItem.presentCharacterIds item) →
            c ∈ cids)
  ∧ (∀ step,
       step ∈ geminiService.Raw.evolutionOrder raw →
       (∀ t, branchingTaxonId step = Some t → t ∈ tids)
       ∧ (∀ c, characterId step = Some c → c ∈ cids)).

(** ** Concrete worlds

    A response whose matrix names a taxon that is not in the list of taxa, a
    response cut short after its first character, responses that are JSON
    but no exercise, and an exercise one of whose taxa has the empty string
    as id. *)

Module Worlds.
Import geminiService.

Definition dq : string := String (ascii_of_nat 34) EmptyString.

Definition danglingText : string :=
  "{" +:+ dq +:+ "title" +:+ dq +:+ ":" +:+ dq +:+ "Poissons" +:+ dq +:+ ","
  +:+ dq +:+ "difficulty" +:+ dq +:+ ":" +:+ dq +:+ "Facile" +:+ dq +:+ ","
  +:+ dq +:+ "taxons" +:+ dq +:+ ":[{"
  +:+ dq +:+ "id" +:+ dq +:+ ":" +:+ dq +:+ "t1" +:+ dq +:+ ","
  +:+ dq +:+ "name" +:+ dq +:+ ":" +:+ dq +:+ "Sardine" +:+ dq +:+ ","
  +:+ dq +:+ "description" +:+ dq +:+ ":" +:+ dq +:+ "Vit dans l'eau." +:+ dq +:+ ","
  +:+ dq +:+ "emoji" +:+ dq +:+ ":" +:+ dq +:+ "🐟" +:+ dq +:+ "}],"
  +:+ dq +:+ "characters" +:+ dq +:+ ":[{"
  +:+ dq +:+ "id" +:+ dq +:+ ":" +:+ dq +:+ "c1" +:+ dq +:+ ","
  +:+ dq +:+ "name" +:+ dq +:+ ":" +:+ dq +:+ "Vertèbres" +:+ dq +:+ ","
  +:+ dq +:+ "description" +:+ dq +:+ ":" +:+ dq +:+ "Squelette osseux interne" +:+ dq +:+ "}],"
  +:+ dq +:+ "matrixList" +:+ dq +:+ ":[{"
  +:+ dq +:+ "taxonId" +:+ dq +:+ ":" +:+ dq +:+ "t9" +:+ dq +:+ ","
  +:+ dq +:+ "presentCharacterIds" +:+ dq +:+ ":[" +:+ dq +:+ "c1" +:+ dq +:+ "]}],"
  +:+ dq +:+ "evolutionOrder" +:+ dq +:+ ":[{"
  +:+ dq +:+ "characterId" +:+ dq +:+ ":" +:+ dq +:+ "c1" +:+ dq +:+ ","
  +:+ dq +:+ "branchingTaxonId" +:+ dq +:+ ":" +:+ dq +:+ "t1" +:+ dq +:+ "}]}".

(** What [JSON.parse] makes of [danglingText]. *)
Definition danglingValue : JS.Value :=
  JS.Obj
    [("title", JS.Str "Poissons");
     ("difficulty", JS.Str "Facile");
     ("taxons",
      JS.Arr [JS.Obj [("id", JS.Str "t1"); ("name", JS.Str "Sardine");
                      ("description", JS.Str "Vit dans l'eau.");
                      ("emoji", JS.Str "🐟")]]);
     ("characters",
      JS.Arr [JS.Obj [("id", JS.Str "c1"); ("name", JS.Str "Vertèbres");
                      ("description", JS.Str "Squelette osseux interne")]]);
     ("matrixList",
      JS.Arr [JS.Obj [("taxonId", JS.Str "t9");
                      ("presentCharacterIds", JS.Arr [JS.Str "c1"])]]);
     ("evolutionOrder",
      JS.Arr [JS.Obj [("characterId", JS.Str "c1");
                      ("branchingTaxonId", JS.Str "t1")]])].

(** [danglingValue] at the type of the cast. *)
Definition danglingRaw : Raw.t :=
  Raw.mk "Poissons" Facile
    [Taxon.mk "t1" "Sardine" None "Vit dans l'eau." None None "🐟" None]
    [Character.mk "c1" "Vertèbres" "Squelette osseux interne"]
    (Some [MatrixItem.mk "t9" (Some ["c1"])])
    [mkStep (Some "c1") (Some "t1")].

(** JSON texts that are not an exercise: [null]; an object whose
    [matrixList] is a number; an object without [taxons]; an object whose
    [taxons] is a string and whose [characters] is an empty array. *)
Definition matrixList5Text : string :=
  "{" +:+ dq +:+ "matrixList" +:+ dq +:+ ":5}".
Definition titleOnlyText : string :=
  "{" +:+ dq +:+ "title" +:+ dq +:+ ":" +:+ dq +:+ "Poissons" +:+ dq +:+ "}".
Definition taxonsTextText : string :=
  "{" +:+ dq +:+ "taxons" +:+ dq +:+ ":" +:+ dq +:+ "ab" +:+ dq +:+ ","
  +:+ dq +:+ "characters" +:+ dq +:+ ":[]}".

(** [JSON.parse] on the texts used here; it throws on "{", which is not
    JSON. *)
Definition parseFragment (txt : string) : option JS.Value :=
  if decide (txt = danglingText) then Some danglingValue
  else if decide (txt = "null") then Some JS.Null
  else if decide (txt = matrixList5Text)
       then Some (JS.Obj [("matrixList", JS.Number (JS.Finite 5))])
  else if decide (txt = titleOnlyText)
       then Some (JS.Obj [("title", JS.Str "Poissons")])
  else if decide (txt = taxonsTextText)
       then Some (JS.Obj [("taxons", JS.Str "ab"); ("characters", JS.Arr [])])
  else None.

(** [ToString] on the values that these texts make a key of: none but
    [undefined]. *)
Definition toStringFragment (v : option JS.Value) : option string :=
  match v with
  | None => Some "undefined"
  | Some JS.Null => Some "null"
  | Some (JS.Bool true) => Some "true"
  | Some (JS.Bool false) => Some "false"
  | Some (JS.Str s) => Some s
  | _ => None
  end.

(** The iterator of a string, on ASCII strings. *)
Definition asciiIterator (s : string) : list string :=
  (λ c, String c EmptyString) <$> list_ascii_of_string s.

Definition answering (txt : option string) : Env :=
  {| API_KEY := Some "secret";
     generateContent := λ _, Resolves {| text := txt |};
     JSON_parse := parseFragment;
     ToString := toStringFragment;
     stringIterator := asciiIterator |}.

Definition danglingEnv : Env := answering (Some danglingText).
Definition truncatedEnv : Env := answering (Some "{").
Definition nullEnv : Env := answering (Some "null").
Definition matrixList5Env : Env := answering (Some matrixList5Text).
Definition titleOnlyEnv : Env := answering (Some titleOnlyText).
Definition taxonsTextEnv : Env := answering (Some taxonsTextText).

(** No credential, and a model that cannot be reached. *)
Definition offlineEnv : Env :=
  {| API_KEY := None;
     generateContent := λ _, Rejects "offline";
     JSON_parse := parseFragment;
     ToString := toStringFragment;
     stringIterator := asciiIterator |}.

(** An exercise with a third taxon whose id is the empty string. *)
Definition emptyIdTaxon : Taxon.t :=
  Taxon.mk "" "Inconnu" None "Espèce sans identifiant." None None "❓" None.

Definition emptyIdData : ExerciseData :=
  {| title := "Vertébrés";
     difficulty := Facile;
     taxons :=
       [ emptyIdTaxon;
         Taxon.mk "t1" "Sardine" None "Vit dans l'eau." None None "🐟" None;
         Taxon.mk "t2" "Grenouille" None "Vit près de l'eau." None None "🐸" None ];
     characters :=
       [ Character.mk "c1" "Vertèbres" "Squelette osseux interne";
         Character.mk "c2" "4 membres" "Pattes ou ailes (Tétrapode)" ];
     correctMatrix :=
       <["t2" := (["c1"; "c2"])]> (<["t1" := (["c1"])]> ∅);
     evolutionOrder :=
       [ mkStep (Some "c1") (Some "t1"); mkStep (Some "c2") (Some "t2") ] |}.

(** The tree builder right after its layout effect. *)
Definition emptyIdStart : TreeExercise.State :=
  default TreeExercise.mount
          (TreeExercise.layoutEffect emptyIdData TreeExercise.mount).

(** Select the taxon without id, drop it on the first taxon slot, select it
    again, drop it on the second taxon slot. *)
Definition emptyIdSelected1 : TreeExercise.State :=
  TreeExercise.handleItemClick "" TreeExercise.taxon emptyIdStart.
Definition emptyIdPlaced1 : TreeExercise.State :=
  TreeExercise.slotClicked emptyIdData "taxon-0" emptyIdSelected1.
Definition emptyIdSelected2 : TreeExercise.State :=
  TreeExercise.handleItemClick "" TreeExercise.taxon emptyIdPlaced1.
Definition emptyIdPlaced2 : TreeExercise.State :=
  TreeExercise.slotClicked emptyIdData "taxon-1" emptyIdSelected2.

End Worlds.

(** ** What the components render, and sessions of clicks *)

Module MatrixView.
Import MatrixExercise.

(** [correctMatrix[t.id]?.includes(c.id) === val], the test of the table
    body: both sides may be [undefined]. *)
Definition isCorrect (correctMatrix : gmap string (list string))
  (m : UserMatrix) (t : Taxon.t) (c : Character.t) : bool :=
  bool_decide (shouldBePresent correctMatrix (Taxon.id t) (Character.id c)
               = cell m (Taxon.id t) (Character.id c)).

(** The red ring of a cell: [showErrors && !isCorrect]. *)
Definition ringed (correctMatrix : gmap string (list string)) (st : State)
  (t : Taxon.t) (c : Character.t) : bool :=
  showErrors st && negb (isCorrect correctMatrix (userMatrix st) t c).

(** [const isPresent = data.correctMatrix[t.id]?.includes(c.id)] used as a
    condition, in the matrix modal of the tree builder and on the corrected
    sheet of the teacher zone: [undefined] counts as absent. *)
Definition isPresent (correctMatrix : gmap string (list string))
  (t : Taxon.t) (c : Character.t) : bool :=
  default false (shouldBePresent correctMatrix (Taxon.id t) (Character.id c)).

(** A sequence of clicks on cells, each given by the ids of its row and
    column. *)
Definition clicks (cl : list (string * string)) (st : State) : State :=
  foldl (λ st p, toggleCell p.1 p.2 st) st cl.

(** The clicks of a student who knows the key: row by row, one click on a
    cell whose character the key lists for the taxon, two clicks otherwise. *)
Definition rowSolution (correctMatrix : gmap string (list string))
  (characters : list Character.t) (t : Taxon.t) : list (string * string) :=
  c ← characters;
  if bool_decide (Character.id c ∈ default [] (correctMatrix !! Taxon.id t))
  then [(Taxon.id t, Character.id c)]
  else [(Taxon.id t, Character.id c); (Taxon.id t, Character.id c)].

Definition solution (taxons : list Taxon.t) (characters : list Character.t)
  (correctMatrix : gmap string (list string)) : list (string * string) :=
  t ← taxons; rowSolution correctMatrix characters t.

(** How often a cell is clicked in a sequence. *)
Definition clickCount (p : string * string) (cl : list (string * string)) : nat :=
  length (filter (λ q, q = p) cl).

End MatrixView.

Module TreeView.
Import TreeExercise.

(** What the rendering of a slot looks up: the item to draw in a filled
    slot, [undefined] ([None]) when no item of the slot's type has the id. *)
Definition filledItem (data : ExerciseData) (slot : Slot) : option Item :=
  if truthy_opt (filledWithId slot) then
    match type slot with
    | taxon =>
        ItemTaxon <$>
          (snd <$> list_find (λ t, Some (Taxon.id t) = filledWithId slot)
                             (taxons data))
    | attribute =>
        ItemCharacter <$>
          (snd <$> list_find (λ c, Some (Character.id c) = filledWithId slot)
                             (characters data))
    end
  else None.

(** The kind of an inventory item, as a slot type. *)
Definition itemType (it : Item) : SlotType :=
  match it with
  | ItemTaxon _ => taxon
  | ItemCharacter _ => attribute
  end.

(** Is the item one of the payload? *)
Definition inPayload (data : ExerciseData) (it : Item) : Prop :=
  match it with
  | ItemTaxon t => t ∈ taxons data
  | ItemCharacter c => c ∈ characters data
  end.

(** The part of a slot that the click handlers never write. *)
Definition frame (s : Slot) : string * SlotType * Qc * Qc * option string :=
  (id s, type s, x s, y s, expectedId s).

(** Is the slot one that the fossil effect lowers? *)
Definition lowered (data : ExerciseData) (s : Slot) : bool :=
  bool_decide (type s = taxon) && truthy_opt (expectedId s)
  && isFossilId data (expectedId s).

(** The frame of a slot of the layout once success is [succ]. *)
Definition frameAt (data : ExerciseData) (succ : bool) (s0 : Slot)
  : string * SlotType * Qc * Qc * option string :=
  (id s0, type s0, x s0,
   if succ && lowered data s0 then (TAXON_TOP_Y + FOSSIL_OFFSET_Y)%Qc else y s0,
   expectedId s0).

(** The bottom centre of a taxon card. *)
Definition cardFoot (s : Slot) : Point :=
  {| px := x s + TAXON_W / num 2; py := y s + TAXON_H |}.

(** What is selected, and what a slot is filled with, is an item of the
    payload, of the selected kind and of the kind of the slot. *)
Definition itemsKnown (data : ExerciseData) (st : State) : Prop :=
  (∀ sel ty, selectedItemId st = Some (sel, ty) →
     ∃ it, inPayload data it ∧ itemId it = sel ∧ itemType it = ty)
  ∧ (∀ s v, s ∈ slots st → filledWithId s = Some v →
       ∃ it, inPayload data it ∧ itemId it = v ∧ itemType it = type s).

(** Placing in a slot what it expects: the student selects the item in the
    inventory, then clicks the slot. *)
Definition place (data : ExerciseData) (st : State) (s0 : Slot) : State :=
  match expectedId s0 with
  | Some v => slotClicked data (id s0) (handleItemClick v (type s0) st)
  | None => st
  end.

(** The state after the first [k] slots have been given what they expect,
    in the order of the layout, with nothing else done. *)
Definition placedUpTo (data : ExerciseData) (k : nat) (st : State) : Prop :=
  live data st
  ∧ selectedItemId st = None
  ∧ mistakes st = 0%nat
  ∧ (alerts st = [] ∧ timers st = [])
  ∧ (∀ (j : nat) s, slots st !! j = Some s →
       filledWithId s = if decide (j < k)%nat then expectedId s else None)
  ∧ success st = bool_decide (0 < k ∧ k = length (slots st))%nat.

(** The slots can all be served: there is one, no two expect the same id,
    and each expects the id of an item of the payload of its own kind. *)
Definition wellPosed (data : ExerciseData) (sl : list Slot) : Prop :=
  sl ≠ []
  ∧ NoDup (expectedId <$> sl)
  ∧ ∀ s, s ∈ sl →
      ∃ it, inPayload data it ∧ Some (itemId it) = expectedId s
            ∧ itemType it = type s.

(** The box of a slot on the canvas: its top left corner is [x], [y], its
    size comes from the classes of the slot, and the canvas is at least 600
    high and [containerWidth] wide. *)
Definition slotWidth (s : Slot) : Qc :=
  match type s with attribute => num 120 | taxon => num 112 end.

Definition slotHeight (s : Slot) : Qc :=
  match type s with attribute => num 40 | taxon => num 112 end.

Definition containerMinHeight : Qc := num 600.

End TreeView.

(** ** The page as a whole *)

Module Page.
Import Machine.

(** What ties the mounted components to [App]'s state: a generation is
    awaited on the setup screen only; off the setup screen there is an
    exercise; a mounted grid or tree builder is on its own screen, in a
    state its handlers can produce over the exercise on display; the page is
    dead only on the tree screen of an exercise without evolution steps. *)
Definition consistent (m : Model) : Prop :=
  (App.isLoading (app m) = true → screen m = setup)
  ∧ (screen m ≠ setup → is_Some (App.exerciseData (app m)))
  ∧ (∀ v, matrixView m = Some v →
       screen m = matrix
       ∧ ∃ d, App.exerciseData (app m) = Some d
              ∧ MatrixExercise.reachable (taxons d) (characters d)
                  (correctMatrix d) v)
  ∧ (∀ v, treeView m = Some v →
       screen m = tree
       ∧ ∃ d, App.exerciseData (app m) = Some d ∧ TreeExercise.live d v)
  ∧ (crashed m = false → screen m = tree → is_Some (treeView m))
  ∧ (crashed m = true →
       screen m = tree
       ∧ ∃ d, App.exerciseData (app m) = Some d ∧ evolutionOrder d = []).




(** The page of the demo session when the tree builder has just opened. *)
Definition demoTree : Model :=
  default init (run init (demoSession (λ _, 0%Q)) !! 27%nat).

(** The page of the demo session when the grid has just been verified. *)
Definition demoGrid : Model :=
  default init (run init (demoSession (λ _, 0%Q)) !! 26%nat).

(** The setup form with the hardest level picked. *)
Definition difficileForm : App.State :=
  {| App.state := setup; App.exerciseData := None; App.topic := "Poissons";
     App.level := Difficile; App.includeFossils := false;
     App.isLoading := false; App.error := None;
     App.showTeacherZone := false |}.

(** A failed generation, then the demo, then back to the setup screen. *)
Definition failedThenDemo : list Event :=
  [ClickGenerate; Settles (inl geminiService.SyntaxError) (λ _, 0%Q);
   ClickDemo (λ _, 0%Q); ClickHeader].

End Page.

(** ** Choosing the draws of the shuffle *)

Module Draws.
Import App.

(** A value of [Math.random] for which [Math.floor(r * (i + 1))] is [j]:
    the middle of the interval of the values that give [j]. *)
Definition drawFor (j i : nat) : Q :=
  (inject_Z (2 * Z.of_nat j + 1) / inject_Z (2 * Z.of_nat (i + 1)))%Q.

(** The oracle whose draws, from the first on, pick the indices [js] in a
    loop that starts at index [i]. *)
Definition oracleOf (i : nat) (js : list nat) : nat → Q :=
  λ m, match js !! m with
       | Some j => drawFor j (i - m)
       | None => 0%Q
       end.

(** The loop of [shuffleArray] with the indices given instead of drawn. *)
Fixpoint shuffleWith {A} (js : list nat) (i : nat) (a : list A) : list A :=
  match i, js with
  | S i', j :: js' => shuffleWith js' i' (swap a i j)
  | _, _ => a
  end.

End Draws.

(** ** More concrete exercises and sessions *)

Module Sessions.
Import TreeExercise.

(** One evolution step, a fossil taxon, and a character that belongs
    nowhere. *)
Definition archaeopteryx : Taxon.t :=
  Taxon.mk "t1" "Archaeopteryx" (Some "Archaeopteryx lithographica")
    "Fossile. Corps recouvert de plumes, dents, longue queue osseuse."
    None None "🦖" (Some true).
Definition plumes : Character.t :=
  Character.mk "c1" "Plumes" "Phanères spécifiques aux oiseaux".
Definition poils : Character.t :=
  Character.mk "c2" "Poils" "Phanères spécifiques aux mammifères".

Definition fossilData : ExerciseData :=
  {| title := "Oiseaux";
     difficulty := Facile;
     taxons := [archaeopteryx];
     characters := [plumes; poils];
     correctMatrix := <["t1" := (["c1"])]> ∅;
     evolutionOrder := [mkStep (Some "c1") (Some "t1")] |}.

Definition fossilStart : State :=
  default mount (layoutEffect fossilData mount).

(** The right character, then the taxon: the tree is complete and correct. *)
Definition rightCharacterSelected : State :=
  handleItemClick "c1" attribute fossilStart.
Definition rightCharacterPlaced : State :=
  slotClicked fossilData "attr-0" rightCharacterSelected.
Definition rightTaxonSelected : State :=
  handleItemClick "t1" taxon rightCharacterPlaced.
Definition solved : State :=
  slotClicked fossilData "taxon-0" rightTaxonSelected.
(** The render between that last click and the fossil effect. *)
Definition successDeclared : State :=
  handleSlotClick "taxon-0" rightTaxonSelected.

(** The wrong character, then the taxon: the tree is complete and wrong. *)
Definition wrongCharacterSelected : State :=
  handleItemClick "c2" attribute fossilStart.
Definition wrongCharacterPlaced : State :=
  slotClicked fossilData "attr-0" wrongCharacterSelected.
Definition wrongTaxonSelected : State :=
  handleItemClick "t1" taxon wrongCharacterPlaced.
Definition wronglyCompleted : State :=
  slotClicked fossilData "taxon-0" wrongTaxonSelected.

(** A taxon and a character with the same id. *)
Definition sharedIdData : ExerciseData :=
  {| title := "Oiseaux";
     difficulty := Facile;
     taxons := [Taxon.mk "1" "Pigeon" None "Corps recouvert de plumes." None None
                  "🐦" None];
     characters := [Character.mk "1" "Plumes" "Phanères spécifiques aux oiseaux"];
     correctMatrix := <["1" := (["1"])]> ∅;
     evolutionOrder := [mkStep (Some "1") (Some "1")] |}.

Definition sharedIdSlots : list Slot := default [] (newSlots sharedIdData).

Definition sharedIdStart : State :=
  default mount (layoutEffect sharedIdData mount).

Definition sharedIdCharacterPlaced : State :=
  slotClicked sharedIdData "attr-0" (handleItemClick "1" attribute sharedIdStart).

End Sessions.

(** * Properties *)

(** ** The matrix grid *)

Section matrix_facts.
Import MatrixExercise.

Implicit Types (m : UserMatrix) (cm : gmap string (list string)).
Implicit Types (st : State) (t : Taxon.t) (c : Character.t).

Lemma cell_toggled m (taxonId charId tid cid : string) v :
  cell (<[taxonId := <[charId := v]> (default ∅ (m !! taxonId))]> m) tid cid
  = if decide (taxonId = tid ∧ charId = cid) then v else cell m tid cid.
Proof.
  unfold cell. destruct (decide (taxonId = tid)) as [->|Ht].
  - rewrite lookup_insert_eq. destruct (decide (charId = cid)) as [->|Hc].
    + rewrite lookup_insert_eq. by destruct (decide _) as [|[]].
    + rewrite lookup_insert_ne by done.
      destruct (decide _) as [[_ ?]|_]; [done|].
      destruct (m !! tid) as [row|]; simpl; [done|by rewrite lookup_empty].
  - rewrite lookup_insert_ne by done. by destruct (decide _) as [[? _]|_].
Qed.

Lemma nextVal_cycle v : nextVal (nextVal (nextVal v)) = v.
Proof. by destruct v as [[]|]. Qed.

Lemma checkCell_flags m cm t fl c :
  checkCell m cm t fl c
  = {| hasErrors := hasErrors fl || cellWrong m cm t c;
       allFilled := allFilled fl && cellFilled m t c |}.
Proof.
  unfold checkCell, cellWrong, cellFilled. destruct fl as [e f]; simpl.
  destruct (cell m (Taxon.id t) (Character.id c)) as [v|]; simpl.
  - case_bool_decide; simpl; by rewrite ?orb_true_r, ?orb_false_r, ?andb_true_r.
  - by rewrite orb_false_r, andb_false_r.
Qed.

Lemma row_flags m cm t characters fl :
  foldl (checkCell m cm t) fl characters
  = {| hasErrors := hasErrors fl || existsb (cellWrong m cm t) characters;
       allFilled := allFilled fl && forallb (cellFilled m t) characters |}.
Proof.
  revert fl. induction characters as [|c cs IH]; intros fl; simpl.
  - destruct fl; simpl. by rewrite orb_false_r, andb_true_r.
  - rewrite IH, checkCell_flags; simpl.
    by rewrite !orb_assoc, !andb_assoc.
Qed.

Lemma scan_flags_from m cm taxons characters fl :
  foldl (λ fl t, foldl (checkCell m cm t) fl characters) fl taxons
  = {| hasErrors :=
         hasErrors fl
         || existsb (λ t, existsb (cellWrong m cm t) characters) taxons;
       allFilled :=
         allFilled fl
         && forallb (λ t, forallb (cellFilled m t) characters) taxons |}.
Proof.
  revert fl. induction taxons as [|t ts IH]; intros fl; simpl.
  - destruct fl; simpl. by rewrite orb_false_r, andb_true_r.
  - rewrite IH, row_flags; simpl.
    by rewrite !orb_assoc, !andb_assoc.
Qed.

Lemma scan_allFilled taxons characters cm m :
  allFilled (scan taxons characters cm m) = true ↔
  ∀ t c, t ∈ taxons → c ∈ characters →
         cell m (Taxon.id t) (Character.id c) ≠ None.
Proof.
  unfold scan. rewrite scan_flags_from; simpl.
  rewrite forallb_forall. split.
  - intros H t c Ht Hc. apply list_elem_of_In in Ht, Hc.
    specialize (H t Ht). rewrite forallb_forall in H.
    specialize (H c Hc). unfold cellFilled in H. by apply bool_decide_eq_true in H.
  - intros H t Ht. apply forallb_forall. intros c Hc.
    apply bool_decide_eq_true. apply H; by apply list_elem_of_In.
Qed.

Lemma scan_hasErrors taxons characters cm m :
  hasErrors (scan taxons characters cm m) = true ↔
  ∃ t c v, t ∈ taxons ∧ c ∈ characters ∧
           cell m (Taxon.id t) (Character.id c) = Some v ∧
           shouldBePresent cm (Taxon.id t) (Character.id c) ≠ Some v.
Proof.
  unfold scan. rewrite scan_flags_from; simpl.
  rewrite existsb_exists. split.
  - intros (t & Ht & H). apply existsb_exists in H as (c & Hc & H).
    unfold cellWrong in H.
    destruct (cell m (Taxon.id t) (Character.id c)) as [v|] eqn:E; [|done].
    apply bool_decide_eq_true in H.
    exists t, c, v. rewrite <- !list_elem_of_In in *. naive_solver.
  - intros (t & c & v & Ht & Hc & E & H).
    exists t. split; [by apply list_elem_of_In|].
    apply existsb_exists. exists c. split; [by apply list_elem_of_In|].
    unfold cellWrong. rewrite E. apply bool_decide_eq_true. naive_solver.
Qed.

(** The three outcomes of [checkMatrix]. *)
Lemma checkMatrix_cases taxons characters cm st :
  let fl := scan taxons characters cm (userMatrix st) in
  let st' := checkMatrix taxons characters cm st in
  userMatrix st' = userMatrix st ∧
  ((allFilled fl = false ∧ showErrors st' = showErrors st ∧
    success st' = success st ∧ alerts st' = fillAlert :: alerts st)
   ∨ (allFilled fl = true ∧ hasErrors fl = true ∧ showErrors st' = true ∧
      success st' = success st ∧ alerts st' = alerts st)
   ∨ (allFilled fl = true ∧ hasErrors fl = false ∧
      showErrors st' = showErrors st ∧ success st' = true ∧
      alerts st' = alerts st)).
Proof.
  simpl. unfold checkMatrix.
  destruct (allFilled _) eqn:Ef; simpl; [|naive_solver].
  destruct (hasErrors _) eqn:Ee; simpl; naive_solver.
Qed.

(** On answer keys with a row for every taxon of the exercise, success is
    declared exactly for the completely and correctly filled grid. *)
Lemma checkMatrix_success_keyed taxons characters cm st :
  (∀ t, t ∈ taxons → is_Some (cm !! Taxon.id t)) →
  success st = false →
  success (checkMatrix taxons characters cm st) = true ↔
  ∀ t c, t ∈ taxons → c ∈ characters → cellMatchesKey cm (userMatrix st) t c.
Proof.
  intros Hkey Hs.
  assert (Hsbp : ∀ t c v, t ∈ taxons →
            (shouldBePresent cm (Taxon.id t) (Character.id c) = Some v ↔
             (v = true ↔ Character.id c ∈ default [] (cm !! Taxon.id t)))).
  { intros t c v Ht. unfold shouldBePresent.
    destruct (Hkey t Ht) as [l ->]; simpl. split.
    - intros [= <-]. by rewrite bool_decide_eq_true.
    - intros H. f_equal. destruct v.
      + apply bool_decide_eq_true. by apply H.
      + apply bool_decide_eq_false. intros Hin. by apply H in Hin. }
  pose proof (checkMatrix_cases taxons characters cm st) as (_ & Hc).
  pose proof (scan_allFilled taxons characters cm (userMatrix st)) as HF.
  pose proof (scan_hasErrors taxons characters cm (userMatrix st)) as HE.
  split.
  - intros Hsucc t c Ht Hcc.
    destruct Hc as [(_&_&E&_)|[(_&_&_&E&_)|(Ef&Ee&_)]]; [congruence..|].
    pose proof (proj1 HF Ef t c Ht Hcc) as Hset.
    destruct (cell (userMatrix st) (Taxon.id t) (Character.id c)) as [v|] eqn:E;
      [|done].
    exists v. split; [done|]. apply Hsbp; [done|].
    destruct (decide (shouldBePresent cm (Taxon.id t) (Character.id c) = Some v))
      as [|Hne]; [done|].
    assert (hasErrors (scan taxons characters cm (userMatrix st)) = true)
      by (apply (proj2 HE); exists t, c, v; by split_and!).
    congruence.
  - intros Hall.
    destruct Hc as [(Ef&_)|[(_&Ee&_)|(_&_&_&E&_)]]; [| |done].
    + apply not_true_iff_false in Ef. destruct Ef. apply (proj2 HF).
      intros t c Ht Hcc. destruct (Hall t c Ht Hcc) as (v & -> & _). done.
    + destruct (proj1 HE Ee) as (t & c & v & Ht & Hcc & E & Hne).
      destruct (Hall t c Ht Hcc) as (v' & E' & Hv').
      assert (v' = v) as -> by congruence.
      destruct Hne. by apply Hsbp.
Qed.

End matrix_facts.

Section matrix_claims.
Import MatrixExercise.

(** A failing check with every cell filled is what raises [showErrors];
    it is lowered by the next toggle, so it never coexists with success. *)
Lemma reachable_showErrors taxons characters cm st :
  reachable taxons characters cm st →
  showErrors st = true →
  success st = false ∧
  allFilled (scan taxons characters cm (userMatrix st)) = true ∧
  hasErrors (scan taxons characters cm (userMatrix st)) = true.
Proof.
  induction 1 as [| |st t c Hr IH|st Hr IH Hb]; simpl; try done.
  - unfold toggleCell. destruct (success st) eqn:Es; [by rewrite Es|done].
  - unfold button in Hb. destruct (success st) eqn:Es; [done|].
    pose proof (checkMatrix_cases taxons characters cm st) as (Hm & Hc).
    simpl in Hc. rewrite Hm. intros Hsh.
    destruct Hc as [(Ef&Esh&E&_)|[(Ef&Ee&_&E&_)|(Ef&Ee&Esh&_)]].
    + rewrite Esh in Hsh. rewrite E, Es. by apply IH.
    + by rewrite E, Es.
    + rewrite Esh in Hsh. destruct (IH Hsh) as (_&_&?). congruence.
Qed.

(** C3. One click on a cell of the grid moves that cell along
    unset -> present -> absent -> unset, so three clicks on the same cell
    bring it back; no other cell changes; afterwards the error
    highlighting is off; and once success has been declared the click
    changes nothing at all. *)
Theorem toggleCell_three_state_cycle taxons characters cm st
  (taxonId charId : string) :
  reachable taxons characters cm st →
  let st' := toggleCell taxonId charId st in
  (success st = false →
     cell (userMatrix st') taxonId charId
     = nextVal (cell (userMatrix st) taxonId charId)
     ∧ nextVal None = Some true
     ∧ nextVal (Some true) = Some false
     ∧ nextVal (Some false) = None
     ∧ cell (userMatrix
               (toggleCell taxonId charId (toggleCell taxonId charId st')))
            taxonId charId
       = cell (userMatrix st) taxonId charId)
  ∧ (∀ tid cid : string,
       ¬ (tid = taxonId ∧ cid = charId) →
       cell (userMatrix st') tid cid = cell (userMatrix st) tid cid)
  ∧ showErrors st' = false
  ∧ (success st = true → st' = st).
Proof.
  intros Hr st'. subst st'. split_and!.
  - intros Es. unfold toggleCell. rewrite Es; simpl.
    rewrite !cell_toggled. rewrite !decide_True by done.
    split_and!; try done. apply nextVal_cycle.
  - intros tid cid Hne. unfold toggleCell. destruct (success st); [done|].
    simpl. rewrite cell_toggled.
    destruct (decide _) as [[-> ->]|_]; [|done]. by destruct Hne.
  - unfold toggleCell. destruct (success st) eqn:Es; [|done].
    destruct (showErrors st) eqn:Esh; [|done].
    destruct (reachable_showErrors _ _ _ _ Hr Esh) as (? & _). congruence.
  - intros Es. unfold toggleCell. by rewrite Es.
Qed.

Lemma toggleCell_three_state_cycle_witness :
  let st := initEffect [Taxon.mk "t1" "Sardine" None "" None None "" None]
                       [Character.mk "c1" "Vertèbres" ""] mount in
  cell (userMatrix (toggleCell "t1" "c1" st)) "t1" "c1" = Some true
  ∧ showErrors (toggleCell "t1" "c1" st) = false.
Proof.
  pose proof (toggleCell_three_state_cycle
                [Taxon.mk "t1" "Sardine" None "" None None "" None]
                [Character.mk "c1" "Vertèbres" ""] ∅ _ "t1" "c1"
                (reach_init _ _ _)) as (H1 & _ & H3 & _).
  split; [|exact H3].
  destruct (H1 eq_refl) as (-> & _). reflexivity.
Defined.

(** C1, at the input where the code departs from it.  The exercise has one
    taxon and one character and the answer key has no row for the taxon,
    so the character is not listed for it.  The student marks the cell
    "absent" (two clicks) and presses "Vérifier": every cell is set and
    agrees with the key as the claim reads it, yet the check flags an
    error and does not declare success, because the missing row makes the
    expected value [undefined], which no set cell equals. *)
Theorem checkMatrix_rejects_absent_without_key_row :
  let taxons := [Taxon.mk "t1" "Sardine" None "" None None "" None] in
  let characters := [Character.mk "c1" "Vertèbres" ""] in
  let correctMatrix : gmap string (list string) := ∅ in
  let st := toggleCell "t1" "c1"
              (toggleCell "t1" "c1" (initEffect taxons characters mount)) in
  let st' := checkMatrix taxons characters correctMatrix st in
  (∀ t c, t ∈ taxons → c ∈ characters →
          cellMatchesKey correctMatrix (userMatrix st) t c)
  ∧ shouldBePresent correctMatrix "t1" "c1" = None
  ∧ success st' = false
  ∧ showErrors st' = true
  ∧ button st' = Verifier.
Proof.
  simpl. split_and!; try reflexivity.
  intros t c ->%list_elem_of_singleton ->%list_elem_of_singleton.
  exists false. split; [reflexivity|].
  simpl. rewrite lookup_empty. simpl. split; [done|].
  by intros ?%elem_of_nil.
Qed.

End matrix_claims.

(** ** The tree builder *)

Section tree_facts.
Import TreeExercise.

Implicit Types (sl : list Slot) (st : State) (data : ExerciseData).

Lemma truthy_opt_holds (s : Slot) :
  truthy_opt (filledWithId s) = true ↔ ∃ v, holds v s.
Proof.
  unfold holds, truthy_opt, truthy. destruct (filledWithId s) as [v|].
  - rewrite bool_decide_eq_true. split; [by exists v|by intros (? & [= ->] & ?)].
  - split; [done|by intros (? & ? & _)].
Qed.

Lemma placedIds_holds sl v :
  v ∈ placedIds sl ↔ ∃ s, s ∈ sl ∧ holds v s.
Proof.
  unfold placedIds, holds. rewrite list_elem_of_omap.
  split; intros (s & Hs & H); exists s; (split; [done|]).
  - destruct (filledWithId s) as [w|]; [|done].
    unfold truthy in H. case_bool_decide; naive_solver.
  - destruct H as [-> Hv]. unfold truthy. by rewrite bool_decide_true.
Qed.

Lemma allFilled_spec sl :
  allFilled sl = true ↔ ∀ s, s ∈ sl → filledWithId s ≠ None.
Proof.
  unfold allFilled. rewrite forallb_forall. split.
  - intros H s Hs%list_elem_of_In. exact (bool_decide_eq_true_1 _ (H s Hs)).
  - intros H s Hs%list_elem_of_In. exact (bool_decide_eq_true_2 _ (H s Hs)).
Qed.

Lemma allCorrect_spec sl :
  allCorrect sl = true ↔ ∀ s, s ∈ sl → filledWithId s = expectedId s.
Proof.
  unfold allCorrect. rewrite forallb_forall. split.
  - intros H s Hs%list_elem_of_In. exact (bool_decide_eq_true_1 _ (H s Hs)).
  - intros H s Hs%list_elem_of_In. exact (bool_decide_eq_true_2 _ (H s Hs)).
Qed.

Lemma checkCompletion_slots sl st :
  slots (checkCompletion sl st) = slots st
  ∧ selectedItemId (checkCompletion sl st) = selectedItemId st.
Proof.
  unfold checkCompletion. by destruct (allFilled sl), (allCorrect sl).
Qed.

(** C2. The completion check of the tree builder, run while success is
    not yet declared, declares it exactly when every slot is filled and
    every slot holds its expected id; when every slot is filled and some
    slot holds another id, success stays off and the mistake counter goes
    up by exactly one; in the remaining cases the counter does not move. *)
Theorem checkCompletion_success_iff_all_slots_match sl st :
  success st = false →
  let st' := checkCompletion sl st in
  (success st' = true ↔
     (∀ s, s ∈ sl → filledWithId s ≠ None)
     ∧ (∀ s, s ∈ sl → filledWithId s = expectedId s))
  ∧ ((∀ s, s ∈ sl → filledWithId s ≠ None) →
     ¬ (∀ s, s ∈ sl → filledWithId s = expectedId s) →
     success st' = false ∧ mistakes st' = mistakes st + 1)
  ∧ (¬ (∀ s, s ∈ sl → filledWithId s ≠ None)
     ∨ (∀ s, s ∈ sl → filledWithId s = expectedId s) →
     mistakes st' = mistakes st).
Proof.
  intros Hs st'. subst st'. unfold checkCompletion.
  rewrite <- allFilled_spec, <- allCorrect_spec.
  destruct (allFilled sl), (allCorrect sl); simpl; rewrite ?Hs;
    split_and!; try done; try tauto; try (intros [? ?]; done).
  all: intros [H|H]; done.
Qed.

Lemma checkCompletion_success_iff_all_slots_match_witness :
  let wrong := [ mkSlot "attr-0" attribute 0 0 (Some "c1") (Some "c2");
                 mkSlot "taxon-0" taxon 0 0 (Some "t1") (Some "t1") ] in
  success (checkCompletion wrong TreeExercise.mount) = false
  ∧ mistakes (checkCompletion wrong TreeExercise.mount) = 1.
Proof.
  apply (checkCompletion_success_iff_all_slots_match
           [ mkSlot "attr-0" attribute 0 0 (Some "c1") (Some "c2");
             mkSlot "taxon-0" taxon 0 0 (Some "t1") (Some "t1") ]
           TreeExercise.mount eq_refl).
  - intros s Hs. repeat (apply elem_of_cons in Hs as [->|Hs]; [done|]).
    by apply elem_of_nil in Hs.
  - intros H. specialize (H _ (list_elem_of_here _ _)). discriminate H.
Defined.

End tree_facts.

Section tree_inventory.
Import TreeExercise.

Implicit Types (sl : list Slot) (st : State) (data : ExerciseData).

Lemma available_not_placed data st ty it :
  it ∈ getAvailableItems data st ty → itemId it ∉ placedIds (slots st).
Proof.
  unfold getAvailableItems. destruct ty.
  - intros (c & -> & Hc)%list_elem_of_fmap.
    by apply list_elem_of_filter in Hc as [? _].
  - intros (t & -> & Ht)%list_elem_of_fmap.
    by apply list_elem_of_filter in Ht as [? _].
Qed.

Lemma stepSlots_empty b tip positions count index step out s :
  stepSlots b tip positions count index step = Some out →
  s ∈ out → filledWithId s = None.
Proof.
  unfold stepSlots. destruct (positions !! index) as [p|]; [|done]; simpl.
  intros [= <-] Hs. apply elem_of_app in Hs as [Hs|Hs].
  - destruct (truthy_opt (characterId step)); [|by apply elem_of_nil in Hs].
    by apply list_elem_of_singleton in Hs as ->.
  - destruct (truthy_opt (branchingTaxonId step)); [|by apply elem_of_nil in Hs].
    by apply list_elem_of_singleton in Hs as ->.
Qed.

Lemma newSlots_empty data sl s :
  newSlots data = Some sl → s ∈ sl → filledWithId s = None.
Proof.
  unfold newSlots. destruct (effectTrunkTipX data) as [tip|]; [|done]; simpl.
  destruct (mapM _ _) as [outs|] eqn:E; [|done]; simpl.
  intros [= <-] (out & Hs & Hout)%list_elem_of_join.
  apply mapM_Some_1 in E.
  apply list_elem_of_lookup in Hout as [i Hi].
  destruct (Forall2_lookup_r _ _ _ _ _ E Hi) as ([index step] & _ & Hstep).
  eapply stepSlots_empty; eauto.
Qed.

Lemma holds_insert_inv sl i s' j sj v :
  <[i := s']> sl !! j = Some sj → holds v sj →
  (j = i ∧ sj = s') ∨ (j ≠ i ∧ sl !! j = Some sj).
Proof.
  intros Hj _. destruct (decide (j = i)) as [->|Hne].
  - left. split; [done|].
    destruct (decide (i < length sl)) as [Hlt|Hge].
    + rewrite list_lookup_insert_eq in Hj by done. congruence.
    + rewrite list_insert_ge in Hj by lia.
      apply lookup_lt_Some in Hj. lia.
  - right. split; [done|]. by rewrite list_lookup_insert_ne in Hj.
Qed.

Lemma handleSlotClick_invariant st slotId :
  atMostOneSlotPerId (slots st) → selectionFree st →
  atMostOneSlotPerId (slots (handleSlotClick slotId st))
  ∧ selectionFree (handleSlotClick slotId st).
Proof.
  intros Hone Hsel. unfold handleSlotClick.
  destruct (success st); [done|].
  destruct (list_find _ _) as [[k slot]|] eqn:Hfind; [|done].
  apply list_find_Some in Hfind as (Hk & _ & _).
  destruct (truthy_opt (filledWithId slot)) eqn:Hfilled.
  - (* the slot is emptied *)
    assert (Hsub : ∀ j sj v,
              <[k := setFilled slot None]> (slots st) !! j = Some sj →
              holds v sj → slots st !! j = Some sj).
    { intros j sj v Hj Hv.
      destruct (holds_insert_inv _ _ _ _ _ _ Hj Hv) as [[-> ->]|[_ ?]]; [|done].
      by destruct Hv as [? _]. }
    split; simpl.
    + intros i j si sj v Hi Hj Hvi Hvj. eapply Hone; eauto.
    + intros sel ty Hs Hin. apply (Hsel sel ty Hs).
      apply placedIds_holds in Hin as (s & Hin & Hv).
      apply list_elem_of_lookup in Hin as [j Hj].
      apply placedIds_holds. exists s. split; [|done].
      apply list_elem_of_lookup. exists j. eauto.
  - destruct (selectedItemId st) as [[sel ty]|] eqn:Hselected; [|done].
    case_bool_decide as Hty; [|done].
(* the selected item is placed *)
pose proof (checkCompletion_slots
              (<[k := setFilled slot (Some sel)]> (slots st))
              {| slots := <[k := setFilled slot (Some sel)]> (slots st);
                 selectedItemId := None; success := false;
                 mistakes := mistakes st; alerts := alerts st;
                 timers := timers st |})
  as [-> Hnone].
split; simpl.
+ assert (Hfree : ∀ j sj, slots st !! j = Some sj → ¬ holds sel sj).
  { intros j sj Hj Hv. apply (Hsel sel ty Hselected).
    apply placedIds_holds. exists sj. split; [|done].
    apply list_elem_of_lookup. eauto. }
  intros i j si sj v Hi Hj Hvi Hvj.
  destruct (holds_insert_inv _ _ _ _ _ _ Hi Hvi) as [[-> ->]|[Hik Hi']];
    destruct (holds_insert_inv _ _ _ _ _ _ Hj Hvj) as [[-> ->]|[Hjk Hj']];
    try done.
  * destruct Hvi as [[= <-] _]. by destruct (Hfree _ _ Hj').
  * destruct Hvj as [[= <-] _]. by destruct (Hfree _ _ Hi').
  * eapply Hone; eauto.
+ intros s ty'. unfold selectionFree. by rewrite Hnone.
Qed.

Lemma fossilEffect_lookup data st j sj :
  slots (fossilEffect data st) !! j = Some sj →
  ∃ s, slots st !! j = Some s ∧ filledWithId sj = filledWithId s
       ∧ id sj = id s ∧ type sj = type s ∧ expectedId sj = expectedId s.
Proof.
  unfold fossilEffect. destruct (success st).
  - simpl. rewrite list_lookup_fmap. destruct (slots st !! j) as [s|]; [|done].
    simpl. intros [= <-]. exists s. split; [done|].
    by destruct (_ && _).
  - intros H. exists sj. by rewrite H.
Qed.

Lemma fossilEffect_invariant data st :
  atMostOneSlotPerId (slots st) → selectionFree st →
  atMostOneSlotPerId (slots (fossilEffect data st))
  ∧ selectionFree (fossilEffect data st).
Proof.
  intros Hone Hsel. split.
  - intros i j si sj v Hi Hj [Hvi ?] [Hvj ?].
    apply fossilEffect_lookup in Hi as (s1 & Hi & E1 & _).
    apply fossilEffect_lookup in Hj as (s2 & Hj & E2 & _).
    eapply (Hone i j s1 s2 v); eauto; split; congruence.
  - intros sel ty Hs Hin.
    assert (selectedItemId (fossilEffect data st) = selectedItemId st) as E
      by (unfold fossilEffect; by destruct (success st)).
    rewrite E in Hs. apply (Hsel sel ty Hs).
    apply placedIds_holds in Hin as (s & Hin & [Hv ?]).
    apply list_elem_of_lookup in Hin as [j Hj].
    apply fossilEffect_lookup in Hj as (s0 & Hj & E0 & _).
    apply placedIds_holds. exists s0. split.
    + apply list_elem_of_lookup. eauto.
    + split; congruence.
Qed.

Lemma alertTimer_frame st :
  slots (alertTimer st) = slots st
  ∧ selectedItemId (alertTimer st) = selectedItemId st
  ∧ success (alertTimer st) = success st
  ∧ mistakes (alertTimer st) = mistakes st.
Proof. unfold alertTimer. by destruct (timers st). Qed.

Lemma reachable_invariant data st :
  live data st → atMostOneSlotPerId (slots st) ∧ selectionFree st.
Proof.
  induction 1 as [st0 Hl|st st' Hr [Hone Hsel] Hstep].
  - unfold layoutEffect in Hl.
    destruct (newSlots data) as [sl|] eqn:E; [|done].
    simpl in Hl. injection Hl as <-. split.
    + intros i j si sj v Hi _ [Hv _] _.
      apply list_elem_of_lookup_2 in Hi.
      rewrite (newSlots_empty _ _ _ E Hi) in Hv. done.
    + by intros sel ty.
  - destruct Hstep as [st it ty Hit|st slot Hslot|st Hsucc|st Htimer].
    + unfold handleItemClick. destruct (success st); [done|]. split; [done|].
      intros sel ty'; simpl. intros Hs.
      assert (sel = itemId it) as ->.
      { destruct (selectedItemId st) as [[s0 ?]|]; [|congruence].
        case_bool_decide; congruence. }
      by eapply available_not_placed.
    + by apply handleSlotClick_invariant.
    + by apply fossilEffect_invariant.
    + destruct (alertTimer_frame st) as (E1 & E2 & _).
      unfold selectionFree. by rewrite E1, E2.
Qed.

End tree_inventory.

Section tree_slot_ids.
Import TreeExercise.

Implicit Types (sl : list Slot) (st : State) (data : ExerciseData).

Lemma slot_label_inj (i j : nat) :
  ("attr-" +:+ pretty i = "attr-" +:+ pretty j → i = j)
  ∧ ("taxon-" +:+ pretty i = "taxon-" +:+ pretty j → i = j)
  ∧ "attr-" +:+ pretty i ≠ "taxon-" +:+ pretty j.
Proof.
  split_and!; intros H; cbv [String.app String.append] in H.
  - injection H as H. by apply (inj pretty) in H.
  - injection H as H. by apply (inj pretty) in H.
  - discriminate H.
Qed.

Lemma stepSlots_ids b tip positions count index step out :
  stepSlots b tip positions count index step = Some out →
  NoDup (id <$> out)
  ∧ ∀ s, s ∈ out →
         id s = "attr-" +:+ pretty index ∨ id s = "taxon-" +:+ pretty index.
Proof.
  unfold stepSlots. destruct (positions !! index) as [p|]; [|done]; simpl.
  intros [= <-].
  destruct (truthy_opt (characterId step)),
           (truthy_opt (branchingTaxonId step)); simpl.
  - split.
    + apply NoDup_cons. split; [|apply NoDup_singleton].
      intros H%list_elem_of_singleton.
      by apply (proj2 (proj2 (slot_label_inj index index))) in H.
    + intros s Hs. apply elem_of_cons in Hs as [->|Hs]; [by left|].
      apply list_elem_of_singleton in Hs as ->. by right.
  - split; [apply NoDup_singleton|].
    intros s ->%list_elem_of_singleton. by left.
  - split; [apply NoDup_singleton|].
    intros s ->%list_elem_of_singleton. by right.
  - split; [apply NoDup_nil_2|]. by intros s ?%elem_of_nil.
Qed.

Lemma joined_slot_ids b tip positions count
  (ps : list (nat * EvolutionStep)) (outs : list (list Slot)) :
  NoDup ps.*1 →
  Forall2 (λ p out,
             (let '(index, step) := p in
              stepSlots b tip positions count index step) = Some out)
          ps outs →
  NoDup (id <$> mjoin outs)
  ∧ ∀ s, s ∈ mjoin outs →
         ∃ index, index ∈ ps.*1 ∧
                  (id s = "attr-" +:+ pretty index
                   ∨ id s = "taxon-" +:+ pretty index).
Proof.
  intros Hnd HF. induction HF as [|[index step] out ps outs Hout HF IH]; simpl.
  - split; [apply NoDup_nil_2|]. by intros s ?%elem_of_nil.
  - apply NoDup_cons in Hnd as [Hnotin Hnd]. simpl in Hnotin.
    destruct (IH Hnd) as [IHnd IHids].
    destruct (stepSlots_ids _ _ _ _ _ _ _ Hout) as [Hnd1 Hids1].
    split.
    + rewrite fmap_app. apply NoDup_app. split_and!; [done| |done].
      intros x (s1 & -> & Hs1)%list_elem_of_fmap (s2 & E & Hs2)%list_elem_of_fmap.
      destruct (IHids s2 Hs2) as (index' & Hin & Hid2).
      assert (index = index') as <-; [|done].
      destruct (slot_label_inj index index') as (Ha & Ht & Hat).
      destruct (slot_label_inj index' index) as (_ & _ & Hta).
      destruct (Hids1 s1 Hs1) as [E1|E1], Hid2 as [E2|E2];
        rewrite E1, E2 in E; auto; by (destruct Hat || destruct Hta).
    + intros s Hs. apply elem_of_app in Hs as [Hs|Hs].
      * exists index. split; [by left|]. by apply Hids1.
      * destruct (IHids s Hs) as (index' & ? & ?).
        exists index'. split; [by right|done].
Qed.

Lemma newSlots_ids_unique data sl :
  newSlots data = Some sl → NoDup (id <$> sl).
Proof.
  unfold newSlots. destruct (effectTrunkTipX data) as [tip|]; [|done]; simpl.
  destruct (mapM _ _) as [outs|] eqn:E; [|done]; simpl.
  intros [= <-]. apply mapM_Some_1 in E.
  eapply joined_slot_ids; [|exact E].
  apply NoDup_alt. intros i j x Hi Hj.
  rewrite list_lookup_fmap, list_lookup_imap in Hi, Hj.
  destruct (evolutionOrder data !! i); [|done].
  destruct (evolutionOrder data !! j); [|done].
  simpl in *. congruence.
Qed.

Lemma handleSlotClick_ids st slotId :
  id <$> slots (handleSlotClick slotId st) = id <$> slots st.
Proof.
  unfold handleSlotClick. destruct (success st); [done|].
  destruct (list_find _ _) as [[k slot]|] eqn:Hfind; [|done].
  apply list_find_Some in Hfind as (Hk & _ & _).
  assert (∀ v, id <$> <[k := setFilled slot v]> (slots st) = id <$> slots st)
    as Hins.
  { intros v. rewrite list_fmap_insert. simpl.
    apply list_insert_id. by rewrite list_lookup_fmap, Hk. }
  destruct (truthy_opt (filledWithId slot)); [by apply Hins|].
  destruct (selectedItemId st) as [[sel ty]|]; [|done].
  case_bool_decide; [|done].
  destruct (checkCompletion_slots
              (<[k := setFilled slot (Some sel)]> (slots st))
              {| slots := <[k := setFilled slot (Some sel)]> (slots st);
                 selectedItemId := None; success := false;
                 mistakes := mistakes st; alerts := alerts st;
                 timers := timers st |}) as [-> _].
  by apply Hins.
Qed.

Lemma fossilEffect_ids data st :
  id <$> slots (fossilEffect data st) = id <$> slots st.
Proof.
  unfold fossilEffect. destruct (success st); [|done]. simpl.
  rewrite <- list_fmap_compose. apply list_fmap_ext.
  intros i s _. simpl. by destruct (_ && _).
Qed.

Lemma reachable_ids_unique data st :
  live data st → NoDup (id <$> slots st).
Proof.
  induction 1 as [st0 Hl|st st' Hr IH Hstep].
  - unfold layoutEffect in Hl.
    destruct (newSlots data) as [sl|] eqn:E; [|done].
    simpl in Hl. injection Hl as <-. by eapply newSlots_ids_unique.
  - destruct Hstep as [st it ty Hit|st slot Hslot|st Hsucc|st Htimer].
    + unfold handleItemClick. by destruct (success st).
    + by rewrite handleSlotClick_ids.
    + by rewrite fossilEffect_ids.
    + by destruct (alertTimer_frame st) as (-> & _).
Qed.

(** A click on a slot with its effects flushed: two steps when success
    turns true, one otherwise. *)
Lemma slotClicked_live data st slot :
  live data st → slot ∈ slots st → live data (slotClicked data (id slot) st).
Proof.
  intros Hr Hs. unfold slotClicked.
  assert (live data (handleSlotClick (id slot) st)) as H1.
  { eapply reach_step; [exact Hr|by apply step_slot]. }
  case_bool_decide as Hc; [|done].
  eapply reach_step; [exact H1|]. apply step_fossil.
  destruct (success (handleSlotClick (id slot) st)) eqn:E; [done|].
  destruct (success st) eqn:E2; [|done].
  exfalso. unfold handleSlotClick in E. rewrite E2 in E. congruence.
Qed.

(** With unique slot ids, the handler finds the slot that was clicked. *)
Lemma find_clicked_slot sl k slot :
  NoDup (id <$> sl) → sl !! k = Some slot →
  list_find (λ s, id s = id slot) sl = Some (k, slot).
Proof.
  intros Hnd Hk. apply list_find_Some. split_and!; [done..|].
  intros j sj Hj Hlt E.
  assert (j = k); [|lia].
  eapply NoDup_alt; [exact Hnd| |].
  - rewrite list_lookup_fmap, Hj. simpl. by rewrite E.
  - by rewrite list_lookup_fmap, Hk.
Qed.

End tree_slot_ids.

Section tree_claims.
Import TreeExercise.

Implicit Types (sl : list Slot) (st : State) (data : ExerciseData).

(** The layout effect succeeds as soon as the exercise has a step. *)
Lemma newSlots_defined data :
  evolutionOrder data ≠ [] → is_Some (newSlots data).
Proof.
  intros Hne. unfold newSlots, effectTrunkTipX.
  destruct (length (evolutionOrder data)) as [|last] eqn:Elen.
  { by destruct (evolutionOrder data). }
  assert (is_Some (taxonPositions data !! last)) as [p ->].
  { apply lookup_lt_is_Some. unfold taxonPositions. rewrite length_imap. lia. }
  simpl.
  match goal with |- is_Some (_ <$> ?m) => assert (is_Some m) as [outs ->] end;
    [|by eexists].
  apply mapM_is_Some_2, Forall_lookup_2. intros i [index step] Hi. simpl.
  rewrite list_lookup_imap in Hi.
  destruct (evolutionOrder data !! i) as [s|] eqn:Es; [|done].
  simpl in Hi. injection Hi as <- <-.
  unfold stepSlots.
  assert (is_Some (taxonPositions data !! i)) as [q ->]; [|by eexists].
  apply lookup_lt_is_Some. unfold taxonPositions. rewrite length_imap.
  by eapply lookup_lt_Some.
Qed.

Lemma layoutEffect_defined data :
  evolutionOrder data ≠ [] → is_Some (layoutEffect data mount).
Proof.
  intros Hne. unfold layoutEffect.
  destruct (newSlots_defined data Hne) as [sl ->]. by eexists.
Qed.

(** The slots after a click, slot by slot. *)
Lemma handleSlotClick_lookup st slotId k s' :
  slots (handleSlotClick slotId st) !! k = Some s' →
  ∃ s, slots st !! k = Some s ∧ type s' = type s ∧
       (filledWithId s' = filledWithId s
        ∨ filledWithId s' = None
        ∨ (truthy_opt (filledWithId s) = false ∧
           ∃ sel, filledWithId s' = Some sel ∧
                  selectedItemId st = Some (sel, type s))).
Proof.
  unfold handleSlotClick. destruct (success st); [by eauto|].
  destruct (list_find _ _) as [[i slot]|] eqn:Hfind; [|by eauto].
  apply list_find_Some in Hfind as (Hi & _ & _).
  assert (Hins : ∀ v, <[i := setFilled slot v]> (slots st) !! k = Some s' →
            (k = i ∧ s' = setFilled slot v) ∨ slots st !! k = Some s').
  { intros v Hk. destruct (decide (k = i)) as [->|Hne].
    - left. split; [done|].
      rewrite list_lookup_insert_eq in Hk by (by eapply lookup_lt_Some).
      congruence.
    - right. by rewrite list_lookup_insert_ne in Hk. }
  destruct (truthy_opt (filledWithId slot)) eqn:Hfilled; simpl.
  - intros Hk. apply Hins in Hk as [[-> ->]|Hk]; [|by eauto].
    exists slot. by eauto.
  - destruct (selectedItemId st) as [[sel ty]|] eqn:Hselected; [|by eauto].
    case_bool_decide as Hty; [|by eauto]. subst ty.
    destruct (checkCompletion_slots
                (<[i := setFilled slot (Some sel)]> (slots st))
                {| slots := <[i := setFilled slot (Some sel)]> (slots st);
                   selectedItemId := None; success := false;
                   mistakes := mistakes st; alerts := alerts st;
                 timers := timers st |}) as [-> _].
    simpl. intros Hk. apply Hins in Hk as [[-> ->]|Hk]; [|by eauto].
    exists slot. split_and!; [done..|]. right. right. by eauto.
Qed.

(** X26. For non-empty ids the inventory discipline holds.  In every state the
    student can bring the tree builder to, no non-empty id is held by two
    slots.  The inventory lists only items whose id no slot holds; a click
    on a slot changes a slot's content only by emptying it or by putting
    the selected item, which no slot holds, into an empty slot of the
    item's type; and a click on a slot that holds an id empties that slot
    and nothing else, after which the items with that id are listed in the
    inventory again. *)
Theorem tree_builder_places_nonempty_ids_once data st :
  reachable data st →
  atMostOneSlotPerId (slots st)
  ∧ (∀ ty it, it ∈ getAvailableItems data st ty →
              ∀ s, s ∈ slots st → ¬ holds (itemId it) s)
  ∧ (∀ slot k s',
       slot ∈ slots st →
       slots (slotClicked data (id slot) st) !! k = Some s' →
       ∃ s, slots st !! k = Some s ∧ type s' = type s ∧
            (filledWithId s' = filledWithId s
             ∨ filledWithId s' = None
             ∨ (truthy_opt (filledWithId s) = false ∧
                ∃ sel, filledWithId s' = Some sel ∧
                       selectedItemId st = Some (sel, type s) ∧
                       sel ∉ placedIds (slots st))))
  ∧ (∀ k slot v,
       slots st !! k = Some slot → success st = false → holds v slot →
       let st' := slotClicked data (id slot) st in
       slots st' = <[k := setFilled slot None]> (slots st)
       ∧ (v ∉ placedIds (slots st'))
       ∧ (∀ t, t ∈ taxons data → Taxon.id t = v →
               ItemTaxon t ∈ getAvailableItems data st' taxon)
       ∧ (∀ c, c ∈ characters data → Character.id c = v →
               ItemCharacter c ∈ getAvailableItems data st' attribute)).
Proof.
  intros Hr.
  assert (atMostOneSlotPerId (slots st) ∧ selectionFree st
          ∧ NoDup (id <$> slots st)) as (Hone & Hsel & Hids).
  { destruct Hr as [->|Hr].
    - split_and!; [by intros i j si sj v Hi|by intros sel ty|constructor].
    - destruct (reachable_invariant data st Hr) as [? ?].
      split_and!; [done..|by apply (reachable_ids_unique data)]. }
  split_and!.
  - exact Hone.
  - intros ty it Hit s Hs Hv.
    apply (available_not_placed _ _ _ _ Hit).
    apply placedIds_holds. eauto.
  - intros slot k s' _ Hk.
    assert (∃ s1, slots (handleSlotClick (id slot) st) !! k = Some s1
                  ∧ type s' = type s1 ∧ filledWithId s' = filledWithId s1)
      as (s1 & Hk1 & Ety & Efi).
    { unfold slotClicked in Hk. case_bool_decide.
      - apply fossilEffect_lookup in Hk as (s1 & ? & ? & _ & ? & _). eauto.
      - eauto. }
    apply handleSlotClick_lookup in Hk1 as (s & Hs & Ety1 & Hcases).
    exists s. split_and!; [done|congruence|].
    rewrite Efi.
    destruct Hcases as [?|[?|(? & sel & ? & Hselected)]]; [by eauto..|].
    right. right. split; [done|]. exists sel. split_and!; [done..|].
    by eapply Hsel.
  - intros k slot v Hk Hs Hv st'.
    assert (Hclick : handleSlotClick (id slot) st
              = {| slots := <[k := setFilled slot None]> (slots st);
                   selectedItemId := selectedItemId st;
                   success := success st; mistakes := mistakes st;
                   alerts := alerts st; timers := timers st |}).
    { unfold handleSlotClick. rewrite Hs.
      rewrite (find_clicked_slot _ _ _ Hids Hk).
      assert (truthy_opt (filledWithId slot) = true) as ->; [|done].
      apply truthy_opt_holds. eauto. }
    assert (Hslots : slots st' = <[k := setFilled slot None]> (slots st)).
    { subst st'. unfold slotClicked. rewrite Hclick. simpl.
      by rewrite bool_decide_false by (by intros []). }
    assert (Hfree : v ∉ placedIds (slots st')).
    { rewrite Hslots. intros (s & Hin & Hvs)%placedIds_holds.
      apply list_elem_of_lookup in Hin as [j Hj].
      destruct (holds_insert_inv _ _ _ _ _ _ Hj Hvs) as [[-> ->]|[Hne Hj']].
      - by destruct Hvs as [? _].
      - destruct Hne. eapply Hone; eauto. }
    split_and!; [done..| |].
    + intros t Ht <-. unfold getAvailableItems.
      apply list_elem_of_fmap_2, list_elem_of_filter. done.
    + intros c Hc <-. unfold getAvailableItems.
      apply list_elem_of_fmap_2, list_elem_of_filter. done.
Qed.

Lemma emptyIdStart_layout :
  layoutEffect Worlds.emptyIdData mount = Some Worlds.emptyIdStart.
Proof. vm_compute; reflexivity. Qed.

Lemma emptyId_session_reachable :
  live Worlds.emptyIdData Worlds.emptyIdPlaced2.
Proof.
  assert (Hitem : ∀ st,
            placedIds (slots st) = [] →
            ItemTaxon Worlds.emptyIdTaxon
            ∈ getAvailableItems Worlds.emptyIdData st taxon).
  { intros st E. unfold getAvailableItems. rewrite E.
    apply list_elem_of_fmap_2, list_elem_of_filter.
    split; [by intros ?%elem_of_nil|apply list_elem_of_here]. }
  assert (Hslot : ∀ st (k : nat) slotId,
            live Worlds.emptyIdData st →
            id <$> (slots st !! k) = Some slotId →
            live Worlds.emptyIdData (slotClicked Worlds.emptyIdData slotId st)).
  { intros st k slotId Hl Hk.
    destruct (slots st !! k) as [slot|] eqn:E; [|done].
    injection Hk as <-. apply slotClicked_live; [done|].
    by eapply list_elem_of_lookup_2. }
  unfold Worlds.emptyIdPlaced2.
  apply (Hslot Worlds.emptyIdSelected2 3%nat "taxon-1");
    [|vm_compute; reflexivity].
  apply (reach_step _ Worlds.emptyIdPlaced1).
  2:{ unfold Worlds.emptyIdSelected2.
      apply (step_item _ Worlds.emptyIdPlaced1 (ItemTaxon Worlds.emptyIdTaxon) taxon).
      apply Hitem. vm_compute; reflexivity. }
  unfold Worlds.emptyIdPlaced1.
  apply (Hslot Worlds.emptyIdSelected1 1%nat "taxon-0");
    [|vm_compute; reflexivity].
  apply (reach_step _ Worlds.emptyIdStart).
  2:{ unfold Worlds.emptyIdSelected1.
      apply (step_item _ Worlds.emptyIdStart (ItemTaxon Worlds.emptyIdTaxon) taxon).
      apply Hitem. vm_compute; reflexivity. }
  apply reach_layout, emptyIdStart_layout.
Qed.

(** C9, at the input where the code departs from it.  One taxon of the
    exercise has the empty string as id.  The student selects it and drops
    it on the first taxon slot; the inventory still lists it, because the
    filter that removes placed ids, and the test for a filled slot, take
    the empty string for "nothing"; the student selects it again and drops
    it on the second taxon slot.  The state is reachable and the same id
    now fills two slots, while the inventory keeps offering it. *)
Theorem empty_id_fills_two_slots :
  reachable Worlds.emptyIdData Worlds.emptyIdPlaced2
  ∧ id <$> slots Worlds.emptyIdPlaced2
    = ["attr-0"; "taxon-0"; "attr-1"; "taxon-1"]
  ∧ filledWithId <$> slots Worlds.emptyIdPlaced2
    = [None; Some ""; None; Some ""]
  ∧ itemId <$> getAvailableItems Worlds.emptyIdData Worlds.emptyIdPlaced2 taxon
    = [""; "t1"; "t2"]
  ∧ ¬ (∀ (i j : nat) si sj v,
         slots Worlds.emptyIdPlaced2 !! i = Some si →
         slots Worlds.emptyIdPlaced2 !! j = Some sj →
         filledWithId si = Some v → filledWithId sj = Some v → i = j).
Proof.
  split_and!.
  - right. exact emptyId_session_reachable.
  - vm_compute; reflexivity.
  - vm_compute; reflexivity.
  - vm_compute; reflexivity.
  - intros H.
    assert (H1 : filledWithId <$> (slots Worlds.emptyIdPlaced2 !! 1%nat)
                 = Some (Some "")) by (vm_compute; reflexivity).
    assert (H3 : filledWithId <$> (slots Worlds.emptyIdPlaced2 !! 3%nat)
                 = Some (Some "")) by (vm_compute; reflexivity).
    destruct (slots Worlds.emptyIdPlaced2 !! 1%nat) as [s1|] eqn:E1;
      [|discriminate H1].
    destruct (slots Worlds.emptyIdPlaced2 !! 3%nat) as [s3|] eqn:E3;
      [|discriminate H3].
    injection H1 as F1. injection H3 as F3.
    specialize (H 1%nat 3%nat s1 s3 "" E1 E3 F1 F3). discriminate H.
Qed.

End tree_claims.

(** ** The comb-tree layout *)

Section layout_facts.

Local Open Scope Qc_scope.

Lemma num_0 : num 0 = 0.
Proof. by apply Qc_is_canon. Qed.

Lemma num_1 : num 1 = 1.
Proof. by apply Qc_is_canon. Qed.

Lemma num_add (a b : Z) : num (a + b) = num a + num b.
Proof.
  unfold num. apply Qc_is_canon. simpl.
  rewrite !Qred_correct. by rewrite inject_Z_plus.
Qed.

Lemma num_2 : num 2 = 1 + 1.
Proof. by rewrite <- num_1, <- num_add. Qed.

Lemma half_eq : half = 1 / (1 + 1).
Proof. by apply Qc_is_canon. Qed.

Lemma idx_S (k : nat) : idx (S k) = idx k + 1.
Proof. unfold idx. by rewrite Nat2Z.inj_succ, <- Z.add_1_r, num_add, num_1. Qed.

Lemma idx_nonzero (n : nat) : (1 <= n)%nat → idx n ≠ 0.
Proof.
  intros Hn E. unfold idx, num in E.
  apply Q2Qc_eq_iff in E. unfold Qeq in E. simpl in E. lia.
Qed.

Lemma two_nonzero : (1 + 1 : Qc) ≠ 0.
Proof. intros E. apply (f_equal this) in E. discriminate E. Qed.

End layout_facts.

Section layout_claims.

Local Open Scope Qc_scope.

Ltac qc_field n Hn :=
  rewrite ?half_eq, ?num_2; field;
  repeat split; first [apply (idx_nonzero n Hn) | apply two_nonzero].

(** The three parameters of a step are the thirds one expects. *)
Lemma step_parameters (n i : nat) :
  (1 <= n)%nat →
  TreeExercise.prevNodeT n i = idx i / idx n
  ∧ TreeExercise.attrT n i = (idx i + half) / idx n
  ∧ TreeExercise.nodeT n i = (idx i + 1) / idx n
  ∧ TreeExercise.nodeT n (n - 1) = 1.
Proof.
  intros Hn.
  unfold TreeExercise.prevNodeT, TreeExercise.attrT, TreeExercise.nodeT.
  split_and!; try (field; apply (idx_nonzero n Hn)).
  destruct n as [|k]; [lia|].
  replace (S k - 1)%nat with k by lia. rewrite idx_S.
  field. rewrite <- idx_S. by apply idx_nonzero.
Qed.

Lemma tree_trunk_affine (b tip t : Qc) :
  let P := TreeExercise.getTrunkPoint b tip in
  P t = {| px := px (P 0) + t * (px (P 1) - px (P 0));
           py := py (P 0) + t * (py (P 1) - py (P 0)) |}.
Proof. simpl. unfold TreeExercise.getTrunkPoint. f_equal; ring. Qed.

Lemma teacher_trunk_affine (n : nat) (t : Qc) :
  let P := TeacherZone.getTrunkPoint n in
  P t = {| px := px (P 0) + t * (px (P 1) - px (P 0));
           py := py (P 0) + t * (py (P 1) - py (P 0)) |}.
Proof. simpl. unfold TeacherZone.getTrunkPoint. f_equal; ring. Qed.

Lemma tree_attr_midpoint (b tip : Qc) (n i : nat) :
  (1 <= n)%nat →
  let P := TreeExercise.getTrunkPoint b tip in
  P (TreeExercise.attrT n i)
  = midpoint (P (TreeExercise.prevNodeT n i)) (P (TreeExercise.nodeT n i)).
Proof.
  intros Hn. simpl.
  unfold midpoint, TreeExercise.getTrunkPoint, TreeExercise.attrT,
    TreeExercise.prevNodeT, TreeExercise.nodeT; simpl.
  f_equal; qc_field n Hn.
Qed.

Lemma teacher_attr_midpoint (n i : nat) :
  (1 <= n)%nat →
  let P := TeacherZone.getTrunkPoint n in
  P (TreeExercise.attrT n i)
  = midpoint (P (TreeExercise.prevNodeT n i)) (P (TreeExercise.nodeT n i)).
Proof.
  intros Hn. simpl.
  unfold midpoint, TeacherZone.getTrunkPoint, TreeExercise.attrT,
    TreeExercise.prevNodeT, TreeExercise.nodeT; simpl.
  f_equal; qc_field n Hn.
Qed.

(** The layout effect reads the tip abscissa off the last taxon position;
    [getGeometry] recomputes the same number. *)
Lemma effectTrunkTipX_eq data :
  (1 <= length (evolutionOrder data))%nat →
  TreeExercise.effectTrunkTipX data
  = Some (TreeExercise.geomTrunkTipX (length (evolutionOrder data))).
Proof.
  intros Hn. unfold TreeExercise.effectTrunkTipX, TreeExercise.geomTrunkTipX.
  destruct (length (evolutionOrder data)) as [|last] eqn:Elen; [lia|].
  unfold TreeExercise.taxonPositions. rewrite list_lookup_imap.
  destruct (lookup_lt_is_Some_2 (evolutionOrder data) last) as [s ->]; [lia|].
  simpl. f_equal. rewrite idx_S. ring.
Qed.

(** The attribute slot the layout effect creates for step [i]. *)
Lemma newSlots_attr_slot data i step :
  evolutionOrder data !! i = Some step →
  truthy_opt (characterId step) = true →
  let n := length (evolutionOrder data) in
  let P := TreeExercise.getTrunkPoint TreeExercise.geomTrunkBaseX
             (TreeExercise.geomTrunkTipX n) in
  ∃ sl slot,
    TreeExercise.newSlots data = Some sl ∧ slot ∈ sl
    ∧ TreeExercise.id slot = "attr-" +:+ pretty i
    ∧ TreeExercise.type slot = TreeExercise.attribute
    ∧ TreeExercise.expectedId slot = characterId step
    ∧ TreeExercise.slotCentre slot = P (TreeExercise.attrT n i).
Proof.
  intros Hi Htruthy n P.
  assert (Hn : (1 <= length (evolutionOrder data))%nat).
  { apply lookup_lt_Some in Hi. lia. }
  destruct (newSlots_defined data) as [sl Hsl].
  { intros E. rewrite E in Hn. simpl in Hn. lia. }
  exists sl. pose proof Hsl as Hsl0.
  unfold TreeExercise.newSlots in Hsl. rewrite (effectTrunkTipX_eq data Hn) in Hsl.
  simpl in Hsl.
  destruct (mapM _ _) as [outs|] eqn:E; [|done]. simpl in Hsl.
  injection Hsl as <-. apply mapM_Some_1 in E.
  assert (Hpair : imap pair (evolutionOrder data) !! i = Some (i, step)).
  { by rewrite list_lookup_imap, Hi. }
  destruct (Forall2_lookup_l _ _ _ _ _ E Hpair) as (out & Hout & Hstep).
  simpl in Hstep. unfold TreeExercise.stepSlots in Hstep.
  destruct (TreeExercise.taxonPositions data !! i) as [pos|]; [|done].
  simpl in Hstep. rewrite Htruthy in Hstep. injection Hstep as <-.
  match type of Hout with _ = Some (?s :: _) => exists s end.
  split_and!; [done| |reflexivity..|].
  - apply list_elem_of_join. eexists. split; [|by eapply list_elem_of_lookup_2].
    apply list_elem_of_here.
  - unfold TreeExercise.slotCentre; simpl. subst P n.
    unfold TreeExercise.getTrunkPoint, TreeExercise.geomTrunkBaseX.
    f_equal; ring.
Qed.

End layout_claims.

Section layout_theorem.

Local Open Scope Qc_scope.

Lemma midpoint_vertical_stroke (cx cy d : Qc) :
  midpoint {| px := cx; py := cy - d |} {| px := cx; py := cy + d |}
  = {| px := cx; py := cy |}.
Proof.
  unfold midpoint; simpl. rewrite num_2.
  f_equal; field; apply two_nonzero.
Qed.

Lemma midpoint_horizontal_stroke (cx cy d : Qc) :
  midpoint {| px := cx - d; py := cy |} {| px := cx + d; py := cy |}
  = {| px := cx; py := cy |}.
Proof.
  unfold midpoint; simpl. rewrite num_2.
  f_equal; field; apply two_nonzero.
Qed.

(** C6. For an exercise whose [i]-th evolution step exists (so that
    there are n >= 1 steps), with exact rational arithmetic: the trunk
    point is an affine function of its parameter, in the builder and on
    the teacher sheet; segment [i] runs from t = i/n to t = (i+1)/n; the
    point at t = (i+0.5)/n is the middle of that segment, which is where
    the tick mark is drawn and where the attribute slot of the step, when
    it has one, is centred; and the last segment ends at the trunk tip
    (t = 1), whose abscissa is the branch target of the last taxon. *)
Theorem comb_layout_attribute_at_segment_midpoint data (succ : bool)
  (i : nat) (step : EvolutionStep) :
  evolutionOrder data !! i = Some step →
  let n := length (evolutionOrder data) in
  let P := TreeExercise.getTrunkPoint TreeExercise.geomTrunkBaseX
             (TreeExercise.geomTrunkTipX n) in
  let T := TeacherZone.getTrunkPoint n in
  (1 <= n)%nat
  ∧ (∀ t, P t = {| px := px (P 0) + t * (px (P 1) - px (P 0));
                   py := py (P 0) + t * (py (P 1) - py (P 0)) |})
  ∧ (∀ t, T t = {| px := px (T 0) + t * (px (T 1) - px (T 0));
                   py := py (T 0) + t * (py (T 1) - py (T 0)) |})
  ∧ (∃ seg,
       (TreeExercise.getGeometry data succ).1 !! i = Some seg
       ∧ TreeExercise.startPos seg = P (idx i / idx n)
       ∧ TreeExercise.endPos seg = P ((idx i + 1) / idx n)
       ∧ P ((idx i + half) / idx n)
         = midpoint (TreeExercise.startPos seg) (TreeExercise.endPos seg)
       ∧ midpoint (TreeExercise.tickMark seg).1 (TreeExercise.tickMark seg).2
         = midpoint (TreeExercise.startPos seg) (TreeExercise.endPos seg)
       ∧ (truthy_opt (characterId step) = true →
          ∃ sl slot,
            TreeExercise.newSlots data = Some sl ∧ slot ∈ sl
            ∧ TreeExercise.id slot = "attr-" +:+ pretty i
            ∧ TreeExercise.slotCentre slot
              = midpoint (TreeExercise.startPos seg) (TreeExercise.endPos seg)))
  ∧ (∃ seg,
       TeacherZone.segments (TeacherZone.getStaticTreeGeometry data) !! i
       = Some seg
       ∧ TeacherZone.startPos seg = T (idx i / idx n)
       ∧ TeacherZone.endPos seg = T ((idx i + 1) / idx n)
       ∧ TeacherZone.attrPos seg = T ((idx i + half) / idx n)
       ∧ TeacherZone.attrPos seg
         = midpoint (TeacherZone.startPos seg) (TeacherZone.endPos seg)
       ∧ midpoint (TeacherZone.tickMark seg).1 (TeacherZone.tickMark seg).2
         = TeacherZone.attrPos seg)
  ∧ (∃ seg,
       (TreeExercise.getGeometry data succ).1 !! (n - 1)%nat = Some seg
       ∧ TreeExercise.endPos seg = P 1
       ∧ px (P 1) = TreeExercise.taxonTargetX seg)
  ∧ (∃ seg,
       TeacherZone.segments (TeacherZone.getStaticTreeGeometry data)
         !! (n - 1)%nat = Some seg
       ∧ TeacherZone.endPos seg = T 1
       ∧ px (T 1) = TeacherZone.taxonTargetX seg).
Proof.
  intros Hi n P T.
  assert (Hn : (1 <= n)%nat) by (apply lookup_lt_Some in Hi; subst n; lia).
  destruct (step_parameters n i Hn) as (Eprev & Eattr & Enode & Elast).
  destruct (lookup_lt_is_Some_2 (evolutionOrder data) (n - 1)) as [lastStep Hlast];
    [subst n; lia|].
  assert (Hidx : idx (n - 1) = idx n - 1).
  { destruct n as [|k]; [lia|]. replace (S k - 1)%nat with k by lia.
    rewrite idx_S. ring. }
  split_and!.
  - exact Hn.
  - intros t. apply tree_trunk_affine.
  - intros t. apply teacher_trunk_affine.
  - exists (TreeExercise.segment data succ n i step).
    assert (Hmid : P ((idx i + half) / idx n)
              = midpoint (TreeExercise.startPos (TreeExercise.segment data succ n i step))
                         (TreeExercise.endPos (TreeExercise.segment data succ n i step))).
    { simpl. rewrite <- Eattr. by apply tree_attr_midpoint. }
    split_and!.
    + unfold TreeExercise.getGeometry; simpl. by rewrite list_lookup_imap, Hi.
    + simpl. by rewrite Eprev.
    + simpl. by rewrite Enode.
    + exact Hmid.
    + unfold TreeExercise.tickMark, fst, snd.
      by rewrite midpoint_vertical_stroke.
    + intros Htruthy.
      destruct (newSlots_attr_slot data i step Hi Htruthy)
        as (sl & slot & ? & ? & ? & _ & _ & Hc).
      exists sl, slot. split_and!; [done..|].
      rewrite <- Hmid, <- Eattr. exact Hc.
  - exists (TeacherZone.segment data n i step).
    split_and!.
    + unfold TeacherZone.getStaticTreeGeometry; simpl.
      by rewrite list_lookup_imap, Hi.
    + simpl. by rewrite Eprev.
    + simpl. by rewrite Enode.
    + simpl. by rewrite Eattr.
    + simpl. by apply teacher_attr_midpoint.
    + unfold TeacherZone.tickMark, fst, snd.
      rewrite midpoint_horizontal_stroke. by destruct (TeacherZone.attrPos _).
  - exists (TreeExercise.segment data succ n (n - 1) lastStep).
    split_and!.
    + unfold TreeExercise.getGeometry; simpl. by rewrite list_lookup_imap, Hlast.
    + simpl. by rewrite Elast.
    + subst P. simpl. unfold TreeExercise.geomTrunkTipX. rewrite Hidx. ring.
  - exists (TeacherZone.segment data n (n - 1) lastStep).
    split_and!.
    + unfold TeacherZone.getStaticTreeGeometry; simpl.
      by rewrite list_lookup_imap, Hlast.
    + simpl. by rewrite Elast.
    + subst T. simpl. unfold TeacherZone.trunkTipX. rewrite Hidx. ring.
Qed.

Lemma comb_layout_attribute_at_segment_midpoint_witness :
  ∃ seg,
    (TreeExercise.getGeometry App.DEFAULT_DATA false).1 !! 0%nat = Some seg
    ∧ TreeExercise.getTrunkPoint TreeExercise.geomTrunkBaseX
        (TreeExercise.geomTrunkTipX 4) ((idx 0 + half) / idx 4)
      = midpoint (TreeExercise.startPos seg) (TreeExercise.endPos seg).
Proof.
  destruct (comb_layout_attribute_at_segment_midpoint
              App.DEFAULT_DATA false 0 (mkStep (Some "c1") (Some "t1")) eq_refl)
    as (_ & _ & _ & (seg & H1 & _ & _ & H2 & _) & _).
  exists seg. split; [exact H1|exact H2].
Defined.

End layout_theorem.

(** ** Shuffling *)

Section shuffle_facts.
Import App.
Context {A : Type}.

Implicit Types (l : list A) (h : gmap nat (list A)) (rand : nat → Q).

(** A draw in [0, 1) gives an index between 0 and [i]. *)
Lemma randomIndex_range (r : Q) (i : nat) :
  (0 <= r)%Q → (r < 1)%Q → (randomIndex r i <= i)%nat.
Proof.
  intros H0 H1. unfold randomIndex.
  set (m := inject_Z (Z.of_nat (i + 1))).
  assert (Hm : (0 < m)%Q).
  { unfold m, Qlt, inject_Z. simpl. lia. }
  assert (Hlt : (r * m < m)%Q).
  { rewrite <- (Qmult_1_l m) at 2. by apply Qmult_lt_compat_r. }
  assert (Hfl : (Qfloor (r * m) < Z.of_nat (i + 1))%Z).
  { rewrite Zlt_Qlt. eapply Qle_lt_trans; [apply Qfloor_le|exact Hlt]. }
  lia.
Qed.

Lemma insert_Permutation l (i : nat) (x y : A) :
  l !! i = Some y → x :: l ≡ₚ y :: <[i := x]> l.
Proof.
  revert i. induction l as [|z l IH]; intros [|i] Hi; simpl in *; try done.
  - injection Hi as ->. apply perm_swap.
  - rewrite perm_swap. rewrite (IH i Hi). apply perm_swap.
Qed.

Lemma swap_Permutation l (i j : nat) : swap l i j ≡ₚ l.
Proof.
  unfold swap.
  destruct (l !! j) as [aj|] eqn:Hj; [|done].
  destruct (l !! i) as [ai|] eqn:Hi; [|done].
  assert (Hj1 : <[i := aj]> l !! j = Some aj).
  { destruct (decide (i = j)) as [->|Hne].
    - apply list_lookup_insert_eq. by eapply lookup_lt_Some.
    - by rewrite list_lookup_insert_ne. }
  apply (Permutation_cons_inv (a := aj)).
  rewrite <- (insert_Permutation _ j ai aj Hj1).
  symmetry. by apply insert_Permutation.
Qed.

Lemma swap_length l (i j : nat) : length (swap l i j) = length l.
Proof.
  unfold swap. destruct (l !! j), (l !! i); try done.
  by rewrite !length_insert.
Qed.

(** Under [random_ok] the loop reads and writes inside the array only. *)
Lemma swap_in_range rand k l (i : nat) :
  random_ok rand → (i < length l)%nat →
  is_Some (l !! i) ∧ is_Some (l !! randomIndex (rand k) i).
Proof.
  intros Hr Hi. destruct (Hr k) as [H0 H1].
  pose proof (randomIndex_range (rand k) i H0 H1).
  split; apply lookup_lt_is_Some; lia.
Qed.

Lemma shuffleLoop_Permutation rand k (i : nat) l :
  (shuffleLoop rand k i l).1 ≡ₚ l
  ∧ length (shuffleLoop rand k i l).1 = length l
  ∧ (shuffleLoop rand k i l).2 = (k + i)%nat.
Proof.
  revert k l. induction i as [|i IH]; intros k l; simpl.
  - split_and!; [done..|lia].
  - destruct (IH (S k) (swap l (S i) (randomIndex (rand k) (S i))))
      as (Hp & Hl & Hk).
    split_and!.
    + rewrite Hp. apply swap_Permutation.
    + rewrite Hl. apply swap_length.
    + rewrite Hk. lia.
Qed.

Lemma shuffleLoopAt_eq rand k (i r : nat) h l :
  h !! r = Some l →
  shuffleLoopAt rand k i r h
  = (<[r := (shuffleLoop rand k i l).1]> h, (shuffleLoop rand k i l).2).
Proof.
  revert k h l. induction i as [|i IH]; intros k h l Hr; simpl.
  - by rewrite insert_id.
  - unfold swapAt. rewrite Hr.
    erewrite IH by apply lookup_insert_eq.
    by rewrite insert_insert_eq.
Qed.

End shuffle_facts.

Section shuffle_claims.
Import App.

Lemma shuffled_fields rand data :
  taxons (shuffled rand data) ≡ₚ taxons data
  ∧ characters (shuffled rand data) ≡ₚ characters data
  ∧ title (shuffled rand data) = title data
  ∧ difficulty (shuffled rand data) = difficulty data
  ∧ correctMatrix (shuffled rand data) = correctMatrix data
  ∧ evolutionOrder (shuffled rand data) = evolutionOrder data.
Proof.
  unfold shuffled, shuffleArray.
  destruct (shuffleLoop rand 0 _ (taxons data)) as [ts k] eqn:Et.
  destruct (shuffleLoop rand k _ (characters data)) as [cs k'] eqn:Ec.
  simpl.
  pose proof (shuffleLoop_Permutation rand 0 (length (taxons data) - 1)
                (taxons data)) as (Ht & _).
  pose proof (shuffleLoop_Permutation rand k (length (characters data) - 1)
                (characters data)) as (Hc & _).
  rewrite Et in Ht. rewrite Ec in Hc. done.
Qed.

(** C8. With [Math.random] drawing in [0, 1), [shuffleArray] reads and
    writes inside the array only, allocates a new array and returns it;
    the new array is a permutation of the argument, of the same length;
    the argument and every other array of the store are left as they
    were.  Hence the exercise shown to the student, by the demo button or
    after a generation, has the taxa and the characters of the payload it
    was built from, in some order, and the same other fields. *)
Theorem shuffleArray_permutes_a_fresh_copy {A : Type} (rand : nat → Q)
  (k : nat) (h : gmap nat (list A)) (array : nat) (contents : list A) :
  random_ok rand →
  h !! array = Some contents →
  (∀ k' (i : nat) (a : list A),
     (i < length a)%nat →
     is_Some (a !! i) ∧ is_Some (a !! randomIndex (rand k') i))
  ∧ (∃ h' newArray k' result,
       shuffleArrayAt rand k h array = Some (h', newArray, k')
       ∧ shuffleArray rand k contents = (result, k')
       ∧ newArray ≠ array
       ∧ h !! newArray = None
       ∧ h' !! newArray = Some result
       ∧ h' !! array = Some contents
       ∧ (∀ r, r ≠ newArray → h' !! r = h !! r)
       ∧ result ≡ₚ contents
       ∧ length result = length contents)
  ∧ (∀ data st outcome,
       (App.exerciseData (startExerciseDemo rand st)
        = Some (shuffled rand DEFAULT_DATA))
       ∧ (outcome = inr data →
          App.exerciseData (startExerciseSettle rand outcome st)
          = Some (shuffled rand data))
       ∧ taxons (shuffled rand data) ≡ₚ taxons data
       ∧ characters (shuffled rand data) ≡ₚ characters data
       ∧ correctMatrix (shuffled rand data) = correctMatrix data
       ∧ evolutionOrder (shuffled rand data) = evolutionOrder data).
Proof.
  intros Hrand Harr. split_and!.
  - intros k' i a Hi. by apply swap_in_range.
  - unfold shuffleArrayAt, shuffleArray. rewrite Harr. simpl.
    set (newArray := fresh (dom h)).
    assert (Hfresh : h !! newArray = None).
    { apply not_elem_of_dom. apply is_fresh. }
    assert (Hne : newArray ≠ array) by congruence.
    rewrite (shuffleLoopAt_eq rand k _ newArray _ contents)
      by apply lookup_insert_eq.
    rewrite insert_insert_eq.
    pose proof (shuffleLoop_Permutation rand k (length contents - 1) contents)
      as (Hp & Hl & _).
    destruct (shuffleLoop rand k (length contents - 1) contents)
      as [result k'] eqn:E.
    simpl in *. exists (<[newArray := result]> h), newArray, k', result.
    split_and!; try done.
    + apply lookup_insert_eq.
    + by rewrite lookup_insert_ne.
    + intros r Hr. by rewrite lookup_insert_ne.
  - intros data st outcome.
    destruct (shuffled_fields rand data) as (? & ? & _ & _ & ? & ?).
    split_and!; try done. by intros ->.
Qed.

Lemma shuffleArray_permutes_a_fresh_copy_witness :
  ∃ result k',
    shuffleArray (λ _, 1 # 2)%Q 0 [1; 2; 3]%nat = (result, k')
    ∧ result ≡ₚ [1; 2; 3]%nat.
Proof.
  destruct (shuffleArray_permutes_a_fresh_copy
              (λ _, 1 # 2)%Q 0 {[ 0%nat := [1; 2; 3]%nat ]} 0 [1; 2; 3]%nat)
    as (_ & (h' & r & k' & result & _ & E & _ & _ & _ & _ & _ & Hp & _) & _).
  - intros k. split; [by unfold Qle; simpl|by unfold Qlt; simpl].
  - apply lookup_singleton_eq.
  - by exists result, k'.
Defined.

End shuffle_claims.

(** ** The payload and its generation *)

Section payload_claims.
Import geminiService.

(** Membership in a list that is written out. *)
Ltac listed :=
  solve [repeat first [apply list_elem_of_here | apply list_elem_of_further]].

Lemma DEFAULT_DATA_referencedIdsExist : referencedIdsExist App.DEFAULT_DATA.
Proof.
  split; unfold taxonIds, characterIds; simpl.
  - intros taxonId row H.
    repeat (apply lookup_insert_Some in H as [[Et Er]|[_ H]];
            [rewrite <- Et, <- Er; split;
             [listed
             |intros c Hc;
              repeat (apply elem_of_cons in Hc as [->|Hc]; [listed|]);
              by apply elem_of_nil in Hc]|]).
    by rewrite lookup_empty in H.
  - intros step Hstep.
    repeat (apply elem_of_cons in Hstep as [->|Hstep];
            [split; intros ? [= <-]; listed|]).
    by apply elem_of_nil in Hstep.
Qed.

Lemma shuffled_referencedIdsExist rand data :
  referencedIdsExist data → referencedIdsExist (App.shuffled rand data).
Proof.
  destruct (shuffled_fields rand data) as (Ht & Hc & _ & _ & Em & Ee).
  assert (Hts : ∀ t, t ∈ taxonIds data → t ∈ taxonIds (App.shuffled rand data)).
  { intros t. unfold taxonIds. by rewrite Ht. }
  assert (Hcs : ∀ c, c ∈ characterIds data →
                     c ∈ characterIds (App.shuffled rand data)).
  { intros c. unfold characterIds. by rewrite Hc. }
  intros [Hm He]. split.
  - intros taxonId row Hrow. rewrite Em in Hrow.
    destruct (Hm taxonId row Hrow) as [? Hrows]. split; [by apply Hts|].
    intros c Hin. by apply Hcs, Hrows.
  - intros step Hstep. rewrite Ee in Hstep.
    destruct (He step Hstep) as [H1 H2]. split.
    + intros t ?. by apply Hts, H1.
    + intros c ?. by apply Hcs, H2.
Qed.

(** Every row of the record comes from an entry of the list. *)
Lemma toCorrectMatrix_lookup matrixList taxonId row :
  toCorrectMatrix matrixList !! taxonId = Some row →
  ∃ item, item ∈ default [] matrixList
          ∧ MatrixItem.taxonId item = taxonId
          ∧ row = default [] (MatrixItem.presentCharacterIds item).
Proof.
  unfold toCorrectMatrix. destruct matrixList as [items|]; simpl;
    [|by rewrite lookup_empty].
  assert (∀ acc : gmap string (list string),
            foldl (λ correctMatrix item,
                     <[MatrixItem.taxonId item :=
                         default [] (MatrixItem.presentCharacterIds item)]>
                     correctMatrix) acc items !! taxonId = Some row →
            acc !! taxonId = Some row
            ∨ ∃ item, item ∈ items ∧ MatrixItem.taxonId item = taxonId
                      ∧ row = default [] (MatrixItem.presentCharacterIds item))
    as Hgen.
  { induction items as [|item items IH]; intros acc; simpl; [by left|].
    intros H. apply IH in H as [H|(it & ? & ? & ?)].
    - apply lookup_insert_Some in H as [[<- <-]|[_ H]]; [|by left].
      right. exists item. split_and!; [apply list_elem_of_here|done..].
    - right. exists it. split_and!; [by apply list_elem_of_further|done..]. }
  intros H. apply Hgen in H as [H|H]; [by rewrite lookup_empty in H|done].
Qed.

End payload_claims.

Section cast_facts.
Import JS geminiService Cast.

Lemma asRecord_empty : asRecord ∅ = Some ∅.
Proof.
  unfold asRecord. rewrite decide_True by apply map_Forall_empty.
  by rewrite omap_empty.
Qed.

Lemma asRecord_insert m m' key v row :
  asRecord m = Some m' → asArray asString (Some v) = Some row →
  asRecord (<[key := v]> m) = Some (<[key := row]> m').
Proof.
  unfold asRecord. intros Hm Hv.
  destruct (decide (map_Forall _ m)) as [Hall|]; [|done]. injection Hm as <-.
  rewrite decide_True.
  - f_equal. by apply omap_insert_Some.
  - apply map_Forall_insert_2; [by rewrite Hv|done].
Qed.

(** On an entry of the type of the cast, the callback of the [forEach]
    writes the row that [toCorrectMatrix] writes. *)
Lemma addRow_typed env item it m m' :
  asMatrixItem (Some item) = Some it → asRecord m = Some m' →
  ∃ m1, addRow env m item = Some m1
        ∧ asRecord m1
          = Some (<[MatrixItem.taxonId it :=
                      default [] (MatrixItem.presentCharacterIds it)]> m').
Proof.
  intros Hit Hm. unfold asMatrixItem in Hit. simpl in Hit.
  apply bind_Some in Hit as (taxonId & Hid & Hit).
  apply bind_Some in Hit as (rows & Hrows & Hit). injection Hit as <-. simpl.
  assert (ToPropertyKey env (member "taxonId" item) = Some taxonId) as Hkey.
  { unfold asString in Hid.
    destruct (member "taxonId" item) as [[]|]; try done; simpl; congruence. }
  assert (asArray asString
            (Some (orEmptyArray (member "presentCharacterIds" item)))
          = Some (default [] rows)) as Hrow.
  { unfold asGuarded in Hrows.
    destruct (member "presentCharacterIds" item) as [[| | | |items|]|];
      simpl in *; try done; try (by injection Hrows as <-).
    destruct (mapM _ items) as [l|]; [|done]. by injection Hrows as <-. }
  exists (<[taxonId := orEmptyArray (member "presentCharacterIds" item)]> m).
  split; [|by apply asRecord_insert].
  unfold addRow. destruct item; try done; by rewrite Hkey.
Qed.

Lemma forEach_typed env items : ∀ its m m',
  mapM (λ item, asMatrixItem (Some item)) items = Some its →
  asRecord m = Some m' →
  ∃ m1, foldl (λ correctMatrix item,
                 correctMatrix ← correctMatrix; addRow env correctMatrix item)
              (Some m) items = Some m1
        ∧ asRecord m1
          = Some (foldl (λ correctMatrix item,
                           <[MatrixItem.taxonId item :=
                               default [] (MatrixItem.presentCharacterIds item)]>
                           correctMatrix) m' its).
Proof.
  induction items as [|item items IH]; intros its m m' Hits Hm.
  - injection Hits as <-. by exists m.
  - apply mapM_Some in Hits. inversion Hits as [|? it ? its' Hit Hrest]; subst.
    apply mapM_Some in Hrest.
    destruct (addRow_typed env item it m m' Hit Hm) as (m1 & Hadd & Hm1).
    simpl. rewrite Hadd. by apply IH.
Qed.

Lemma buildCorrectMatrix_typed env rawData raw :
  asRaw rawData = Some raw →
  ∃ m, buildCorrectMatrix env rawData = Some m
       ∧ asRecord m = Some (toCorrectMatrix (Raw.matrixList raw)).
Proof.
  unfold asRaw. intros H.
  apply bind_Some in H as (ti & _ & H). apply bind_Some in H as (di & _ & H).
  apply bind_Some in H as (ts & _ & H). apply bind_Some in H as (cs & _ & H).
  apply bind_Some in H as (ml & Hml & H). apply bind_Some in H as (ev & _ & H).
  injection H as <-. simpl. unfold buildCorrectMatrix.
  unfold asGuarded in Hml.
  destruct (member "matrixList" rawData) as [[| | | |items|]|];
    simpl in *; try done;
    try (injection Hml as <-; exists ∅; split; [done|apply asRecord_empty]).
  destruct (mapM _ items) as [its|] eqn:Hits; [|done]. injection Hml as <-.
  exact (forEach_typed env items its ∅ ∅ Hits asRecord_empty).
Qed.

(** When [generateExercise] returns, the response had a text, the text was
    parsed, and the payload is made of the members of the parsed value. *)
Lemma generateExercise_inr env topic d f sent data :
  generateExercise env topic d f = (sent, inr data) →
  ∃ txt rawData correctMatrix,
    sent = [SentRequest (mkRequest topic d f)]
    ∧ generateContent env (mkRequest topic d f) = Resolves {| text := Some txt |}
    ∧ JSON_parse env txt = Some rawData
    ∧ buildCorrectMatrix env rawData = Some correctMatrix
    ∧ data = Payload.mk (member "title" rawData) d (member "taxons" rawData)
               (member "characters" rawData) correctMatrix
               (member "evolutionOrder" rawData).
Proof.
  unfold generateExercise.
  destruct (truthy_opt (API_KEY env)); simpl; [|done].
  destruct (generateContent env _) as [reason|[[txt|]]] eqn:Eg; simpl; [done| |done].
  destruct (truthy txt); [|done].
  destruct (JSON_parse env txt) as [rawData|] eqn:Ep; [|done].
  destruct (buildCorrectMatrix env rawData) as [m|] eqn:Em.
  - intros H. exists txt, rawData, m.
    destruct rawData; try done; injection H as <- <-; by split_and!.
  - by destruct rawData.
Qed.

Lemma generateExercise_typed env topic d f sent data rawData raw :
  generateExercise env topic d f = (sent, inr data) →
  (∃ txt, JSON_parse env txt = Some rawData
          ∧ generateContent env (mkRequest topic d f)
            = Resolves {| text := Some txt |}) →
  asRaw rawData = Some raw →
  asExerciseData data
  = Some (mkExercise (Raw.title raw) d (Raw.taxons raw) (Raw.characters raw)
            (toCorrectMatrix (Raw.matrixList raw)) (Raw.evolutionOrder raw)).
Proof.
  intros Hgen (txt & Hp & Hg) Hraw.
  apply generateExercise_inr in Hgen
    as (txt' & rawData' & m & _ & Hg' & Hp' & Hm & ->).
  assert (txt' = txt) as -> by congruence.
  assert (rawData' = rawData) as -> by congruence.
  destruct (buildCorrectMatrix_typed env rawData raw Hraw) as (m' & Hm' & Hrec).
  assert (m' = m) as -> by congruence.
  unfold asRaw in Hraw.
  apply bind_Some in Hraw as (ti & Hti & H). apply bind_Some in H as (di & _ & H).
  apply bind_Some in H as (ts & Hts & H). apply bind_Some in H as (cs & Hcs & H).
  apply bind_Some in H as (ml & _ & H). apply bind_Some in H as (ev & Hev & H).
  injection H as <-. simpl in *.
  unfold asExerciseData. simpl. by rewrite Hti, Hts, Hcs, Hrec, Hev.
Qed.

End cast_facts.

Section payload_theorem.
Import geminiService.

(** C7, as the code has it.  The default payload satisfies "referenced
    ids exist"; the shuffling applied before display preserves it; and
    [generateExercise] checks nothing: when it returns a payload, the
    response had a text that was parsed, the taxa, the characters and the
    evolution order of the payload are the members of the parsed value as
    they are, and where the parsed value has the type that the code casts
    it to, the payload is an exercise with these taxa, characters and
    steps, whose answer key is made of the entries of [matrixList], and
    which satisfies the property whenever the parsed response does. *)
Theorem referenced_ids_exist_default_shuffle_generate :
  referencedIdsExist App.DEFAULT_DATA
  ∧ (∀ rand data,
       App.random_ok rand →
       referencedIdsExist data → referencedIdsExist (App.shuffled rand data))
  ∧ (∀ env topic d f sent payload,
       generateExercise env topic d f = (sent, inr payload) →
       ∃ txt rawData,
         generateContent env (mkRequest topic d f)
         = Resolves {| text := Some txt |}
         ∧ JSON_parse env txt = Some rawData
         ∧ Payload.taxons payload = JS.member "taxons" rawData
         ∧ Payload.characters payload = JS.member "characters" rawData
         ∧ Payload.evolutionOrder payload = JS.member "evolutionOrder" rawData
         ∧ ∀ raw, Cast.asRaw rawData = Some raw →
             ∃ data,
               Cast.asExerciseData payload = Some data
               ∧ taxons data = Raw.taxons raw
               ∧ characters data = Raw.characters raw
               ∧ evolutionOrder data = Raw.evolutionOrder raw
               ∧ correctMatrix data = toCorrectMatrix (Raw.matrixList raw)
               ∧ (rawReferencedIdsExist raw → referencedIdsExist data)).
Proof.
  split_and!.
  - exact DEFAULT_DATA_referencedIdsExist.
  - intros rand data _. apply shuffled_referencedIdsExist.
  - intros env topic d f sent payload H.
    pose proof (generateExercise_inr _ _ _ _ _ _ H)
      as (txt & rawData & m & _ & Hg & Hp & Hm & ->).
    exists txt, rawData. split_and!; try done.
    intros raw Hraw.
    eexists. split.
    { apply (generateExercise_typed env topic d f sent _ rawData raw H);
        [by exists txt|done]. }
    split_and!; try done.
    intros [Hm' He]. split; [|exact He].
    intros taxonId row Hrow. simpl in Hrow.
    apply toCorrectMatrix_lookup in Hrow as (item & Hin & <- & ->).
    exact (Hm' item Hin).
Qed.

Lemma danglingValue_asRaw : Cast.asRaw Worlds.danglingValue = Some Worlds.danglingRaw.
Proof. vm_compute; reflexivity. Qed.

Lemma referenced_ids_exist_default_shuffle_generate_witness :
  referencedIdsExist (App.shuffled (λ _, 1 # 2)%Q App.DEFAULT_DATA)
  ∧ ∃ sent payload txt rawData,
      generateExercise Worlds.danglingEnv "" Facile false = (sent, inr payload)
      ∧ generateContent Worlds.danglingEnv (mkRequest "" Facile false)
        = Resolves {| text := Some txt |}
      ∧ JSON_parse Worlds.danglingEnv txt = Some rawData
      ∧ Cast.asRaw rawData = Some Worlds.danglingRaw
      ∧ ∃ data,
          Cast.asExerciseData payload = Some data
          ∧ taxons data = Raw.taxons Worlds.danglingRaw
          ∧ correctMatrix data
            = toCorrectMatrix (Raw.matrixList Worlds.danglingRaw).
Proof.
  destruct referenced_ids_exist_default_shuffle_generate as (H1 & H2 & H3).
  split.
  - apply H2; [|exact H1].
    intros k. split; [by unfold Qle; simpl|by unfold Qlt; simpl].
  - destruct (generateExercise Worlds.danglingEnv "" Facile false)
      as [sent [e|payload]] eqn:E; [exfalso; vm_compute in E; discriminate|].
    destruct (H3 _ _ _ _ _ _ E) as (txt & rawData & Hg & Hp & _ & _ & _ & Hraw).
    cbv [Worlds.danglingEnv Worlds.answering generateContent] in Hg.
    injection Hg as <-.
    assert (rawData = Worlds.danglingValue) as ->.
    { assert (JSON_parse Worlds.danglingEnv Worlds.danglingText
              = Some Worlds.danglingValue) as Hp' by (vm_compute; reflexivity).
      congruence. }
    exists sent, payload, Worlds.danglingText, Worlds.danglingValue.
    split; [reflexivity|]. split; [reflexivity|]. split; [exact Hp|].
    split; [exact danglingValue_asRaw|].
    destruct (Hraw _ danglingValue_asRaw) as (data & Hd & Ht & _ & _ & Hm & _).
    exists data. by split_and!.
Defined.

(** C7 as stated fails: this response passes through [generateExercise]
    and the payload returned is an exercise with a matrix row for "t9",
    which is the id of no taxon. *)
Lemma generateExercise_returns_unknown_taxon_id :
  ∃ payload data,
    generateExercise Worlds.danglingEnv "" Facile false
    = ([SentRequest (mkRequest "" Facile false)], inr payload)
    ∧ Cast.asExerciseData payload = Some data
    ∧ correctMatrix data !! "t9" = Some ["c1"]
    ∧ taxonIds data = ["t1"]
    ∧ ¬ referencedIdsExist data.
Proof.
  eexists. eexists. split; [vm_compute; reflexivity|].
  split; [vm_compute; reflexivity|].
  split_and!; [vm_compute; reflexivity..|].
  intros [Hm _]. destruct (Hm "t9" ["c1"]) as [Hin _]; [vm_compute; reflexivity|].
  apply list_elem_of_singleton in Hin. discriminate Hin.
Qed.

End payload_theorem.


Section generation_facts.
Import JS geminiService.

Lemma addRow_None env m item :
  addRow env m item = None
  ↔ item = Null ∨ ToPropertyKey env (member "taxonId" item) = None.
Proof.
  unfold addRow. destruct item; try (split; [by left|done]).
  all: destruct (ToPropertyKey env _); simpl;
    (split; [done|by intros [?|?]]) || (split; [by right|done]).
Qed.

Lemma forEach_None env items : ∀ acc,
  foldl (λ correctMatrix item,
           correctMatrix ← correctMatrix; addRow env correctMatrix item)
        acc items = None
  ↔ acc = None
    ∨ ∃ item, item ∈ items
              ∧ (item = Null
                 ∨ ToPropertyKey env (member "taxonId" item) = None).
Proof.
  induction items as [|item items IH]; intros acc; simpl.
  - split; [by left|]. intros [?|(item & Hin & _)]; [done|].
    by apply elem_of_nil in Hin.
  - rewrite IH. split.
    + intros [Hacc|(it & Hin & Hit)].
      * destruct acc as [m|]; [|by left]. simpl in Hacc.
        apply addRow_None in Hacc. right. exists item.
        split; [apply list_elem_of_here|done].
      * right. exists it. split; [by apply list_elem_of_further|done].
    + intros [->|(it & Hin & Hit)]; [by left|].
      apply elem_of_cons in Hin as [->|Hin]; [|right; by exists it].
      left. destruct acc as [m|]; [|done]. simpl. by apply addRow_None.
Qed.

(** When the [forEach] block throws. *)
Lemma buildCorrectMatrix_None env rawData :
  buildCorrectMatrix env rawData = None
  ↔ (ToBoolean (member "matrixList" rawData) = true
     ∧ ∀ items, member "matrixList" rawData ≠ Some (Arr items))
    ∨ ∃ items item,
        member "matrixList" rawData = Some (Arr items)
        ∧ item ∈ items
        ∧ (item = Null ∨ ToPropertyKey env (member "taxonId" item) = None).
Proof.
  unfold buildCorrectMatrix.
  destruct (ToBoolean (member "matrixList" rawData)) eqn:Et.
  - destruct (member "matrixList" rawData) as [[| | | |items|]|] eqn:Em;
      try (split; [by left|done]).
    rewrite forEach_None. split.
    + intros [?|(item & Hin & Hit)]; [done|]. right. by exists items, item.
    + intros [[_ Hno]|(items' & item & [= <-] & Hin & Hit)].
      * by destruct (Hno items).
      * right. by exists item.
  - split; [done|]. intros [[? _]|(items & item & Em & _)]; [done|].
    by rewrite Em in Et.
Qed.

Lemma null_or_not (v : Value) : v = Null ∨ v ≠ Null.
Proof. destruct v; (by left) || (by right). Qed.

(** What [generateExercise] does with a text that [JSON.parse] accepts. *)
Lemma generateExercise_parsed env topic d f txt rawData :
  truthy_opt (API_KEY env) = true →
  generateContent env (mkRequest topic d f) = Resolves {| text := Some txt |} →
  truthy txt = true →
  JSON_parse env txt = Some rawData →
  (rawData = Null →
   generateExercise env topic d f
   = ([SentRequest (mkRequest topic d f)], inl TypeError))
  ∧ (rawData ≠ Null →
     generateExercise env topic d f
     = ([SentRequest (mkRequest topic d f)],
        match buildCorrectMatrix env rawData with
        | None => inl TypeError
        | Some correctMatrix =>
            inr (Payload.mk (member "title" rawData) d
                   (member "taxons" rawData) (member "characters" rawData)
                   correctMatrix (member "evolutionOrder" rawData))
        end)).
Proof.
  intros Hk Hg Ht Hp. unfold generateExercise.
  rewrite Hk, Hg. simpl. rewrite Ht, Hp.
  split; [by intros ->|]. intros Hn.
  destruct rawData; [done|..]; by destruct (buildCorrectMatrix env _).
Qed.

(** A spread that throws makes [startExercise] end as a generation that
    throws does. *)
Lemma shuffledPayload_None env rand data :
  App.shuffledPayload env rand data = None
  ↔ App.spread env (Payload.taxons data) = None
    ∨ App.spread env (Payload.characters data) = None.
Proof.
  unfold App.shuffledPayload, App.shuffleValue.
  destruct (App.spread env (Payload.taxons data)) as [ts|]; simpl.
  2:{ split; [by left|done]. }
  destruct (App.shuffleArray rand 0 ts) as [ts' k].
  destruct (App.spread env (Payload.characters data)) as [cs|]; simpl.
  2:{ split; [by right|done]. }
  destruct (App.shuffleArray rand k cs) as [cs' k'].
  split; [done|by intros [?|?]].
Qed.

End generation_facts.

Section generation_claims.
Import geminiService.

(** C4, as the code has it.  [generateExercise] throws in exactly these
    cases: the credential is absent, and then no request has been issued;
    the request is rejected; the response carries no text; the text of the
    response is not JSON; the text is JSON but the value parsed is [null],
    or has a [matrixList] that is truthy and no array, or has in its
    [matrixList] an entry that is [null] or whose [taxonId] cannot be made
    a property key.  It issues at most one request.  Whenever it throws,
    and also when it returns a payload whose [taxons] or [characters]
    cannot be spread into an array, [startExercise], started from the
    setup screen, ends on the setup screen with the one generation message
    as error, the loading flag off and the exercise untouched, having sent
    what that single call sent. *)
Theorem generateExercise_failures_surface_one_message env topicArg d f :
  let result := generateExercise env topicArg d f in
  (truthy_opt (API_KEY env) = false →
     result = ([], inl (Error "API Key is missing")))
  ∧ ((∃ e, result.2 = inl e) ↔
       truthy_opt (API_KEY env) = false
       ∨ (truthy_opt (API_KEY env) = true ∧
          ((∃ reason,
              generateContent env (mkRequest topicArg d f) = Rejects reason)
           ∨ (∃ response,
                generateContent env (mkRequest topicArg d f) = Resolves response
                ∧ (truthy_opt (text response) = false
                   ∨ ∃ txt,
                       text response = Some txt
                       ∧ (JSON_parse env txt = None
                          ∨ ∃ rawData,
                              JSON_parse env txt = Some rawData
                              ∧ (rawData = JS.Null
                                 ∨ (JS.ToBoolean (JS.member "matrixList" rawData)
                                    = true
                                    ∧ ∀ items,
                                        JS.member "matrixList" rawData
                                        ≠ Some (JS.Arr items))
                                 ∨ ∃ items item,
                                     JS.member "matrixList" rawData
                                     = Some (JS.Arr items)
                                     ∧ item ∈ items
                                     ∧ (item = JS.Null
                                        ∨ ToPropertyKey env
                                            (JS.member "taxonId" item)
                                          = None))))))))
  ∧ (length result.1 <= 1)%nat
  ∧ (∀ rand st sent,
       App.state st = setup →
       (∃ e, generateExercise env (App.topic st) (App.level st)
               (App.includeFossils st) = (sent, inl e))
       ∨ (∃ data, generateExercise env (App.topic st) (App.level st)
                    (App.includeFossils st) = (sent, inr data)
                  ∧ (App.spread env (Payload.taxons data) = None
                     ∨ App.spread env (Payload.characters data) = None)) →
       ∃ st', App.startExercise env rand true st = (sent, App.Ends st')
              ∧ App.state st' = setup
              ∧ App.error st' = Some App.generationError
              ∧ App.isLoading st' = false
              ∧ App.exerciseData st' = App.exerciseData st).
Proof.
  simpl. split_and!.
  - unfold generateExercise. by intros ->.
  - destruct (truthy_opt (API_KEY env)) eqn:Ek.
    2:{ unfold generateExercise. rewrite Ek. simpl. split; [by left|by eauto]. }
    destruct (generateContent env (mkRequest topicArg d f))
      as [reason|[[txt|]]] eqn:Eg.
    + unfold generateExercise. rewrite Ek, Eg. simpl.
      split; [|by eauto]. intros _. right. split; [done|]. left. by eauto.
    + destruct (truthy txt) eqn:Et.
      * destruct (JSON_parse env txt) as [rawData|] eqn:Ep.
        -- destruct (generateExercise_parsed env topicArg d f txt rawData
                       Ek Eg Et Ep) as [Hnull Hobj].
           pose proof (buildCorrectMatrix_None env rawData) as Hb.
           split.
           ++ intros He. right. split; [done|]. right.
              eexists. split; [done|]. right. exists txt. split; [done|].
              right. exists rawData. split; [done|].
              destruct (null_or_not rawData) as [->|Hn]; [by left|].
              right. apply Hb. rewrite (Hobj Hn) in He. simpl in He.
              destruct (buildCorrectMatrix env rawData); [|done].
              by destruct He.
           ++ intros [?|[_ [[? ?]|(r & [= <-] & [Hf|(t & [= <-] & Hx)])]]];
                try done; simpl in *; try congruence.
              destruct Hx as [?|(r & Hr & Hx)]; [congruence|].
              assert (r = rawData) as -> by congruence.
              destruct (null_or_not rawData) as [Hn|Hn];
                [rewrite (Hnull Hn); by eauto|].
              destruct Hx as [?|Hx]; [done|].
              apply Hb in Hx. rewrite (Hobj Hn), Hx. by eauto.
        -- unfold generateExercise. rewrite Ek, Eg. simpl. rewrite Et, Ep.
           split; [|by eauto]. intros _. right. split; [done|]. right.
           eexists. split; [done|]. right. by eauto.
      * unfold generateExercise. rewrite Ek, Eg. simpl. rewrite Et.
        split; [|by eauto]. intros _. right. split; [done|]. right.
        eexists. split; [done|]. left. done.
    + unfold generateExercise. rewrite Ek, Eg. simpl.
      split; [|by eauto]. intros _. right. split; [done|]. right.
      eexists. split; [done|]. by left.
  - unfold generateExercise.
    destruct (truthy_opt (API_KEY env)); simpl; [|lia].
    destruct (generateContent env _) as [reason|[[txt|]]]; simpl; [lia| |lia].
    destruct (truthy txt); [|simpl; lia].
    destruct (JSON_parse env txt) as [[]|]; simpl; try lia.
    all: destruct (buildCorrectMatrix env _); simpl; lia.
  - intros rand st sent Hsetup [[e Hgen]|(data & Hgen & Hspread)];
      unfold App.startExercise; simpl; rewrite Hgen; simpl.
    + eexists. split; [done|]. simpl. by split_and!.
    + apply (shuffledPayload_None env rand) in Hspread. rewrite Hspread.
      eexists. split; [done|]. simpl. by split_and!.
Qed.

Lemma generateExercise_failures_surface_one_message_witness :
  generateExercise Worlds.offlineEnv "" Facile false
  = ([], inl (Error "API Key is missing"))
  ∧ (∃ data,
       generateExercise Worlds.titleOnlyEnv "" Facile false
       = ([SentRequest (mkRequest "" Facile false)], inr data)
       ∧ App.spread Worlds.titleOnlyEnv (Payload.taxons data) = None)
  ∧ (∃ st', App.startExercise Worlds.offlineEnv (λ _, 0%Q) true App.mount
            = ([], App.Ends st')
            ∧ App.error st' = Some App.generationError)
  ∧ (∃ st', App.startExercise Worlds.titleOnlyEnv (λ _, 0%Q) true App.mount
            = ([SentRequest (mkRequest "" Facile false)], App.Ends st')
            ∧ App.state st' = setup
            ∧ App.error st' = Some App.generationError).
Proof.
  pose proof (generateExercise_failures_surface_one_message
                Worlds.offlineEnv "" Facile false) as (H1 & _ & _ & H4).
  pose proof (generateExercise_failures_surface_one_message
                Worlds.titleOnlyEnv "" Facile false) as (_ & _ & _ & H5).
  split; [exact (H1 eq_refl)|].
  split.
  { eexists. split; [vm_compute; reflexivity|reflexivity]. }
  split.
  - destruct (H4 (λ _, 0%Q) App.mount [] eq_refl) as (st' & E & _ & He & _).
    { left. exists (Error "API Key is missing"). exact (H1 eq_refl). }
    by exists st'.
  - destruct (H5 (λ _, 0%Q) App.mount [SentRequest (mkRequest "" Facile false)]
                eq_refl) as (st' & E & Hs & He & _).
    { right. eexists. split; [vm_compute; reflexivity|]. by left. }
    by exists st'.
Defined.

(** C4 as stated fails: here the credential is present, the request is
    answered and the response carries a text, the single character "{",
    and [generateExercise] throws all the same, on [JSON.parse]. *)
Lemma generateExercise_throws_on_unparsable_text :
  let env := Worlds.truncatedEnv in
  truthy_opt (API_KEY env) = true
  ∧ generateContent env (mkRequest "" Facile false)
    = Resolves {| text := Some "{" |}
  ∧ truthy "{" = true
  ∧ generateExercise env "" Facile false
    = ([SentRequest (mkRequest "" Facile false)], inl SyntaxError).
Proof. by split_and!. Qed.

(** Texts that are JSON and no exercise: on [null], and on an object whose
    [matrixList] is the number 5, [generateExercise] throws a
    [TypeError]. *)
Lemma generateExercise_throws_on_other_json :
  generateExercise Worlds.nullEnv "" Facile false
  = ([SentRequest (mkRequest "" Facile false)], inl TypeError)
  ∧ generateExercise Worlds.matrixList5Env "" Facile false
    = ([SentRequest (mkRequest "" Facile false)], inl TypeError).
Proof. split; vm_compute; reflexivity. Qed.

(** An object whose [taxons] is a string: the spread succeeds, and the
    exercise stored is none. *)
Lemma startExercise_stores_what_is_no_exercise :
  ∃ shuffledData,
    App.startExercise Worlds.taxonsTextEnv (λ _, 0%Q) true App.mount
    = ([SentRequest (mkRequest "" Facile false)], App.EndsUntyped shuffledData)
    ∧ Payload.taxons shuffledData = Some (JS.Arr [JS.Str "b"; JS.Str "a"])
    ∧ Payload.title shuffledData = None.
Proof. eexists. split_and!; vm_compute; reflexivity. Qed.

End generation_claims.

(** ** The teacher zone *)

Section teacher_claims.
Import TeacherZone.

(** C10. Whatever the two host string functions are, a submission of the
    login form (offered only while the zone is not authenticated)
    authenticates exactly when the lowercased, trimmed password is
    "darwin"; on any other input the zone stays unauthenticated, the error
    flag is set and the password field is cleared. *)
Theorem handleLogin_authenticates_iff_darwin
  (toLowerCase trim : string → string) (st : State) :
  isAuthenticated st = false →
  let st' := handleLogin toLowerCase trim st in
  (isAuthenticated st' = true ↔
     trim (toLowerCase (passwordInput st)) = "darwin")
  ∧ (trim (toLowerCase (passwordInput st)) ≠ "darwin" →
     isAuthenticated st' = false ∧ error st' = true ∧ passwordInput st' = "")
  ∧ (trim (toLowerCase (passwordInput st)) = "darwin" →
     error st' = false ∧ passwordInput st' = passwordInput st).
Proof.
  intros Hno. simpl. unfold handleLogin.
  case_bool_decide as Hpw; simpl; rewrite ?Hno; split_and!; done.
Qed.

Lemma handleLogin_authenticates_iff_darwin_witness :
  isAuthenticated
    (handleLogin asciiToLowerCase asciiTrim
       (typePassword "  DarWin " mount)) = true
  ∧ isAuthenticated
      (handleLogin asciiToLowerCase asciiTrim
         (typePassword "darwin1" mount)) = false.
Proof.
  split.
  - apply (handleLogin_authenticates_iff_darwin asciiToLowerCase asciiTrim
             (typePassword "  DarWin " mount) eq_refl).
    reflexivity.
  - apply (handleLogin_authenticates_iff_darwin asciiToLowerCase asciiTrim
             (typePassword "darwin1" mount) eq_refl).
    discriminate.
Defined.

End teacher_claims.

(** ** The screen machine *)

Section machine_claims.
Import Machine.

Lemma screen_render m a : screen (render m a) = App.state a.
Proof.
  unfold render, screen.
  destruct (App.state a) eqn:Es, (App.exerciseData a); simpl; try done.
  destruct (treeView m); [done|].
  by destruct (TreeExercise.layoutEffect _ _).
Qed.

Lemma app_render m a : app (render m a) = a.
Proof.
  unfold render.
  destruct (App.state a) eqn:Es, (App.exerciseData a); simpl; try done.
  destruct (treeView m); [done|].
  by destruct (TreeExercise.layoutEffect _ _).
Qed.

Lemma matrixView_render m a :
  is_Some (matrixView (render m a)) → App.state a = matrix.
Proof.
  unfold render.
  destruct (App.state a) eqn:Es, (App.exerciseData a); simpl;
    try (by intros [? [=]]); try done.
  destruct (treeView m); [by intros [? [=]]|].
  destruct (TreeExercise.layoutEffect _ _); by intros [? [=]].
Qed.

(** Re-rendering [App] in state [a] keeps the invariant when [a] itself
    is sound. *)
Lemma invariant_render m a :
  (App.isLoading a = true → App.state a = setup) →
  App.state a ≠ loading → App.state a ≠ success →
  invariant (render m a).
Proof.
  intros Hl H1 H2. unfold invariant.
  rewrite screen_render, app_render. split_and!; try done.
  apply matrixView_render.
Qed.

Ltac inv_render :=
  apply invariant_render; simpl; first [done | congruence | by auto].

Ltac screens :=
  rewrite ?screen_render, ?app_render; unfold screen in *; simpl in *.

Lemma step_sound e m m' :
  invariant m → step e m = Some m' →
  invariant m' ∧ transition_ok m m'.
Proof.
  intros (Hload & Hmat & Hnl & Hns) Hstep.
  unfold step in Hstep. destruct (crashed m); [done|].
  unfold transition_ok.
  destruct e; simpl in Hstep.
  - (* TypeTopic *)
    case_bool_decide as Hs; [|done]. injection Hstep as <-.
    split; [inv_render|]. left. by screens.
  - case_bool_decide as Hs; [|done]. injection Hstep as <-.
    split; [inv_render|]. left. by screens.
  - case_bool_decide as Hs; [|done]. injection Hstep as <-.
    split; [inv_render|]. left. by screens.
  - (* ClickGenerate *)
    case_bool_decide as Hs; [|done]. simpl in Hstep.
    destruct (App.isLoading (app m)); [done|]. injection Hstep as <-.
    split; [inv_render|]. left. by screens.
  - (* Settles *)
    destruct (App.isLoading (app m)) eqn:El; [|done]. injection Hstep as <-.
    specialize (Hload eq_refl).
    split; [apply invariant_render; by destruct outcome|].
    destruct outcome as [e|data]; screens.
    + by right; left.
    + right; right; left. by eauto.
  - (* ClickDemo *)
    case_bool_decide as Hs; [|done]. simpl in Hstep.
    destruct (App.isLoading (app m)) eqn:El; [done|]. injection Hstep as <-.
    split; [inv_render|].
    right; right; left. screens. by eauto.
  - (* ClickHeader *)
    injection Hstep as <-.
    split; [inv_render|].
    right; left. by screens.
  - (* ClickEspaceProf *)
    destruct (App.exerciseData (app m)); [|done].
    case_bool_decide; [|done]. injection Hstep as <-.
    split; [inv_render|]. left. by screens.
  - destruct (App.exerciseData (app m)); [|done].
    destruct (App.showTeacherZone (app m)); [|done]. injection Hstep as <-.
    split; [inv_render|]. left. by screens.
  - (* ClickContinue *)
    destruct (App.state (app m)) eqn:Es; try done.
    destruct (App.exerciseData (app m)); [|done]. injection Hstep as <-.
    split.
    + apply invariant_render; simpl; [|done..].
      intros El. specialize (Hload El). unfold screen in Hload. congruence.
    + right; right; right; left. by screens.
  - (* ClickCell *)
    destruct (matrixView m) as [v|] eqn:Ev; [|done].
    destruct (App.exerciseData (app m)) as [d|]; [|done].
    destruct (taxons d !! i) as [t|]; [|done]. simpl in Hstep.
    destruct (characters d !! j) as [c|]; [|done]. simpl in Hstep.
    injection Hstep as <-.
    split; [|by left].
    unfold invariant, withMatrix, screen in *; simpl. split_and!; try done.
    intros _. apply Hmat. by eauto.
  - (* ClickMatrixButton *)
    destruct (matrixView m) as [v|] eqn:Ev; [|done].
    destruct (App.exerciseData (app m)) as [d|]; [|done].
    destruct (MatrixExercise.button v) eqn:Eb; injection Hstep as <-.
    + split; [|by left].
      unfold invariant, withMatrix, screen in *; simpl. split_and!; try done.
      intros _. apply Hmat. by eauto.
    + split.
      * apply invariant_render; simpl; [|done..].
        intros El. specialize (Hload El).
        specialize (Hmat (ltac:(by eauto))). unfold screen in *. congruence.
      * right; right; right; right. screens. split_and!.
        -- apply Hmat. by eauto.
        -- done.
        -- exists v. split; [done|].
           unfold MatrixExercise.button in Eb.
           by destruct (MatrixExercise.success v).
  - (* ClickItem *)
    destruct (treeView m) as [v|]; [|done].
    destruct (App.exerciseData (app m)) as [d|]; [|done].
    destruct (TreeExercise.getAvailableItems d v ty !! k); [|done].
    injection Hstep as <-. by split; [|left].
  - (* ClickSlot *)
    destruct (treeView m) as [v|]; [|done].
    destruct (App.exerciseData (app m)) as [d|]; [|done].
    destruct (TreeExercise.slots v !! k); [|done].
    injection Hstep as <-. by split; [|left].
  - (* ClickNouveau *)
    destruct (treeView m) as [v|]; [|done].
    destruct (TreeExercise.success v); [|done]. injection Hstep as <-.
    split; [inv_render|].
    right; left. by screens.
  - (* AlertDue *)
    destruct (treeView m) as [v|]; [|done].
    destruct (TreeExercise.timers v); [done|].
    injection Hstep as <-. by split; [|left].
Qed.

Lemma invariant_init : invariant init.
Proof. unfold invariant, init, screen; simpl. split_and!; try done. Qed.

Lemma run_consecutive m evs (k : nat) a b :
  invariant m →
  run m evs !! k = Some a → run m evs !! S k = Some b →
  invariant a ∧ invariant b ∧ transition_ok a b.
Proof.
  revert m k. induction evs as [|e evs IH]; intros m k Hinv Ha Hb.
  - by destruct k.
  - simpl in Ha, Hb.
    assert (Hnext : invariant (default m (step e m))
                    ∧ transition_ok m (default m (step e m))).
    { destruct (step e m) as [m'|] eqn:Es; simpl.
      - by eapply step_sound.
      - split; [done|by left]. }
    destruct Hnext as [Hinv' Htr].
    destruct k as [|k]; simpl in *.
    + injection Ha as <-.
      assert (b = default m (step e m)) as ->; [|done].
      destruct evs; simpl in Hb; congruence.
    + by eapply IH.
Qed.

End machine_claims.

Section machine_theorem.
Import Machine.

(** C5. Along every sequence of events from the initial page: the
    screen is never 'loading' nor 'success'; between two consecutive
    models the screen stays, or goes back to setup, or goes from setup to
    info with an exercise set, or from info to matrix, or from matrix to
    tree with the matrix success declared, and in no other way (so tree
    leads only to setup); whenever the screen is tree, an earlier model of
    the run was on matrix with its success declared; and the header click
    brings any live page to setup. *)
Theorem screens_advance_setup_info_matrix_tree (evs : list Event) :
  let ms := run init evs in
  (∀ m, m ∈ ms → screen m ≠ loading ∧ screen m ≠ success)
  ∧ (∀ (k : nat) a b,
       ms !! k = Some a → ms !! S k = Some b → transition_ok a b)
  ∧ (∀ (k : nat) a b,
       ms !! k = Some a → ms !! S k = Some b → screen a = tree →
       screen b = tree ∨ screen b = setup)
  ∧ (∀ (k : nat) m,
       ms !! k = Some m → screen m = tree →
       ∃ (j : nat) m0, (j < k)%nat ∧ ms !! j = Some m0
                       ∧ screen m0 = matrix ∧ matrixSucceeded m0)
  ∧ (∀ m, m ∈ ms → crashed m = false →
          ∃ m', step ClickHeader m = Some m' ∧ screen m' = setup).
Proof.
  simpl.
  assert (Hall : ∀ (k : nat) m, run init evs !! k = Some m → invariant m).
  { intros k m Hk. destruct k as [|k].
    - destruct evs; simpl in Hk; injection Hk as <-; apply invariant_init.
    - destruct (lookup_lt_is_Some_2 (run init evs) k) as [a Ha].
      { apply lookup_lt_Some in Hk. lia. }
      by destruct (run_consecutive init evs k a m invariant_init Ha Hk)
        as (_ & ? & _). }
  assert (Hstep : ∀ (k : nat) a b,
            run init evs !! k = Some a → run init evs !! S k = Some b →
            transition_ok a b).
  { intros k a b Ha Hb.
    by destruct (run_consecutive init evs k a b invariant_init Ha Hb)
      as (_ & _ & ?). }
  split_and!.
  - intros m [k Hk]%list_elem_of_lookup.
    by destruct (Hall k m Hk) as (_ & _ & ? & ?).
  - exact Hstep.
  - intros k a b Ha Hb Htree.
    destruct (Hstep k a b Ha Hb) as [E|[E|[(E&_)|[(E&_)|(E&_)]]]];
      rewrite ?E; try (by auto); congruence.
  - intros k. induction k as [|k IH]; intros m Hk Htree.
    + destruct evs; simpl in Hk; injection Hk as <-; done.
    + destruct (lookup_lt_is_Some_2 (run init evs) k) as [a Ha].
      { apply lookup_lt_Some in Hk. lia. }
      destruct (Hstep k a m Ha Hk) as [E|[E|[(_&E&_)|[(_&E)|(E&_&Hs)]]]];
        try congruence.
      * destruct (IH a Ha) as (j & m0 & ? & ? & ? & ?); [congruence|].
        exists j, m0. split_and!; [lia|done..].
      * exists k, a. split_and!; [lia|done..].
  - intros m _ Hc. unfold step. rewrite Hc.
    eexists. split; [done|]. by rewrite screen_render.
Qed.

(** The demo session ends on the tree screen, with the matrix passed. *)
Lemma demoSession_screens :
  screen <$> (run init (demoSession (λ _, 0%Q)) !! 27%nat) = Some tree.
Proof. vm_compute; reflexivity. Qed.

Lemma screens_advance_setup_info_matrix_tree_witness :
  ∃ m (j : nat) m0,
    run init (demoSession (λ _, 0%Q)) !! 27%nat = Some m
    ∧ screen m = tree
    ∧ (j < 27)%nat
    ∧ run init (demoSession (λ _, 0%Q)) !! j = Some m0
    ∧ screen m0 = matrix ∧ matrixSucceeded m0.
Proof.
  pose proof demoSession_screens as H.
  destruct (run init (demoSession (λ _, 0%Q)) !! 27%nat) as [m|] eqn:E;
    [|discriminate H].
  injection H as H.
  destruct (screens_advance_setup_info_matrix_tree (demoSession (λ _, 0%Q)))
    as (_ & _ & _ & Hvia & _).
  destruct (Hvia 27%nat m E H) as (j & m0 & Hj & Hm0 & Hscr & Hsucc).
  exists m, j, m0. exact (conj eq_refl (conj H (conj Hj (conj Hm0 (conj Hscr Hsucc))))).
Defined.

End machine_theorem.

(** * Further properties of the code *)

(** ** The matrix grid: first check, empty grids, missing rows *)

Section matrix_more.
Import MatrixExercise MatrixView.

Implicit Types (m : UserMatrix) (cm : gmap string (list string)).
Implicit Types (st : State) (t : Taxon.t) (c : Character.t).

Lemma cell_insert_empty_row m (taxonId tid cid : string) :
  (∀ a b, cell m a b = None) →
  cell (<[taxonId := ∅]> m) tid cid = None.
Proof.
  intros Hm. unfold cell. destruct (decide (taxonId = tid)) as [->|Hne].
  - by rewrite lookup_insert_eq, lookup_empty.
  - rewrite lookup_insert_ne by done. apply (Hm tid cid).
Qed.

Lemma initial_row_unset m (taxonId : string) (characters : list Character.t) :
  (∀ a b, cell m a b = None) →
  ∀ a b,
    cell (foldl (λ init c,
                   <[taxonId := <[Character.id c := None]>
                                  (default ∅ (init !! taxonId))]> init)
                m characters) a b = None.
Proof.
  revert m. induction characters as [|c cs IH]; intros m Hm a b; simpl.
  - apply Hm.
  - apply IH. intros a' b'. rewrite cell_toggled.
    destruct (decide _); [done|apply Hm].
Qed.

Lemma initial_unset (taxons : list Taxon.t) (characters : list Character.t)
  (tid cid : string) :
  cell (initial taxons characters) tid cid = None.
Proof.
  unfold initial.
  assert (∀ m, (∀ a b, cell m a b = None) →
            ∀ a b,
              cell (foldl (λ init t,
                      foldl (λ init c,
                               <[Taxon.id t :=
                                   <[Character.id c := None]>
                                     (default ∅ (init !! Taxon.id t))]> init)
                            (<[Taxon.id t := ∅]> init) characters)
                    m taxons) a b = None) as Hgen.
  { induction taxons as [|t ts IH]; intros m Hm a b; simpl; [apply Hm|].
    apply IH. intros a' b'. apply initial_row_unset.
    intros a'' b''. by apply cell_insert_empty_row. }
  apply Hgen. intros a b. unfold cell. by rewrite lookup_empty.
Qed.

(** X1. Right after the mount every cell of the grid is unset, whatever
    the lists of taxa and characters; so on a grid with at least one row and
    one column a first press of "Vérifier" does nothing but raise the
    fill-in alert. *)
Theorem untouched_grid_only_alerts (taxons : list Taxon.t)
  (characters : list Character.t) cm :
  taxons ≠ [] → characters ≠ [] →
  let st := initEffect taxons characters mount in
  (∀ tid cid : string, cell (userMatrix st) tid cid = None)
  ∧ checkMatrix taxons characters cm st
    = {| userMatrix := userMatrix st; showErrors := false; success := false;
         alerts := [fillAlert] |}.
Proof.
  intros Ht Hc. simpl. split; [apply initial_unset|].
  destruct taxons as [|t ts]; [done|]. destruct characters as [|c cs]; [done|].
  pose proof (scan_allFilled (t :: ts) (c :: cs) cm
                (initial (t :: ts) (c :: cs))) as HF.
  assert (Ef : allFilled (scan (t :: ts) (c :: cs) cm
                            (initial (t :: ts) (c :: cs))) = false).
  { apply not_true_iff_false. intros H.
    destruct (proj1 HF H t c (list_elem_of_here _ _) (list_elem_of_here _ _)).
    apply initial_unset. }
  unfold checkMatrix. simpl userMatrix. by rewrite Ef.
Qed.

Lemma untouched_grid_only_alerts_witness :
  alerts (checkMatrix (taxons App.DEFAULT_DATA) (characters App.DEFAULT_DATA)
            (correctMatrix App.DEFAULT_DATA)
            (initEffect (taxons App.DEFAULT_DATA) (characters App.DEFAULT_DATA)
               mount))
  = [fillAlert].
Proof.
  destruct (untouched_grid_only_alerts (taxons App.DEFAULT_DATA)
              (characters App.DEFAULT_DATA) (correctMatrix App.DEFAULT_DATA))
    as [_ ->]; [discriminate..|reflexivity].
Defined.

(** X2. A grid without rows or without columns has nothing to fill: from
    any state "Vérifier" declares success at once, raises no alert and
    leaves the matrix and the error flag alone. *)
Theorem empty_grid_succeeds_at_once (taxons : list Taxon.t)
  (characters : list Character.t) cm st :
  taxons = [] ∨ characters = [] →
  checkMatrix taxons characters cm st
  = {| userMatrix := userMatrix st; showErrors := showErrors st;
       success := true; alerts := alerts st |}.
Proof.
  intros Hempty.
  pose proof (scan_allFilled taxons characters cm (userMatrix st)) as HF.
  pose proof (scan_hasErrors taxons characters cm (userMatrix st)) as HE.
  assert (Hnone : ∀ t c, t ∈ taxons → c ∈ characters → False).
  { intros t c Ht Hc. destruct Hempty as [-> | ->].
    - by apply elem_of_nil in Ht.
    - by apply elem_of_nil in Hc. }
  assert (Ef : allFilled (scan taxons characters cm (userMatrix st)) = true).
  { apply (proj2 HF). intros t c Ht Hc. destruct (Hnone t c Ht Hc). }
  assert (Ee : hasErrors (scan taxons characters cm (userMatrix st)) = false).
  { apply not_true_iff_false. intros H.
    destruct (proj1 HE H) as (t & c & _ & Ht & Hc & _).
    destruct (Hnone t c Ht Hc). }
  unfold checkMatrix. by rewrite Ef, Ee.
Qed.

Lemma empty_grid_succeeds_at_once_witness :
  success (checkMatrix (taxons App.DEFAULT_DATA) [] ∅ mount) = true.
Proof.
  by rewrite (empty_grid_succeeds_at_once (taxons App.DEFAULT_DATA) [] ∅ mount
                (or_intror eq_refl)).
Defined.



(** X4. On an answer key with a row for every taxon, and while success is
    not yet declared, "Vérifier" declares success exactly for the grid of
    the teacher's corrected sheet: every cell set, "present" where the sheet
    prints an X and "absent" where it prints nothing. *)
Theorem success_iff_grid_is_corrected_sheet (taxons : list Taxon.t)
  (characters : list Character.t) cm st :
  (∀ t, t ∈ taxons → is_Some (cm !! Taxon.id t)) →
  success st = false →
  success (checkMatrix taxons characters cm st) = true ↔
  ∀ t c, t ∈ taxons → c ∈ characters →
         cell (userMatrix st) (Taxon.id t) (Character.id c)
         = Some (isPresent cm t c).
Proof.
  intros Hkey Hs. rewrite (checkMatrix_success_keyed _ _ _ _ Hkey Hs).
  assert (Hp : ∀ t c, t ∈ taxons →
            (isPresent cm t c = true ↔
             Character.id c ∈ default [] (cm !! Taxon.id t))).
  { intros t c Ht. unfold isPresent, shouldBePresent.
    destruct (Hkey t Ht) as [row ->]. simpl. apply bool_decide_eq_true. }
  split; intros H t c Ht Hc.
  - destruct (H t c Ht Hc) as (v & -> & Hv). f_equal.
    destruct v, (isPresent cm t c) eqn:E; try done.
    + apply not_true_iff_false in E. destruct E. apply Hp; [done|]. by apply Hv.
    + assert (false = true); [|done]. apply Hv. by apply Hp.
  - exists (isPresent cm t c). split; [by apply H|]. by apply Hp.
Qed.

Lemma success_iff_grid_is_corrected_sheet_witness :
  let taxons := [Taxon.mk "t1" "Sardine" None "" None None "" None] in
  let characters := [Character.mk "c1" "Vertèbres" ""] in
  let cm : gmap string (list string) := {[ "t1" := ["c1"] ]} in
  success (checkMatrix taxons characters cm
             (toggleCell "t1" "c1" (initEffect taxons characters mount)))
  = true.
Proof.
  apply (success_iff_grid_is_corrected_sheet
           [Taxon.mk "t1" "Sardine" None "" None None "" None]
           [Character.mk "c1" "Vertèbres" ""] {[ "t1" := ["c1"] ]}).
  - intros t ->%list_elem_of_singleton. by eexists.
  - reflexivity.
  - by intros t c ->%list_elem_of_singleton ->%list_elem_of_singleton.
Defined.

(** A grid that shows success agrees with the key, cell by cell. *)
Lemma reachable_success_grid (taxons : list Taxon.t)
  (characters : list Character.t) cm st :
  reachable taxons characters cm st →
  success st = true →
  ∀ t c, t ∈ taxons → c ∈ characters →
         ∃ v, cell (userMatrix st) (Taxon.id t) (Character.id c) = Some v
              ∧ shouldBePresent cm (Taxon.id t) (Character.id c) = Some v.
Proof.
  intros Hr Hs.
  assert (Hflags : allFilled (scan taxons characters cm (userMatrix st)) = true
                   ∧ hasErrors (scan taxons characters cm (userMatrix st)) = false).
  { induction Hr as [| |st t c Hr IH|st Hr IH Hb]; try done.
    - unfold toggleCell in *. destruct (success st) eqn:Es; [by apply IH|].
      simpl in Hs. congruence.
    - unfold button in Hb. destruct (success st) eqn:Es; [done|].
      pose proof (checkMatrix_cases taxons characters cm st) as (Hm & Hc).
      simpl in Hc. rewrite Hm.
      destruct Hc as [(_&_&E&_)|[(_&_&_&E&_)|(Ef&Ee&_)]]; [congruence..|done]. }
  destruct Hflags as [Ef Ee]. intros t c Ht Hc.
  pose proof (proj1 (scan_allFilled taxons characters cm (userMatrix st))
                Ef t c Ht Hc) as Hset.
  destruct (cell (userMatrix st) (Taxon.id t) (Character.id c)) as [v|] eqn:Ev;
    [|done].
  exists v. split; [done|].
  destruct (decide (shouldBePresent cm (Taxon.id t) (Character.id c) = Some v))
    as [|Hne]; [done|].
  assert (hasErrors (scan taxons characters cm (userMatrix st)) = true);
    [|congruence].
  apply (proj2 (scan_hasErrors taxons characters cm (userMatrix st))).
  exists t, c, v. by split_and!.
Qed.

(** X5. Success is never shown over a wrong grid: in every state the
    component can reach in which success is declared, every cell of the grid
    is set and equals what the key gives for it. *)
Theorem success_shown_only_over_correct_grid (taxons : list Taxon.t)
  (characters : list Character.t) cm st :
  reachable taxons characters cm st →
  success st = true →
  ∀ t c, t ∈ taxons → c ∈ characters →
         ∃ v, cell (userMatrix st) (Taxon.id t) (Character.id c) = Some v
              ∧ shouldBePresent cm (Taxon.id t) (Character.id c) = Some v.
Proof. exact (reachable_success_grid taxons characters cm st). Qed.

Lemma success_shown_only_over_correct_grid_witness :
  let taxons := [Taxon.mk "t1" "Sardine" None "" None None "" None] in
  let characters := [Character.mk "c1" "Vertèbres" ""] in
  let cm : gmap string (list string) := {[ "t1" := ["c1"] ]} in
  let st := checkMatrix taxons characters cm
              (toggleCell "t1" "c1" (initEffect taxons characters mount)) in
  success st = true
  ∧ ∀ t c, t ∈ taxons → c ∈ characters →
           ∃ v, cell (userMatrix st) (Taxon.id t) (Character.id c) = Some v
                ∧ shouldBePresent cm (Taxon.id t) (Character.id c) = Some v.
Proof.
  split; [reflexivity|].
  apply (success_shown_only_over_correct_grid
           [Taxon.mk "t1" "Sardine" None "" None None "" None]
           [Character.mk "c1" "Vertèbres" ""] {[ "t1" := ["c1"] ]}).
  - apply reach_check; [|reflexivity]. apply reach_toggle, reach_init.
  - reflexivity.
Defined.

(** X6. The error highlighting is never empty and never wrong: in every
    reachable state whose error flag is on, some cell of the grid carries the
    red ring; and a ringed cell of the grid is always a set cell that differs
    from the key, in a state where success is not declared. *)
Theorem error_ring_marks_wrong_cells (taxons : list Taxon.t)
  (characters : list Character.t) cm st :
  reachable taxons characters cm st →
  (showErrors st = true →
     ∃ t c, t ∈ taxons ∧ c ∈ characters ∧ ringed cm st t c = true)
  ∧ (∀ t c, t ∈ taxons → c ∈ characters → ringed cm st t c = true →
       success st = false
       ∧ ∃ v, cell (userMatrix st) (Taxon.id t) (Character.id c) = Some v
              ∧ shouldBePresent cm (Taxon.id t) (Character.id c) ≠ Some v).
Proof.
  intros Hr. split.
  - intros Hsh.
    destruct (reachable_showErrors _ _ _ _ Hr Hsh) as (_ & _ & Ee).
    destruct (proj1 (scan_hasErrors taxons characters cm (userMatrix st)) Ee)
      as (t & c & v & Ht & Hc & Ev & Hne).
    exists t, c. split_and!; [done..|].
    unfold ringed, isCorrect. rewrite Hsh, Ev. simpl.
    by rewrite bool_decide_false.
  - intros t c Ht Hc Hring. unfold ringed in Hring.
    apply andb_true_iff in Hring as [Hsh Hwrong].
    destruct (reachable_showErrors _ _ _ _ Hr Hsh) as (Hs & Ef & _).
    split; [done|].
    pose proof (proj1 (scan_allFilled taxons characters cm (userMatrix st))
                  Ef t c Ht Hc) as Hset.
    unfold isCorrect in Hwrong.
    destruct (cell (userMatrix st) (Taxon.id t) (Character.id c)) as [v|] eqn:Ev;
      [|done].
    exists v. split; [done|].
    apply negb_true_iff, bool_decide_eq_false in Hwrong. done.
Qed.

Lemma error_ring_marks_wrong_cells_witness :
  let taxons := [Taxon.mk "t1" "Sardine" None "" None None "" None] in
  let characters := [Character.mk "c1" "Vertèbres" ""] in
  let cm : gmap string (list string) := {[ "t1" := ["c1"] ]} in
  let st := checkMatrix taxons characters cm
              (toggleCell "t1" "c1"
                 (toggleCell "t1" "c1" (initEffect taxons characters mount))) in
  showErrors st = true
  ∧ ∃ t c, t ∈ taxons ∧ c ∈ characters ∧ ringed cm st t c = true.
Proof.
  split; [reflexivity|].
  apply (error_ring_marks_wrong_cells
           [Taxon.mk "t1" "Sardine" None "" None None "" None]
           [Character.mk "c1" "Vertèbres" ""] {[ "t1" := ["c1"] ]}).
  - apply reach_check; [|reflexivity].
    apply reach_toggle, reach_toggle, reach_init.
  - reflexivity.
Defined.

End matrix_more.

(** ** The matrix grid can be solved *)

Section matrix_solvable.
Import MatrixExercise MatrixView.

Implicit Types (m : UserMatrix) (cm : gmap string (list string)).
Implicit Types (st : State) (t : Taxon.t) (c : Character.t).
Implicit Types (cl : list (string * string)).

Lemma clicks_success cl st : success (clicks cl st) = success st.
Proof.
  revert st. induction cl as [|p cl IH]; intros st; simpl; [done|].
  unfold clicks in *. simpl. rewrite IH.
  unfold toggleCell. by destruct (success st) eqn:E.
Qed.

Lemma clickCount_cons p q cl :
  clickCount p (q :: cl) = if decide (q = p) then S (clickCount p cl)
                           else clickCount p cl.
Proof. unfold clickCount. rewrite filter_cons. by destruct (decide (q = p)). Qed.

Lemma clickCount_app p cl1 cl2 :
  clickCount p (cl1 ++ cl2) = (clickCount p cl1 + clickCount p cl2)%nat.
Proof. unfold clickCount. by rewrite filter_app, length_app. Qed.

(** A cell goes round its cycle once per click on it. *)
Lemma clicks_cell cl st (tid cid : string) :
  success st = false →
  cell (userMatrix (clicks cl st)) tid cid
  = Nat.iter (clickCount (tid, cid) cl) nextVal (cell (userMatrix st) tid cid).
Proof.
  revert st. induction cl as [|[a b] cl IH]; intros st Hs; [done|].
  change (clicks ((a, b) :: cl) st) with (clicks cl (toggleCell a b st)).
  rewrite IH by (unfold toggleCell; by rewrite Hs).
  rewrite clickCount_cons. unfold toggleCell. rewrite Hs. simpl.
  rewrite cell_toggled.
  destruct (decide (a = tid ∧ b = cid)) as [[-> ->]|Hne].
  - rewrite decide_True by done. by rewrite Nat.iter_succ_r.
  - rewrite decide_False; [done|]. intros [= -> ->]. by destruct Hne.
Qed.

Lemma rowSolution_other_row cm characters t (tid cid : string) :
  Taxon.id t ≠ tid → clickCount (tid, cid) (rowSolution cm characters t) = 0%nat.
Proof.
  intros Hne. unfold rowSolution.
  induction characters as [|c cs IH]; [done|].
  rewrite bind_cons, clickCount_app, IH.
  case_bool_decide; rewrite !clickCount_cons;
    repeat (rewrite decide_False by (intros [= ? ?]; done)); done.
Qed.

Lemma rowSolution_other_column cm characters t (cid : string) :
  cid ∉ Character.id <$> characters →
  clickCount (Taxon.id t, cid) (rowSolution cm characters t) = 0%nat.
Proof.
  unfold rowSolution. induction characters as [|c cs IH]; [done|].
  rewrite fmap_cons, not_elem_of_cons. intros [Hne Hnin].
  rewrite bind_cons, clickCount_app, IH by done.
  case_bool_decide; rewrite !clickCount_cons;
    repeat (rewrite decide_False by (intros [= ?]; done)); done.
Qed.

Lemma rowSolution_count cm characters t c :
  NoDup (Character.id <$> characters) → c ∈ characters →
  clickCount (Taxon.id t, Character.id c) (rowSolution cm characters t)
  = if bool_decide (Character.id c ∈ default [] (cm !! Taxon.id t))
    then 1%nat else 2%nat.
Proof.
  induction characters as [|c0 cs IH]; [by intros _ ?%elem_of_nil|].
  rewrite fmap_cons, NoDup_cons. intros [Hnin Hnd] Hin.
  unfold rowSolution in *. rewrite bind_cons, clickCount_app.
  destruct (decide (Character.id c0 = Character.id c)) as [E|Hne].
  - rewrite E in *.
    pose proof (rowSolution_other_column cm cs t (Character.id c) Hnin) as H0.
    unfold rowSolution in H0. rewrite H0.
    case_bool_decide; rewrite !clickCount_cons, !decide_True by done; done.
  - apply elem_of_cons in Hin as [->|Hin]; [done|].
    rewrite (IH Hnd Hin).
    assert (clickCount (Taxon.id t, Character.id c)
              (if bool_decide (Character.id c0 ∈ default [] (cm !! Taxon.id t))
               then [(Taxon.id t, Character.id c0)]
               else [(Taxon.id t, Character.id c0); (Taxon.id t, Character.id c0)])
            = 0%nat) as ->; [|done].
    destruct (bool_decide (Character.id c0 ∈ _)); rewrite !clickCount_cons;
      repeat (rewrite decide_False by (intros [= ?]; done)); done.
Qed.

Lemma solution_count taxons characters cm t c :
  NoDup (Taxon.id <$> taxons) → NoDup (Character.id <$> characters) →
  t ∈ taxons → c ∈ characters →
  clickCount (Taxon.id t, Character.id c) (solution taxons characters cm)
  = if bool_decide (Character.id c ∈ default [] (cm !! Taxon.id t))
    then 1%nat else 2%nat.
Proof.
  intros Hnd Hndc Ht Hc. unfold solution.
  induction taxons as [|t0 ts IH]; [by apply elem_of_nil in Ht|].
  rewrite fmap_cons, NoDup_cons in Hnd. destruct Hnd as [Hnin Hnd].
  rewrite bind_cons, clickCount_app.
  assert (Hrest : ∀ tid, tid ∉ Taxon.id <$> ts →
            clickCount (tid, Character.id c)
              (ts ≫= λ t, rowSolution cm characters t) = 0%nat).
  { clear. intros tid. induction ts as [|t1 ts IH]; [done|].
    rewrite fmap_cons, not_elem_of_cons. intros [Hne Hnin].
    rewrite bind_cons, clickCount_app, IH by done.
    by rewrite rowSolution_other_row. }
  destruct (decide (Taxon.id t0 = Taxon.id t)) as [E|Hne].
  - rewrite <- E in *. rewrite (Hrest _ Hnin).
    rewrite rowSolution_count by done. lia.
  - apply elem_of_cons in Ht as [->|Ht]; [done|].
    rewrite rowSolution_other_row by done. by rewrite IH.
Qed.

(** X7. The grid can always be solved when the taxa have distinct ids, the
    characters have distinct ids and the key has a row for every taxon:
    starting from the untouched grid, one click on each cell the key marks
    present and two clicks on each other cell make "Vérifier" declare
    success, after which the button that leads to the tree is offered. *)
Theorem grid_solved_by_following_the_key (taxons : list Taxon.t)
  (characters : list Character.t) cm :
  NoDup (Taxon.id <$> taxons) →
  NoDup (Character.id <$> characters) →
  (∀ t, t ∈ taxons → is_Some (cm !! Taxon.id t)) →
  let st := clicks (solution taxons characters cm)
                   (initEffect taxons characters mount) in
  success (checkMatrix taxons characters cm st) = true
  ∧ button (checkMatrix taxons characters cm st) = ConstruireArbre.
Proof.
  intros Hnd Hndc Hkey st.
  assert (Hsucc : success (checkMatrix taxons characters cm st) = true).
  { apply checkMatrix_success_keyed; [done|by subst st; rewrite clicks_success|].
    intros t c Ht Hc. unfold cellMatchesKey. subst st.
    rewrite clicks_cell by done. simpl userMatrix.
    rewrite initial_unset, solution_count by done.
    case_bool_decide as Hp.
    - exists true. by split.
    - exists false. split; [done|]. split; [done|]. intros ?. by destruct Hp. }
  split; [done|]. unfold button. by rewrite Hsucc.
Qed.

Lemma grid_solved_by_following_the_key_witness :
  success
    (checkMatrix (taxons App.DEFAULT_DATA) (characters App.DEFAULT_DATA)
       (correctMatrix App.DEFAULT_DATA)
       (clicks (solution (taxons App.DEFAULT_DATA) (characters App.DEFAULT_DATA)
                  (correctMatrix App.DEFAULT_DATA))
          (initEffect (taxons App.DEFAULT_DATA) (characters App.DEFAULT_DATA)
             mount)))
  = true.
Proof.
  apply (grid_solved_by_following_the_key (taxons App.DEFAULT_DATA)
           (characters App.DEFAULT_DATA) (correctMatrix App.DEFAULT_DATA)).
  - apply (bool_decide_unpack _). vm_compute. exact I.
  - apply (bool_decide_unpack _). vm_compute. exact I.
  - intros t Ht. simpl in Ht.
    repeat (apply elem_of_cons in Ht as [->|Ht]; [by eexists|]).
    by apply elem_of_nil in Ht.
Defined.

End matrix_solvable.

(** ** The tree builder: layout, frozen success, mistakes *)

Section tree_more.
Import TreeExercise TreeView.

Implicit Types (sl : list Slot) (st : State) (data : ExerciseData).

(** X8. The layout effect throws exactly on an exercise without evolution
    steps (it reads the position of the last taxon); with at least one step
    it installs the slots, resets success and the mistake counter, and keeps
    the selection and the alerts. *)
Theorem layout_throws_iff_no_step data st :
  (layoutEffect data st = None ↔ evolutionOrder data = [])
  ∧ ∀ st', layoutEffect data st = Some st' →
           newSlots data = Some (slots st')
           ∧ success st' = false ∧ mistakes st' = 0%nat
           ∧ selectedItemId st' = selectedItemId st ∧ alerts st' = alerts st.
Proof.
  split.
  - split.
    + intros Hnone. destruct (evolutionOrder data) as [|e l] eqn:E; [done|].
      assert (evolutionOrder data ≠ []) as Hne by (by rewrite E).
      destruct (newSlots_defined data Hne) as [sl Hsl].
      unfold layoutEffect in Hnone. by rewrite Hsl in Hnone.
    + intros E. unfold layoutEffect, newSlots, effectTrunkTipX. by rewrite E.
  - intros st'. unfold layoutEffect.
    destruct (newSlots data) as [sl|]; [|done]. simpl. by intros [= <-].
Qed.

Lemma stepSlots_shape b tip positions count index step out s :
  stepSlots b tip positions count index step = Some out → s ∈ out →
  filledWithId s = None
  ∧ truthy_opt (expectedId s) = true
  ∧ ((id s = "attr-" +:+ pretty index ∧ type s = attribute
      ∧ expectedId s = characterId step)
     ∨ (id s = "taxon-" +:+ pretty index ∧ type s = taxon
        ∧ expectedId s = branchingTaxonId step
        ∧ ∃ p, positions !! index = Some p ∧ x s = px p ∧ y s = py p)).
Proof.
  unfold stepSlots. destruct (positions !! index) as [p|] eqn:Ep; [|done]; simpl.
  intros [= <-] Hs. apply elem_of_app in Hs as [Hs|Hs].
  - destruct (truthy_opt (characterId step)) eqn:Et; [|by apply elem_of_nil in Hs].
    apply list_elem_of_singleton in Hs as ->. simpl. split_and!; [done..|]. by left.
  - destruct (truthy_opt (branchingTaxonId step)) eqn:Et;
      [|by apply elem_of_nil in Hs].
    apply list_elem_of_singleton in Hs as ->. simpl. split_and!; [done..|].
    right. split_and!; [done..|]. by exists p.
Qed.

Lemma stepSlots_length b tip positions count index step out :
  stepSlots b tip positions count index step = Some out → (length out <= 2)%nat.
Proof.
  unfold stepSlots. destruct (positions !! index) as [p|]; [|done]; simpl.
  intros [= <-]. rewrite length_app.
  destruct (truthy_opt (characterId step)), (truthy_opt (branchingTaxonId step));
    simpl; lia.
Qed.

Lemma newSlots_length data sl :
  newSlots data = Some sl → (length sl <= 2 * length (evolutionOrder data))%nat.
Proof.
  intros Hsl. unfold newSlots in Hsl.
  destruct (effectTrunkTipX data) as [tip|]; [|done]; simpl in Hsl.
  destruct (mapM _ _) as [outs|] eqn:E; [|done]; simpl in Hsl.
  injection Hsl as <-. apply mapM_Some_1 in E.
  rewrite <- (length_imap pair (evolutionOrder data)).
  induction E as [|[index step] out ps outs Hout HF IH]; simpl; [lia|].
  rewrite length_app. apply stepSlots_length in Hout. lia.
Qed.

Lemma newSlots_slot_shape data sl s :
  newSlots data = Some sl → s ∈ sl →
  filledWithId s = None
  ∧ truthy_opt (expectedId s) = true
  ∧ ∃ (i : nat) step,
      evolutionOrder data !! i = Some step
      ∧ ((id s = "attr-" +:+ pretty i ∧ type s = attribute
          ∧ expectedId s = characterId step)
         ∨ (id s = "taxon-" +:+ pretty i ∧ type s = taxon
            ∧ expectedId s = branchingTaxonId step
            ∧ x s = (START_X + idx i * STEP_X)%Qc ∧ y s = TAXON_TOP_Y)).
Proof.
  intros Hsl. unfold newSlots in Hsl.
  destruct (effectTrunkTipX data) as [tip|]; [|done]; simpl in Hsl.
  destruct (mapM _ _) as [outs|] eqn:E; [|done]; simpl in Hsl.
  injection Hsl as <-. apply mapM_Some_1 in E.
  intros (out & Hs & Hout)%list_elem_of_join.
  apply list_elem_of_lookup in Hout as [i Hi].
  destruct (Forall2_lookup_r _ _ _ _ _ E Hi) as ([index step] & Hp & Hstep).
  rewrite list_lookup_imap in Hp.
  destruct (evolutionOrder data !! i) as [step'|] eqn:Ei; [|done].
  simpl in Hp. injection Hp as <- <-.
  destruct (stepSlots_shape _ _ _ _ _ _ _ _ Hstep Hs) as (? & ? & Hkind).
  split_and!; [done..|]. exists i, step'. split; [done|].
  destruct Hkind as [?|(? & ? & ? & p & Hp & Hx & Hy)]; [by left|right].
  split_and!; [done..| |].
  + unfold taxonPositions in Hp. rewrite list_lookup_imap, Ei in Hp.
    simpl in Hp. injection Hp as <-. by rewrite Hx.
  + unfold taxonPositions in Hp. rewrite list_lookup_imap, Ei in Hp.
    simpl in Hp. injection Hp as <-. by rewrite Hy.
Qed.

(** X9. The slots the layout installs: their ids are pairwise distinct,
    there are at most two per evolution step, each is empty and expects a
    non-empty id, an attribute slot expects the character of its step and a
    taxon slot the taxon of its step, the latter placed on the top row at
    the abscissa of the step. *)
Theorem layout_slots_shape data sl :
  newSlots data = Some sl →
  NoDup (id <$> sl)
  ∧ (length sl <= 2 * length (evolutionOrder data))%nat
  ∧ ∀ s, s ∈ sl →
      filledWithId s = None
      ∧ truthy_opt (expectedId s) = true
      ∧ ∃ (i : nat) step,
          evolutionOrder data !! i = Some step
          ∧ ((id s = "attr-" +:+ pretty i ∧ type s = attribute
              ∧ expectedId s = characterId step)
             ∨ (id s = "taxon-" +:+ pretty i ∧ type s = taxon
                ∧ expectedId s = branchingTaxonId step
                ∧ x s = (START_X + idx i * STEP_X)%Qc ∧ y s = TAXON_TOP_Y)).
Proof.
  intros Hsl. split_and!.
  - by eapply newSlots_ids_unique.
  - by apply newSlots_length.
  - intros s Hs. by apply (newSlots_slot_shape data sl).
Qed.

Lemma layout_slots_shape_witness :
  ∃ sl, newSlots App.DEFAULT_DATA = Some sl
        ∧ NoDup (id <$> sl) ∧ (length sl <= 8)%nat.
Proof.
  destruct (newSlots_defined App.DEFAULT_DATA) as [sl E]; [done|].
  exists sl. split; [exact E|].
  destruct (layout_slots_shape App.DEFAULT_DATA sl E) as (? & ? & _).
  by split.
Defined.

End tree_more.

Section tree_frozen.
Import TreeExercise TreeView.

Implicit Types (sl : list Slot) (st : State) (data : ExerciseData).

Lemma handleSlotClick_frame st slotId :
  frame <$> slots (handleSlotClick slotId st) = frame <$> slots st.
Proof.
  unfold handleSlotClick. destruct (success st); [done|].
  destruct (list_find _ _) as [[k slot]|] eqn:Hfind; [|done].
  apply list_find_Some in Hfind as (Hk & _ & _).
  assert (∀ v, frame <$> <[k := setFilled slot v]> (slots st) = frame <$> slots st)
    as Hins.
  { intros v. rewrite list_fmap_insert.
    apply list_insert_id. by rewrite list_lookup_fmap, Hk. }
  destruct (truthy_opt (filledWithId slot)); [by apply Hins|].
  destruct (selectedItemId st) as [[sel ty]|]; [|done].
  case_bool_decide; [|done].
  destruct (checkCompletion_slots
              (<[k := setFilled slot (Some sel)]> (slots st))
              {| slots := <[k := setFilled slot (Some sel)]> (slots st);
                 selectedItemId := None; success := false;
                 mistakes := mistakes st; alerts := alerts st;
                 timers := timers st |}) as [-> _].
  by apply Hins.
Qed.

(** What a click on a slot does to success, the counter and the alerts. *)
Lemma handleSlotClick_verdict st slotId :
  let st' := handleSlotClick slotId st in
  (success st' = success st ∧ mistakes st' = mistakes st
   ∧ alerts st' = alerts st ∧ timers st' = timers st)
  ∨ (success st = false ∧ success st' = true
     ∧ allFilled (slots st') = true ∧ allCorrect (slots st') = true
     ∧ mistakes st' = mistakes st
     ∧ alerts st' = alerts st ∧ timers st' = timers st)
  ∨ (success st = false ∧ success st' = false
     ∧ allFilled (slots st') = true ∧ allCorrect (slots st') = false
     ∧ mistakes st' = S (mistakes st)
     ∧ alerts st' = alerts st
     ∧ timers st' = (timers st ++ [incorrectAlert])%list).
Proof.
  simpl. unfold handleSlotClick. destruct (success st) eqn:Es; [by left|].
  destruct (list_find _ _) as [[k slot]|]; [|by left].
  destruct (truthy_opt (filledWithId slot)); [by left|].
  destruct (selectedItemId st) as [[sel ty]|]; [|by left].
  case_bool_decide; [|by left].
  unfold checkCompletion.
  destruct (allFilled _) eqn:Ef; [|by left].
  destruct (allCorrect _) eqn:Ec; simpl.
  - right; left. by rewrite Ef, Ec.
  - right; right. rewrite Ef, Ec. split_and!; try done. lia.
Qed.

Lemma fossilEffect_verdict data st :
  success (fossilEffect data st) = success st
  ∧ mistakes (fossilEffect data st) = mistakes st
  ∧ (alerts (fossilEffect data st) = alerts st
     ∧ timers (fossilEffect data st) = timers st)
  ∧ selectedItemId (fossilEffect data st) = selectedItemId st
  ∧ filledWithId <$> slots (fossilEffect data st) = filledWithId <$> slots st
  ∧ expectedId <$> slots (fossilEffect data st) = expectedId <$> slots st.
Proof.
  unfold fossilEffect. destruct (success st) eqn:Es; [|done]. simpl.
  split_and!; try done.
  - rewrite <- list_fmap_compose. apply list_fmap_ext.
    intros i s _. simpl. by destruct (_ && _).
  - rewrite <- list_fmap_compose. apply list_fmap_ext.
    intros i s _. simpl. by destruct (_ && _).
Qed.

Lemma all_fmap_eq (f : Slot → bool) sl sl' :
  filledWithId <$> sl' = filledWithId <$> sl →
  expectedId <$> sl' = expectedId <$> sl →
  (∀ s s', filledWithId s' = filledWithId s → expectedId s' = expectedId s →
           f s' = f s) →
  forallb f sl' = forallb f sl.
Proof.
  revert sl'. induction sl as [|s sl IH]; intros [|s' sl'] Hf He Hfg;
    simpl in *; try done.
  injection Hf as Hf1 Hf. injection He as He1 He.
  by rewrite (Hfg s s' Hf1 He1), (IH sl' Hf He Hfg).
Qed.

(** In a state with success declared every slot holds what it expects. *)
Lemma fossilEffect_all data st :
  allFilled (slots (fossilEffect data st)) = allFilled (slots st)
  ∧ allCorrect (slots (fossilEffect data st)) = allCorrect (slots st).
Proof.
  destruct (fossilEffect_verdict data st) as (_ & _ & _ & _ & Hf & He).
  split; (apply all_fmap_eq; [exact Hf|exact He|]);
    intros s s' E1 E2; by rewrite E1, ?E2.
Qed.

Lemma reachable_success_correct data st :
  live data st → success st = true →
  allFilled (slots st) = true ∧ allCorrect (slots st) = true.
Proof.
  induction 1 as [st0 Hl|st st' Hr IH Hstep].
  - unfold layoutEffect in Hl. destruct (newSlots data); [|done].
    simpl in Hl. by injection Hl as <-.
  - destruct Hstep as [st it ty Hit|st slot Hslot|st Hsucc|st Htimer].
    + unfold handleItemClick. destruct (success st) eqn:Es; [by rewrite Es|].
      simpl. congruence.
    + pose proof (handleSlotClick_verdict st (id slot)) as Hv. simpl in Hv.
      intros Hs1.
      destruct Hv as [(E & _)|[(_ & _ & ? & ? & _)|(_ & E & _)]];
        [|done|congruence].
      assert (success st = true) as Hs by congruence.
      assert (handleSlotClick (id slot) st = st) as ->; [|by apply IH].
      unfold handleSlotClick. by rewrite Hs.
    + destruct (fossilEffect_all data st) as [-> ->]. intros _. by apply IH.
    + destruct (alertTimer_frame st) as (-> & _ & -> & _). exact IH.
Qed.

(** The fossil effect brings every frame to its place under success. *)
Lemma fossilEffect_frames data st sl0 (low : bool) :
  success st = true →
  frame <$> slots st = frameAt data low <$> sl0 →
  frame <$> slots (fossilEffect data st) = frameAt data true <$> sl0.
Proof.
  intros Es Hfr. unfold fossilEffect. rewrite Es. simpl.
  rewrite <- list_fmap_compose.
  assert (Hlen : length (slots st) = length sl0).
  { apply (f_equal length) in Hfr. by rewrite !length_fmap in Hfr. }
  apply (list_eq_same_length _ _ (length sl0));
    [by rewrite length_fmap|by rewrite length_fmap|].
  intros i a b Hi Ha Hb.
  rewrite list_lookup_fmap in Ha, Hb.
  destruct (slots st !! i) as [s|] eqn:E1; [|done].
  destruct (sl0 !! i) as [s0|] eqn:E0; [|done].
  simpl in Ha, Hb. injection Ha as <-. injection Hb as <-.
  apply (f_equal (λ l, l !! i)) in Hfr.
  rewrite !list_lookup_fmap, E1, E0 in Hfr. simpl in Hfr.
  injection Hfr as Hid Hty Hx Hy He.
  unfold frame, frameAt, lowered in *. simpl.
  rewrite Hty, He.
  destruct (bool_decide (type s0 = taxon) && truthy_opt (expectedId s0)
            && isFossilId data (expectedId s0)); simpl.
  - congruence.
  - rewrite andb_false_r in Hy. congruence.
Qed.

(** The layout never changes, except that the fossil effect, which runs
    under success only, lowers the fossil cards. *)
Lemma reachable_frame data st :
  live data st →
  ∃ sl0 (low : bool),
    newSlots data = Some sl0
    ∧ (low = true → success st = true)
    ∧ frame <$> slots st = frameAt data low <$> sl0.
Proof.
  induction 1 as [st0 Hl|st st' Hr (sl0 & low & Hsl & Hlow & IH) Hstep].
  - unfold layoutEffect in Hl. destruct (newSlots data) as [sl|]; [|done].
    simpl in Hl. injection Hl as <-. exists sl, false. by split_and!.
  - destruct Hstep as [st it ty Hit|st slot Hslot|st Hsucc|st Htimer].
    + exists sl0, low. split; [done|].
      unfold handleItemClick. by destruct (success st) eqn:Es; rewrite ?Es.
    + exists sl0, low. split; [done|]. split.
      * intros El. specialize (Hlow El). unfold handleSlotClick.
        by rewrite Hlow.
      * by rewrite handleSlotClick_frame.
    + exists sl0, true. split; [done|]. split.
      * intros _. by destruct (fossilEffect_verdict data st) as (-> & _).
      * by eapply fossilEffect_frames.
    + exists sl0, low. split; [done|].
      by destruct (alertTimer_frame st) as (-> & _ & -> & _).
Qed.

(** X10. Success freezes the tree: in every state the builder can reach in
    which success is declared, every slot holds exactly the non-empty id it
    expects, and from then on neither a click on an inventory item nor a
    click on a slot changes anything. *)
Theorem success_freezes_a_correct_tree data st :
  reachable data st → success st = true →
  (∀ s, s ∈ slots st →
        filledWithId s = expectedId s ∧ truthy_opt (filledWithId s) = true)
  ∧ (∀ itemId ty, handleItemClick itemId ty st = st)
  ∧ (∀ slotId, slotClicked data slotId st = st).
Proof.
  intros [->|Hr] Hs; [done|].
  destruct (reachable_success_correct data st Hr Hs) as [_ Hc].
  destruct (reachable_frame data st Hr) as (sl0 & low & Hsl & _ & Hfr).
  split_and!.
  - intros s Hin.
    pose proof (proj1 (allCorrect_spec _) Hc s Hin) as E. split; [done|].
    rewrite E. apply list_elem_of_lookup in Hin as [i Hi].
    apply (f_equal (λ l, l !! i)) in Hfr.
    rewrite !list_lookup_fmap, Hi in Hfr. simpl in Hfr.
    destruct (sl0 !! i) as [s0|] eqn:E0; [|done]. simpl in Hfr.
    injection Hfr as _ _ _ _ He. rewrite He.
    apply list_elem_of_lookup_2 in E0.
    by destruct (newSlots_slot_shape data sl0 s0 Hsl E0) as (_ & ? & _).
  - intros itemId ty. unfold handleItemClick. by rewrite Hs.
  - intros slotId. unfold slotClicked, handleSlotClick. rewrite Hs.
    by rewrite bool_decide_false by (by intros []).
Qed.

End tree_frozen.

Section tree_sessions.
Import TreeExercise TreeView.

Implicit Types (sl : list Slot) (st : State) (data : ExerciseData).

Lemma item_click_reachable data st it ty :
  live data st → it ∈ getAvailableItems data st ty →
  live data (handleItemClick (itemId it) ty st).
Proof. intros Hr Hit. eapply reach_step; [exact Hr|by apply step_item]. Qed.

Lemma slot_click_reachable data st (k : nat) slotId :
  live data st → id <$> (slots st !! k) = Some slotId →
  live data (slotClicked data slotId st).
Proof.
  intros Hr Hk. destruct (slots st !! k) as [slot|] eqn:E; [|done].
  injection Hk as <-. apply slotClicked_live; [exact Hr|].
  by eapply list_elem_of_lookup_2.
Qed.

Lemma fossilStart_layout :
  layoutEffect Sessions.fossilData mount = Some Sessions.fossilStart.
Proof. vm_compute; reflexivity. Qed.

Lemma solved_live : live Sessions.fossilData Sessions.solved.
Proof.
  apply (slot_click_reachable _ Sessions.rightTaxonSelected 1%nat);
    [|vm_compute; reflexivity].
  apply (item_click_reachable _ Sessions.rightCharacterPlaced
           (ItemTaxon Sessions.archaeopteryx) taxon);
    [|apply list_elem_of_In; vm_compute; auto].
  apply (slot_click_reachable _ Sessions.rightCharacterSelected 0%nat);
    [|vm_compute; reflexivity].
  apply (item_click_reachable _ Sessions.fossilStart
           (ItemCharacter Sessions.plumes) attribute);
    [|apply list_elem_of_In; vm_compute; auto].
  apply reach_layout, fossilStart_layout.
Qed.

Lemma solved_reachable : reachable Sessions.fossilData Sessions.solved.
Proof. right. exact solved_live. Qed.

Lemma wrongTaxonSelected_live :
  live Sessions.fossilData Sessions.wrongTaxonSelected.
Proof.
  apply (item_click_reachable _ Sessions.wrongCharacterPlaced
           (ItemTaxon Sessions.archaeopteryx) taxon);
    [|apply list_elem_of_In; vm_compute; auto].
  apply (slot_click_reachable _ Sessions.wrongCharacterSelected 0%nat);
    [|vm_compute; reflexivity].
  apply (item_click_reachable _ Sessions.fossilStart
           (ItemCharacter Sessions.poils) attribute);
    [|apply list_elem_of_In; vm_compute; auto].
  apply reach_layout, fossilStart_layout.
Qed.

Lemma wrongTaxonSelected_reachable : reachable Sessions.fossilData Sessions.wrongTaxonSelected.
Proof. right. exact wrongTaxonSelected_live. Qed.

Lemma solved_success : success Sessions.solved = true.
Proof. vm_compute; reflexivity. Qed.

End tree_sessions.

Section tree_frozen_witness.
Import TreeExercise TreeView.

Lemma success_freezes_a_correct_tree_witness :
  reachable Sessions.fossilData Sessions.solved
  ∧ success Sessions.solved = true
  ∧ (∀ s, s ∈ slots Sessions.solved →
          filledWithId s = expectedId s ∧ truthy_opt (filledWithId s) = true)
  ∧ (∀ itemId ty, handleItemClick itemId ty Sessions.solved = Sessions.solved)
  ∧ (∀ slotId, slotClicked Sessions.fossilData slotId Sessions.solved
               = Sessions.solved).
Proof.
  split; [exact solved_reachable|]. split; [exact solved_success|].
  exact (success_freezes_a_correct_tree Sessions.fossilData Sessions.solved
           solved_reachable solved_success).
Defined.

End tree_frozen_witness.

Section tree_collisions.
Import TreeExercise TreeView.

Implicit Types (sl : list Slot) (st : State) (data : ExerciseData).

Lemma frame_lookup data st sl0 (low : bool) (k : nat) s0 :
  frame <$> slots st = frameAt data low <$> sl0 →
  sl0 !! k = Some s0 →
  ∃ s, slots st !! k = Some s ∧ frame s = frameAt data low s0.
Proof.
  intros Hfr Hk. apply (f_equal (λ l, l !! k)) in Hfr.
  rewrite !list_lookup_fmap, Hk in Hfr. simpl in Hfr.
  destruct (slots st !! k) as [s|]; [|done].
  exists s. split; [done|]. simpl in Hfr. congruence.
Qed.

Lemma success_slot_holds data st s :
  live data st → success st = true → s ∈ slots st →
  ∃ v, expectedId s = Some v ∧ holds v s.
Proof.
  intros Hr Hs Hin.
  destruct (reachable_success_correct data st Hr Hs) as [_ Hc].
  destruct (reachable_frame data st Hr) as (sl0 & low & Hsl & _ & Hfr).
  rewrite allCorrect_spec in Hc. specialize (Hc s Hin).
  apply list_elem_of_lookup in Hin as [k Hk].
  assert (∃ s0, sl0 !! k = Some s0 ∧ expectedId s = expectedId s0)
    as (s0 & Hk0 & He).
  { apply (f_equal (λ l, l !! k)) in Hfr.
    rewrite !list_lookup_fmap, Hk in Hfr. simpl in Hfr.
    destruct (sl0 !! k) as [s0|]; [|done].
    exists s0. split; [done|]. simpl in Hfr. injection Hfr. congruence. }
  apply list_elem_of_lookup_2 in Hk0.
  destruct (newSlots_slot_shape data sl0 s0 Hsl Hk0) as (_ & Ht & _).
  rewrite <- He in Ht. destruct (expectedId s) as [v|] eqn:Ev; [|done].
  exists v. split; [done|]. split; [done|].
  intros ->. done.
Qed.

(** X11. When two slots of the layout expect the same id (a character
    and a taxon of the payload share an id, or an id occurs twice in the
    evolution order), the builder can reach no state with success: the tree
    cannot be completed. *)
Theorem shared_expected_id_blocks_success data sl0 (i j : nat) s1 s2 st :
  newSlots data = Some sl0 →
  sl0 !! i = Some s1 → sl0 !! j = Some s2 → i ≠ j →
  expectedId s1 = expectedId s2 →
  reachable data st → success st = false.
Proof.
  intros Hsl Hi Hj Hne He [->|Hr]; [done|].
  destruct (success st) eqn:Es; [exfalso|done].
  destruct (reachable_frame data st Hr) as (sl0' & low & Hsl' & _ & Hfr).
  assert (sl0' = sl0) as -> by congruence.
  destruct (frame_lookup data st sl0 low i s1 Hfr Hi) as (s1' & Hi' & F1).
  destruct (frame_lookup data st sl0 low j s2 Hfr Hj) as (s2' & Hj' & F2).
  assert (expectedId s1' = expectedId s1) as E1 by (injection F1; congruence).
  assert (expectedId s2' = expectedId s2) as E2 by (injection F2; congruence).
  destruct (success_slot_holds data st s1' Hr Es) as (v1 & Hv1 & Hh1);
    [by eapply list_elem_of_lookup_2|].
  destruct (success_slot_holds data st s2' Hr Es) as (v2 & Hv2 & Hh2);
    [by eapply list_elem_of_lookup_2|].
  assert (v1 = v2) as -> by congruence.
  destruct (reachable_invariant data st Hr) as [Hone _].
  apply Hne. exact (Hone i j s1' s2' v2 Hi' Hj' Hh1 Hh2).
Qed.

End tree_collisions.

Section tree_collisions_witness.
Import TreeExercise TreeView.

Lemma sharedIdCharacterPlaced_live :
  live Sessions.sharedIdData Sessions.sharedIdCharacterPlaced.
Proof.
  apply (slot_click_reachable _
           (handleItemClick "1" attribute Sessions.sharedIdStart) 0%nat);
    [|vm_compute; reflexivity].
  apply (item_click_reachable _ Sessions.sharedIdStart
           (ItemCharacter (Character.mk "1" "Plumes"
                             "Phanères spécifiques aux oiseaux")) attribute);
    [|apply list_elem_of_In; vm_compute; auto].
  apply reach_layout. vm_compute; reflexivity.
Qed.

Lemma sharedIdCharacterPlaced_reachable : reachable Sessions.sharedIdData Sessions.sharedIdCharacterPlaced.
Proof. right. exact sharedIdCharacterPlaced_live. Qed.

Lemma shared_expected_id_blocks_success_witness :
  newSlots Sessions.sharedIdData = Some Sessions.sharedIdSlots
  ∧ expectedId <$> (Sessions.sharedIdSlots !! 0%nat)
    = expectedId <$> (Sessions.sharedIdSlots !! 1%nat)
  ∧ reachable Sessions.sharedIdData Sessions.sharedIdCharacterPlaced
  ∧ success Sessions.sharedIdCharacterPlaced = false.
Proof.
  assert (newSlots Sessions.sharedIdData = Some Sessions.sharedIdSlots) as Hsl
    by (vm_compute; reflexivity).
  assert (expectedId <$> (Sessions.sharedIdSlots !! 0%nat)
          = expectedId <$> (Sessions.sharedIdSlots !! 1%nat)) as He
    by (vm_compute; reflexivity).
  split; [exact Hsl|]. split; [exact He|].
  split; [exact sharedIdCharacterPlaced_reachable|].
  destruct (Sessions.sharedIdSlots !! 0%nat) as [s1|] eqn:E1;
    [|exfalso; vm_compute in E1; discriminate].
  destruct (Sessions.sharedIdSlots !! 1%nat) as [s2|] eqn:E2;
    [|exfalso; vm_compute in E2; discriminate].
  simpl in He.
  apply (shared_expected_id_blocks_success Sessions.sharedIdData
           Sessions.sharedIdSlots 0 1 s1 s2 Sessions.sharedIdCharacterPlaced
           Hsl E1 E2).
  - lia.
  - congruence.
  - exact sharedIdCharacterPlaced_reachable.
Defined.

End tree_collisions_witness.

Section tree_mistakes.
Import TreeExercise TreeView.

Implicit Types (sl : list Slot) (st : State) (data : ExerciseData).

Lemma forallb_false_elem {A} (f : A → bool) (l : list A) :
  forallb f l = false → ∃ a, a ∈ l ∧ f a = false.
Proof.
  induction l as [|a l IH]; simpl; [done|].
  destruct (f a) eqn:Ea; simpl.
  - intros (b & Hb & Hfb)%IH. exists b. split; [by apply list_elem_of_further|done].
  - intros _. exists a. split; [apply list_elem_of_here|done].
Qed.

(** What one step of the builder does to the counter, the alerts raised
    and the alerts scheduled. *)
Lemma step_verdict data st st' :
  step data st st' →
  (mistakes st' = mistakes st ∧ alerts st' = alerts st
   ∧ timers st' = timers st)
  ∨ (mistakes st' = S (mistakes st) ∧ alerts st' = alerts st
     ∧ timers st' = (timers st ++ [incorrectAlert])%list
     ∧ success st' = false
     ∧ allFilled (slots st') = true ∧ allCorrect (slots st') = false)
  ∨ (mistakes st' = mistakes st
     ∧ (∃ message, timers st = message :: timers st'
                   ∧ alerts st' = message :: alerts st)
     ∧ slots st' = slots st ∧ success st' = success st).
Proof.
  intros [st0 it ty Hit|st0 slot Hslot|st0 Hsucc|st0 Htimer].
  - left. unfold handleItemClick. by destruct (success st0).
  - pose proof (handleSlotClick_verdict st0 (id slot)) as Hv. simpl in Hv.
    destruct Hv as [(_ & ? & ? & ?)|[(_ & _ & _ & _ & ? & ? & ?)
                                    |(_ & ? & ? & ? & ? & ? & ?)]];
      [by left|by left|right; left; by split_and!].
  - left. by destruct (fossilEffect_verdict data st0) as (_ & ? & [? ?] & _).
  - right; right. unfold alertTimer.
    destruct (timers st0) as [|message rest]; [done|]. simpl.
    split_and!; [done| |done..]. by exists message.
Qed.

(** X12. The error counter of the tree builder counts the alerts, those
    raised and those still scheduled: in every state the builder renders,
    each of them is the 'complete but incorrect' message and together they
    are as many as [mistakes].  One step leaves the counter, the alerts
    raised and the alerts scheduled as they are; or it adds one to the
    counter and schedules one alert, which it does only by producing a tree
    in which every slot is filled and some slot holds something other than
    what it expects, with success not declared; or, a scheduled alert
    coming due, it raises the oldest one and leaves the counter, the slots
    and success alone. *)
Theorem mistakes_count_complete_wrong_trees data st st' :
  reachable data st → step data st st' →
  ((∀ message, message ∈ (alerts st ++ timers st)%list →
               message = incorrectAlert)
   ∧ mistakes st = (length (alerts st) + length (timers st))%nat)
  ∧ ((mistakes st' = mistakes st ∧ alerts st' = alerts st
      ∧ timers st' = timers st)
     ∨ (mistakes st' = S (mistakes st) ∧ alerts st' = alerts st
        ∧ timers st' = (timers st ++ [incorrectAlert])%list
        ∧ success st' = false
        ∧ (∀ s, s ∈ slots st' → filledWithId s ≠ None)
        ∧ ∃ s, s ∈ slots st' ∧ filledWithId s ≠ expectedId s)
     ∨ (mistakes st' = mistakes st
        ∧ (∃ message, timers st = message :: timers st'
                      ∧ alerts st' = message :: alerts st)
        ∧ slots st' = slots st ∧ success st' = success st)).
Proof.
  intros Hr Hstep. split.
  - clear Hstep st'. destruct Hr as [->|Hr].
    { split; [by intros message ?%elem_of_nil|done]. }
    induction Hr as [st0 Hl|st st' Hr [IHm IHn] Hstep].
    + unfold layoutEffect in Hl. destruct (newSlots data); [|done].
      simpl in Hl. injection Hl as <-. simpl.
      split; [by intros message ?%elem_of_nil|done].
    + destruct (step_verdict data st st' Hstep)
        as [(-> & -> & ->)|[(-> & -> & -> & _)
                           |(-> & (message & Et & ->) & _)]]; [done| |].
      * split.
        -- intros message Hin. rewrite app_assoc in Hin.
           apply elem_of_app in Hin as [Hin|Hin]; [by apply IHm|].
           by apply list_elem_of_singleton in Hin.
        -- rewrite length_app. simpl. lia.
      * rewrite Et in IHm, IHn. split.
        -- intros m Hin. apply IHm.
           apply elem_of_app. apply elem_of_app in Hin as [Hin|Hin].
           ++ apply elem_of_cons in Hin as [->|Hin]; [|by left].
              right. apply list_elem_of_here.
           ++ right. by apply list_elem_of_further.
        -- simpl in *. lia.
  - destruct (step_verdict data st st' Hstep)
      as [?|[(? & ? & ? & ? & Hf & Hc)|?]];
      [by left| |by right; right].
    right; left. split_and!; [done..| |].
    + by apply allFilled_spec.
    + apply forallb_false_elem in Hc as (s & Hs & Hc).
      exists s. split; [done|]. by apply bool_decide_eq_false in Hc.
Qed.

Lemma wronglyCompleted_step :
  step Sessions.fossilData Sessions.wrongTaxonSelected Sessions.wronglyCompleted.
Proof.
  destruct (slots Sessions.wrongTaxonSelected !! 1%nat) as [slot|] eqn:E;
    [|exfalso; vm_compute in E; discriminate].
  assert (id slot = "taxon-0") as Hid.
  { assert (id <$> (slots Sessions.wrongTaxonSelected !! 1%nat) = Some "taxon-0")
      as H by (vm_compute; reflexivity).
    rewrite E in H. simpl in H. congruence. }
  assert (Sessions.wronglyCompleted
          = handleSlotClick "taxon-0" Sessions.wrongTaxonSelected) as ->
    by (vm_compute; reflexivity).
  rewrite <- Hid. apply step_slot. by eapply list_elem_of_lookup_2.
Qed.

Lemma mistakes_count_complete_wrong_trees_witness :
  let st := Sessions.wrongTaxonSelected in
  let st' := Sessions.wronglyCompleted in
  reachable Sessions.fossilData st
  ∧ step Sessions.fossilData st st'
  ∧ mistakes st = 0%nat ∧ mistakes st' = 1%nat
  ∧ alerts st' = [] ∧ timers st' = [incorrectAlert]
  ∧ alerts (alertTimer st') = [incorrectAlert]
  ∧ ((∀ message, message ∈ (alerts st ++ timers st)%list →
                 message = incorrectAlert)
     ∧ mistakes st = (length (alerts st) + length (timers st))%nat)
  ∧ ((mistakes st' = mistakes st ∧ alerts st' = alerts st
      ∧ timers st' = timers st)
     ∨ (mistakes st' = S (mistakes st) ∧ alerts st' = alerts st
        ∧ timers st' = (timers st ++ [incorrectAlert])%list
        ∧ success st' = false
        ∧ (∀ s, s ∈ slots st' → filledWithId s ≠ None)
        ∧ ∃ s, s ∈ slots st' ∧ filledWithId s ≠ expectedId s)
     ∨ (mistakes st' = mistakes st
        ∧ (∃ message, timers st = message :: timers st'
                      ∧ alerts st' = message :: alerts st)
        ∧ slots st' = slots st ∧ success st' = success st)).
Proof.
  intros st st'.
  split; [exact wrongTaxonSelected_reachable|].
  split; [exact wronglyCompleted_step|].
  split; [vm_compute; reflexivity|]. split; [vm_compute; reflexivity|].
  split; [vm_compute; reflexivity|]. split; [vm_compute; reflexivity|].
  split; [vm_compute; reflexivity|].
  exact (mistakes_count_complete_wrong_trees Sessions.fossilData st st'
           wrongTaxonSelected_reachable wronglyCompleted_step).
Defined.

End tree_mistakes.

Section tree_rendering.
Import TreeExercise TreeView.

Implicit Types (sl : list Slot) (st : State) (data : ExerciseData).

Lemma available_in_payload data st ty it :
  it ∈ getAvailableItems data st ty → inPayload data it ∧ itemType it = ty.
Proof.
  unfold getAvailableItems. destruct ty.
  - intros (c & -> & Hc)%list_elem_of_fmap.
    apply list_elem_of_filter in Hc as [_ Hc]. done.
  - intros (t & -> & Ht)%list_elem_of_fmap.
    apply list_elem_of_filter in Ht as [_ Ht]. done.
Qed.

Lemma handleSlotClick_selected st slotId :
  selectedItemId (handleSlotClick slotId st) = selectedItemId st
  ∨ selectedItemId (handleSlotClick slotId st) = None.
Proof.
  unfold handleSlotClick. destruct (success st); [by left|].
  destruct (list_find _ _) as [[k slot]|]; [|by left].
  destruct (truthy_opt (filledWithId slot)); [by left|].
  destruct (selectedItemId st) as [[sel ty]|] eqn:Hs; [|by left].
  case_bool_decide; [|by left].
  right. unfold checkCompletion.
  destruct (allFilled _); [destruct (allCorrect _)|]; reflexivity.
Qed.

Lemma reachable_itemsKnown data st : live data st → itemsKnown data st.
Proof.
  induction 1 as [st0 Hl|st st' Hr [Hsel Hfill] Hstep].
  - unfold layoutEffect in Hl. destruct (newSlots data) as [sl|] eqn:E; [|done].
    simpl in Hl. injection Hl as <-. split; simpl; [done|].
    intros s v Hs Hv. by rewrite (newSlots_empty _ _ _ E Hs) in Hv.
  - destruct Hstep as [st it ty Hit|st slot Hslot|st Hsucc|st Htimer].
    + apply available_in_payload in Hit as [Hin Hty].
      unfold handleItemClick. destruct (success st); [done|].
      split; simpl; [|done].
      intros sel ty' Hs.
      assert (Some (sel, ty') = Some (itemId it, ty)) as [= -> ->]; [|by exists it].
      destruct (selectedItemId st) as [[sel0 ty0]|]; [|done].
      by case_bool_decide.
    + split.
      * intros sel ty Hs.
        destruct (handleSlotClick_selected st (id slot)) as [E|E];
          rewrite E in Hs; [by apply Hsel|done].
      * intros s' v (k & Hk)%list_elem_of_lookup Hv.
        apply handleSlotClick_lookup in Hk
          as (s & Hk & Hty & [E|[E|(_ & sel & E & Hs)]]).
        -- rewrite Hty. apply Hfill; [by eapply list_elem_of_lookup_2|congruence].
        -- congruence.
        -- rewrite Hty. assert (sel = v) as -> by congruence. by apply Hsel.
    + split.
      * intros sel ty Hs. apply Hsel.
        destruct (fossilEffect_verdict data st) as (_ & _ & _ & <- & _). done.
      * intros s v (k & Hk)%list_elem_of_lookup Hv.
        apply fossilEffect_lookup in Hk as (s1 & Hk & E1 & E2).
        destruct E2 as (Eid & Ety & _).
        rewrite Ety. apply Hfill; [by eapply list_elem_of_lookup_2|congruence].
    + destruct (alertTimer_frame st) as (Es & Esel & _).
      split.
      * intros sel ty Hs. apply Hsel. by rewrite <- Esel.
      * intros s v Hs Hv. apply (Hfill s v); [by rewrite <- Es|done].
Qed.

End tree_rendering.

Section tree_rendering_theorems.
Import TreeExercise TreeView.

Implicit Types (sl : list Slot) (st : State) (data : ExerciseData).

Lemma find_by_id {A} (key : A → string) (l : list A) (a : A) v :
  a ∈ l → key a = v →
  ∃ b, snd <$> list_find (λ c, Some (key c) = Some v) l = Some b
       ∧ b ∈ l ∧ key b = v.
Proof.
  intros Ha Hk.
  destruct (list_find (λ c, Some (key c) = Some v) l) as [[i b]|] eqn:E.
  - apply list_find_Some in E as (Hi & Hb & _).
    exists b. split; [done|]. split; [by eapply list_elem_of_lookup_2|congruence].
  - exfalso. eapply list_find_None in E.
    rewrite Forall_forall in E. apply (E a Ha). congruence.
Qed.

(** X13. In every state the builder can reach, a slot that holds a
    non-empty id is drawn with an item: the lookup of the rendering finds an
    item of the payload with that id, a taxon for a taxon slot and a
    character for an attribute slot. No filled slot is drawn as an empty
    one. *)
Theorem filled_slot_is_drawn_with_its_item data st s v :
  reachable data st → s ∈ slots st → holds v s →
  ∃ it, filledItem data s = Some it
        ∧ itemId it = v ∧ itemType it = type s ∧ inPayload data it.
Proof.
  intros [->|Hr] Hs [Hv Hne]; [by apply elem_of_nil in Hs|].
  destruct (reachable_itemsKnown data st Hr) as [_ Hfill].
  destruct (Hfill s v Hs Hv) as (it0 & Hin & Hid & Hty).
  unfold filledItem. rewrite Hv. simpl. unfold truthy.
  rewrite bool_decide_eq_true_2 by done.
  rewrite <- Hty. destruct it0 as [t|c]; simpl in *.
  - destruct (find_by_id Taxon.id (taxons data) t v Hin Hid) as (b & -> & ? & ?).
    by exists (ItemTaxon b).
  - destruct (find_by_id Character.id (characters data) c v Hin Hid)
      as (b & -> & ? & ?).
    by exists (ItemCharacter b).
Qed.

Lemma wrongCharacterPlaced_live :
  live Sessions.fossilData Sessions.wrongCharacterPlaced.
Proof.
  apply (slot_click_reachable _ Sessions.wrongCharacterSelected 0%nat);
    [|vm_compute; reflexivity].
  apply (item_click_reachable _ Sessions.fossilStart
           (ItemCharacter Sessions.poils) attribute);
    [|apply list_elem_of_In; vm_compute; auto].
  apply reach_layout, fossilStart_layout.
Qed.

Lemma wrongCharacterPlaced_reachable : reachable Sessions.fossilData Sessions.wrongCharacterPlaced.
Proof. right. exact wrongCharacterPlaced_live. Qed.

Lemma filled_slot_is_drawn_with_its_item_witness :
  ∃ s, slots Sessions.wrongCharacterPlaced !! 0%nat = Some s
       ∧ holds "c2" s
       ∧ ∃ it, filledItem Sessions.fossilData s = Some it
               ∧ itemId it = "c2" ∧ itemType it = type s
               ∧ inPayload Sessions.fossilData it.
Proof.
  destruct (slots Sessions.wrongCharacterPlaced !! 0%nat) as [s|] eqn:Hs;
    [|exfalso; vm_compute in Hs; discriminate].
  exists s. split; [reflexivity|].
  assert (holds "c2" s) as Hh.
  { assert (filledWithId <$> (slots Sessions.wrongCharacterPlaced !! 0%nat)
            = Some (Some "c2")) as H by (vm_compute; reflexivity).
    rewrite Hs in H. simpl in H. split; [congruence|discriminate]. }
  split; [exact Hh|].
  apply (filled_slot_is_drawn_with_its_item Sessions.fossilData
           Sessions.wrongCharacterPlaced s "c2"
           wrongCharacterPlaced_reachable).
  - by eapply list_elem_of_lookup_2.
  - exact Hh.
Defined.

End tree_rendering_theorems.

Section tree_inventory_witness.
Import TreeExercise TreeView.

Lemma tree_builder_places_nonempty_ids_once_witness :
  reachable Sessions.fossilData Sessions.wrongCharacterPlaced
  ∧ success Sessions.wrongCharacterPlaced = false
  ∧ ∃ slot,
      slots Sessions.wrongCharacterPlaced !! 0%nat = Some slot
      ∧ holds "c2" slot
      ∧ atMostOneSlotPerId (slots Sessions.wrongCharacterPlaced)
      ∧ (∀ ty it,
           it ∈ getAvailableItems Sessions.fossilData
                  Sessions.wrongCharacterPlaced ty →
           ¬ holds (itemId it) slot)
      ∧ let st' := slotClicked Sessions.fossilData (id slot)
                     Sessions.wrongCharacterPlaced in
        slots st'
        = <[0%nat := setFilled slot None]> (slots Sessions.wrongCharacterPlaced)
        ∧ ("c2" ∉ placedIds (slots st'))
        ∧ ItemCharacter Sessions.poils
          ∈ getAvailableItems Sessions.fossilData st' attribute.
Proof.
  split; [exact wrongCharacterPlaced_reachable|].
  split; [vm_compute; reflexivity|].
  destruct (slots Sessions.wrongCharacterPlaced !! 0%nat) as [slot|] eqn:Hs;
    [|exfalso; vm_compute in Hs; discriminate].
  exists slot. split; [reflexivity|].
  assert (holds "c2" slot) as Hh.
  { assert (filledWithId <$> (slots Sessions.wrongCharacterPlaced !! 0%nat)
            = Some (Some "c2")) as H by (vm_compute; reflexivity).
    rewrite Hs in H. simpl in H. split; [congruence|discriminate]. }
  split; [exact Hh|].
  destruct (tree_builder_places_nonempty_ids_once Sessions.fossilData
              Sessions.wrongCharacterPlaced wrongCharacterPlaced_reachable)
    as (Hone & Havail & _ & Hclear).
  split; [exact Hone|]. split.
  - intros ty it Hit. apply (Havail ty it Hit).
    by eapply list_elem_of_lookup_2.
  - destruct (Hclear 0%nat slot "c2" Hs) as (Hsl & Hfree & _ & Hc);
      [vm_compute; reflexivity|exact Hh|].
    split; [exact Hsl|]. split; [exact Hfree|].
    apply Hc; [|reflexivity].
    apply list_elem_of_In. vm_compute. auto.
Defined.

End tree_inventory_witness.

Section tree_branches.
Import TreeExercise TreeView.

Implicit Types (sl : list Slot) (st : State) (data : ExerciseData).

Local Open Scope Qc_scope.

(** The taxon slot the layout effect creates for step [i]. *)
Lemma newSlots_taxon_slot data (i : nat) step :
  evolutionOrder data !! i = Some step →
  truthy_opt (branchingTaxonId step) = true →
  ∃ sl slot,
    newSlots data = Some sl ∧ slot ∈ sl
    ∧ id slot = "taxon-" +:+ pretty i
    ∧ type slot = taxon
    ∧ expectedId slot = branchingTaxonId step
    ∧ x slot = START_X + idx i * STEP_X
    ∧ y slot = TAXON_TOP_Y.
Proof.
  intros Hi Htruthy.
  assert (Hn : (1 <= length (evolutionOrder data))%nat).
  { apply lookup_lt_Some in Hi. lia. }
  destruct (newSlots_defined data) as [sl Hsl].
  { intros E. rewrite E in Hn. simpl in Hn. lia. }
  exists sl. pose proof Hsl as Hsl0.
  unfold newSlots in Hsl. rewrite (effectTrunkTipX_eq data Hn) in Hsl.
  simpl in Hsl.
  destruct (mapM _ _) as [outs|] eqn:E; [|done]. simpl in Hsl.
  injection Hsl as <-. apply mapM_Some_1 in E.
  assert (Hpair : imap pair (evolutionOrder data) !! i = Some (i, step)).
  { by rewrite list_lookup_imap, Hi. }
  destruct (Forall2_lookup_l _ _ _ _ _ E Hpair) as (out & Hout & Hstep).
  simpl in Hstep. unfold stepSlots in Hstep.
  assert (taxonPositions data !! i
          = Some {| px := START_X + idx i * STEP_X; py := TAXON_TOP_Y |}) as Hpos.
  { unfold taxonPositions. by rewrite list_lookup_imap, Hi. }
  rewrite Hpos in Hstep. simpl in Hstep. rewrite Htruthy in Hstep.
  injection Hstep as <-.
  match type of Hout with _ = Some (_ ++ [?s])%list => exists s end.
  split; [done|]. split; [|by split_and!].
  apply list_elem_of_join. eexists. split; [|by eapply list_elem_of_lookup_2].
  apply elem_of_app. right. apply list_elem_of_here.
Qed.

(** X14. In every state the builder renders once its layout effect has
    run, every evolution step that names a taxon has its taxon slot, and the
    branch drawn for the step ends below the middle of the box of that
    slot, at height 252 for a fossil taxon under success and at 152
    otherwise.  The bottom edge of the box is at the height of that end in
    every such state but one kind: where success is declared and the taxon
    is a fossil, the box may still stand with its bottom edge at 152, 100
    above the end of its branch, which is the render between the
    declaration of success and the fossil effect.  The fossil effect puts
    the bottom edge at the end of the branch.  In the render before the
    layout effect there is no slot at all. *)
Theorem branch_ends_at_foot_of_taxon_card data st (i : nat) step :
  live data st →
  evolutionOrder data !! i = Some step →
  truthy_opt (branchingTaxonId step) = true →
  slots mount = []
  ∧ ∃ s seg,
      s ∈ slots st
      ∧ id s = "taxon-" +:+ pretty i
      ∧ expectedId s = branchingTaxonId step
      ∧ (getGeometry data (success st)).1 !! i = Some seg
      ∧ px (cardFoot s) = taxonTargetX seg
      ∧ taxonTargetY seg
        = (if success st && isFossilId data (branchingTaxonId step)
           then num 252 else num 152)
      ∧ (py (cardFoot s) = taxonTargetY seg
         ∨ (success st = true
            ∧ isFossilId data (branchingTaxonId step) = true
            ∧ py (cardFoot s) = num 152))
      ∧ ∃ s', s' ∈ slots (fossilEffect data st)
              ∧ id s' = id s
              ∧ cardFoot s'
                = {| px := taxonTargetX seg; py := taxonTargetY seg |}.
Proof.
  intros Hr Hi Ht. split; [done|].
  destruct (newSlots_taxon_slot data i step Hi Ht)
    as (sl & s0 & Hsl & Hs0 & Hid & Hty & He & Hx & Hy).
  destruct (reachable_frame data st Hr) as (sl0 & low & Hsl0 & Hlow & Hfr).
  assert (sl0 = sl) as -> by congruence.
  apply list_elem_of_lookup in Hs0 as [k Hk].
  destruct (frame_lookup data st sl low k s0 Hfr Hk) as (s & Hks & F).
  unfold frame, frameAt, lowered in F. injection F as Fid Fty Fx Fy Fe.
  rewrite Hty, He, Ht in Fy. rewrite bool_decide_eq_true_2 in Fy by done.
  simpl in Fy.
  assert (∃ s', slots (fossilEffect data st) !! k = Some s'
                ∧ id s' = id s ∧ x s' = x s
                ∧ y s' = if success st && isFossilId data (branchingTaxonId step)
                         then TAXON_TOP_Y + FOSSIL_OFFSET_Y else y s)
    as (s' & Hks' & Hid' & Hx' & Hy').
  { unfold fossilEffect. destruct (success st) eqn:Es.
    - simpl. rewrite list_lookup_fmap, Hks. simpl. eexists. split; [done|].
      rewrite Fty, Fe, Hty, He, Ht. rewrite bool_decide_eq_true_2 by done.
      simpl. by destruct (isFossilId data (branchingTaxonId step)).
    - simpl. by exists s. }
  exists s, (segment data (success st) (length (evolutionOrder data)) i step).
  split; [by eapply list_elem_of_lookup_2|].
  split; [congruence|]. split; [congruence|].
  split; [simpl; by rewrite list_lookup_imap, Hi|].
  split; [unfold cardFoot, segment; simpl; rewrite Fx, Hx; ring|].
  assert (num 152 = TAXON_TOP_Y + TAXON_H) as E152
    by (unfold TAXON_TOP_Y, TAXON_H; rewrite <- num_add; reflexivity).
  assert (num 252 = TAXON_TOP_Y + FOSSIL_OFFSET_Y + TAXON_H) as E252
    by (unfold TAXON_TOP_Y, TAXON_H, FOSSIL_OFFSET_Y;
        rewrite <- !num_add; reflexivity).
  assert (taxonTargetY
            (segment data (success st) (length (evolutionOrder data)) i step)
          = if success st && isFossilId data (branchingTaxonId step)
            then num 252 else num 152) as Ety.
  { unfold segment. simpl. rewrite E152, E252.
    destruct (success st && isFossilId data (branchingTaxonId step));
      [ring|reflexivity]. }
  split; [exact Ety|].
  split.
  - rewrite Ety. unfold cardFoot. simpl. rewrite Fy, Hy.
    destruct low.
    + rewrite (Hlow eq_refl). simpl. left.
      destruct (isFossilId data (branchingTaxonId step)); by rewrite ?E152, ?E252.
    + simpl. destruct (success st) eqn:Es; simpl; [|by left].
      destruct (isFossilId data (branchingTaxonId step)); [|by left].
      right. by rewrite E152.
  - exists s'. split; [by eapply list_elem_of_lookup_2|]. split; [done|].
    rewrite Ety. unfold cardFoot, segment. simpl.
    rewrite Hx', Hy', Fx, Fy, Hx, Hy. f_equal.
    destruct low.
    + rewrite (Hlow eq_refl). simpl.
      destruct (isFossilId data (branchingTaxonId step)); by rewrite ?E152, ?E252.
    + simpl.
      destruct (success st && isFossilId data (branchingTaxonId step));
        by rewrite ?E152, ?E252.
Qed.

Lemma successDeclared_live :
  live Sessions.fossilData Sessions.successDeclared.
Proof.
  destruct (slots Sessions.rightTaxonSelected !! 1%nat) as [slot|] eqn:E;
    [|exfalso; vm_compute in E; discriminate].
  assert (id slot = "taxon-0") as Hid.
  { assert (id <$> (slots Sessions.rightTaxonSelected !! 1%nat) = Some "taxon-0")
      as H by (vm_compute; reflexivity).
    rewrite E in H. simpl in H. congruence. }
  unfold Sessions.successDeclared. rewrite <- Hid.
  eapply reach_step; [|apply step_slot; by eapply list_elem_of_lookup_2].
  apply (item_click_reachable _ Sessions.rightCharacterPlaced
           (ItemTaxon Sessions.archaeopteryx) taxon);
    [|apply list_elem_of_In; vm_compute; auto].
  apply (slot_click_reachable _ Sessions.rightCharacterSelected 0%nat);
    [|vm_compute; reflexivity].
  apply (item_click_reachable _ Sessions.fossilStart
           (ItemCharacter Sessions.plumes) attribute);
    [|apply list_elem_of_In; vm_compute; auto].
  apply reach_layout, fossilStart_layout.
Qed.

(** The render between the declaration of success and the fossil effect:
    the card of the fossil still at the top, its branch already lowered. *)
Lemma successDeclared_card_above_branch :
  success Sessions.successDeclared = true
  ∧ (py ∘ cardFoot <$> slots Sessions.successDeclared) !! 1%nat
    = Some (num 152)
  ∧ (taxonTargetY <$> (getGeometry Sessions.fossilData true).1) !! 0%nat
    = Some (num 252)
  ∧ fossilEffect Sessions.fossilData Sessions.successDeclared = Sessions.solved
  ∧ (py ∘ cardFoot <$> slots Sessions.solved) !! 1%nat = Some (num 252).
Proof. split_and!; vm_compute; reflexivity. Qed.

Lemma branch_ends_at_foot_of_taxon_card_witness :
  live Sessions.fossilData Sessions.successDeclared
  ∧ success Sessions.successDeclared
    && isFossilId Sessions.fossilData (Some "t1") = true
  ∧ slots mount = []
  ∧ ∃ s seg,
      s ∈ slots Sessions.successDeclared
      ∧ id s = "taxon-" +:+ pretty 0%nat
      ∧ expectedId s = Some "t1"
      ∧ (getGeometry Sessions.fossilData
           (success Sessions.successDeclared)).1 !! 0%nat = Some seg
      ∧ px (cardFoot s) = taxonTargetX seg
      ∧ taxonTargetY seg
        = (if success Sessions.successDeclared
              && isFossilId Sessions.fossilData (Some "t1")
           then num 252 else num 152)
      ∧ (py (cardFoot s) = taxonTargetY seg
         ∨ (success Sessions.successDeclared = true
            ∧ isFossilId Sessions.fossilData (Some "t1") = true
            ∧ py (cardFoot s) = num 152))
      ∧ ∃ s', s' ∈ slots (fossilEffect Sessions.fossilData
                            Sessions.successDeclared)
              ∧ id s' = id s
              ∧ cardFoot s'
                = {| px := taxonTargetX seg; py := taxonTargetY seg |}.
Proof.
  split; [exact successDeclared_live|].
  split; [vm_compute; reflexivity|].
  apply (branch_ends_at_foot_of_taxon_card Sessions.fossilData
           Sessions.successDeclared 0 (mkStep (Some "c1") (Some "t1"))
           successDeclared_live).
  - reflexivity.
  - vm_compute; reflexivity.
Defined.

End tree_branches.

Section tree_solvable.
Import TreeExercise TreeView.

Implicit Types (sl : list Slot) (st : State) (data : ExerciseData).

Lemma available_intro data st ty it :
  inPayload data it → itemType it = ty → itemId it ∉ placedIds (slots st) →
  it ∈ getAvailableItems data st ty.
Proof.
  intros Hin <- Hnp. destruct it as [t|c]; simpl in *.
  - apply list_elem_of_fmap. exists t. split; [done|]. by apply list_elem_of_filter.
  - apply list_elem_of_fmap. exists c. split; [done|]. by apply list_elem_of_filter.
Qed.

Lemma fossilEffect_length data st :
  length (slots (fossilEffect data st)) = length (slots st).
Proof. unfold fossilEffect. destruct (success st); simpl; by rewrite ?length_fmap. Qed.

Lemma reachable_length data st sl0 :
  live data st → newSlots data = Some sl0 →
  length (slots st) = length sl0.
Proof.
  intros Hr Hsl.
  destruct (reachable_frame data st Hr) as (sl & low & Hsl' & _ & Hfr).
  assert (sl = sl0) as -> by congruence.
  apply (f_equal length) in Hfr. by rewrite !length_fmap in Hfr.
Qed.

Lemma reachable_slot_of_layout data st sl0 (j : nat) s :
  live data st → newSlots data = Some sl0 → slots st !! j = Some s →
  ∃ s0, sl0 !! j = Some s0 ∧ id s = id s0 ∧ type s = type s0
        ∧ expectedId s = expectedId s0 ∧ expectedId s ≠ None.
Proof.
  intros Hr Hsl Hj.
  destruct (reachable_frame data st Hr) as (sl & low & Hsl' & _ & Hfr).
  assert (sl = sl0) as -> by congruence.
  apply (f_equal (λ l, l !! j)) in Hfr.
  rewrite !list_lookup_fmap, Hj in Hfr. simpl in Hfr.
  destruct (sl0 !! j) as [s0|] eqn:E0; [|done].
  exists s0. simpl in Hfr. injection Hfr as Hid Hty _ _ He.
  split_and!; [done..|].
  destruct (newSlots_slot_shape data sl0 s0 Hsl) as (_ & Ht & _);
    [by eapply list_elem_of_lookup_2|].
  rewrite He. by destruct (expectedId s0).
Qed.

End tree_solvable.

Section tree_solvable_steps.
Import TreeExercise TreeView.

Implicit Types (sl : list Slot) (st : State) (data : ExerciseData).

Variables (data : ExerciseData) (sl0 : list Slot).
Hypothesis Hsl : newSlots data = Some sl0.
Hypothesis Hposed : wellPosed data sl0.

(** One more slot served. *)
Lemma place_progress (k : nat) st s0 :
  placedUpTo data k st → sl0 !! k = Some s0 →
  placedUpTo data (S k) (place data st s0).
Proof.
  destruct Hposed as (_ & Hnd & Hpay).
  intros (Hr & Hsel & Hm & Ha & Hfill & Hsucc) Hk.
  pose proof (reachable_length data st sl0 Hr Hsl) as Hlen.
  assert (Hkn : (k < length sl0)%nat) by (by eapply lookup_lt_Some).
  assert (Es : success st = false).
  { rewrite Hsucc. apply bool_decide_eq_false_2. lia. }
  destruct (lookup_lt_is_Some_2 (slots st) k) as [s Hs]; [lia|].
  destruct (reachable_slot_of_layout data st sl0 k s Hr Hsl Hs)
    as (s0' & Hk' & Hid & Hty & He & _).
  assert (s0' = s0) as -> by congruence.
  destruct (Hpay s0) as (it & Hin & Hit & Hity); [by eapply list_elem_of_lookup_2|].
  destruct (newSlots_slot_shape data sl0 s0 Hsl) as (_ & Ht & _);
    [by eapply list_elem_of_lookup_2|].
  unfold place. destruct (expectedId s0) as [v|] eqn:Ev; [|done].
  assert (Hitv : itemId it = v) by congruence.
  assert (Hfree : v ∉ placedIds (slots st)).
  { intros (s' & Hs' & Hv' & _)%placedIds_holds.
    apply list_elem_of_lookup in Hs' as [j Hj].
    pose proof (Hfill j s' Hj) as Hf.
    destruct (decide (j < k)%nat) as [Hjk|]; [|congruence].
    destruct (reachable_slot_of_layout data st sl0 j s' Hr Hsl Hj)
      as (sj & Hsj & _ & _ & Hej & _).
    assert (j = k); [|lia].
    eapply (NoDup_lookup _ _ _ (Some v) Hnd); rewrite list_lookup_fmap.
    - rewrite Hsj. simpl. congruence.
    - rewrite Hk. simpl. congruence. }
  set (st1 := handleItemClick v (type s0) st).
  assert (Hst1 : st1 = {| slots := slots st;
                          selectedItemId := Some (v, type s0);
                          success := false; mistakes := mistakes st;
                          alerts := alerts st; timers := timers st |}).
  { unfold st1, handleItemClick. by rewrite Es, Hsel. }
  assert (Hr1 : live data st1).
  { unfold st1. rewrite <- Hitv. apply item_click_reachable; [done|].
    apply available_intro; [done|done|by rewrite Hitv]. }
  assert (Hr2 : live data (slotClicked data (id s0) st1)).
  { apply (slot_click_reachable _ _ k); [done|].
    rewrite Hst1. simpl. rewrite Hs. simpl. by rewrite Hid. }
  set (new := <[k := setFilled s (Some v)]> (slots st)).
  assert (Hclick : handleSlotClick (id s0) st1
                   = checkCompletion new
                       {| slots := new; selectedItemId := None;
                          success := false; mistakes := mistakes st;
                          alerts := alerts st; timers := timers st |}).
  { rewrite Hst1. unfold handleSlotClick. simpl.
    rewrite <- Hid.
    rewrite (find_clicked_slot (slots st) k s);
      [|by apply (reachable_ids_unique data)|done].
    rewrite (Hfill k s Hs). destruct (decide (k < k)%nat); [lia|]. simpl.
    rewrite Hty. by rewrite bool_decide_eq_true_2. }
  assert (Hnew : ∀ (j : nat) s', new !! j = Some s' →
            filledWithId s'
            = (if decide (j < S k)%nat then expectedId s' else None)
            ∧ expectedId s' ≠ None).
  { intros j s' Hj. unfold new in Hj. destruct (decide (j = k)) as [->|Hne].
    - rewrite list_lookup_insert_eq in Hj by lia. injection Hj as <-. simpl.
      destruct (decide (k < S k)%nat); [|lia]. by rewrite He.
    - rewrite list_lookup_insert_ne in Hj by done.
      rewrite (Hfill j s' Hj). split.
      + destruct (decide (j < k)%nat), (decide (j < S k)%nat); try done; lia.
      + by destruct (reachable_slot_of_layout data st sl0 j s' Hr Hsl Hj)
          as (_ & _ & _ & _ & _ & ?). }
  assert (Hnewlen : length new = length sl0).
  { unfold new. by rewrite length_insert. }
  assert (Hall : allFilled new = bool_decide (S k = length sl0)).
  { destruct (decide (S k = length sl0)) as [Hend|Hend].
    - rewrite (bool_decide_eq_true_2 _ Hend).
      apply allFilled_spec. intros s' (j & Hj)%list_elem_of_lookup.
      destruct (Hnew j s' Hj) as [-> Hne]. apply lookup_lt_Some in Hj.
      destruct (decide (j < S k)%nat); [done|lia].
    - rewrite (bool_decide_eq_false_2 _ Hend).
      apply not_true_is_false. rewrite allFilled_spec. intros Hall.
      destruct (lookup_lt_is_Some_2 new (S k)) as [s' Hs']; [lia|].
      destruct (Hnew (S k) s' Hs') as [Hf _].
      destruct (decide (S k < S k)%nat); [lia|].
      apply (Hall s'); [by eapply list_elem_of_lookup_2|done]. }
  destruct (decide (S k = length sl0)) as [Hend|Hend].
  - assert (allCorrect new = true) as Hcorr.
    { apply allCorrect_spec. intros s' (j & Hj)%list_elem_of_lookup.
      destruct (Hnew j s' Hj) as [-> _]. apply lookup_lt_Some in Hj.
      destruct (decide (j < S k)%nat); [done|lia]. }
    set (st2 := {| slots := new; selectedItemId := None; success := true;
                   mistakes := mistakes st; alerts := alerts st;
                 timers := timers st |}).
    assert (slotClicked data (id s0) st1 = fossilEffect data st2) as Heq.
    { unfold slotClicked. rewrite Hclick. unfold checkCompletion.
      rewrite Hall, Hcorr, (bool_decide_eq_true_2 _ Hend). rewrite Hst1.
      reflexivity. }
    rewrite Heq in Hr2 |- *.
    destruct (fossilEffect_verdict data st2) as (E1 & E2 & E3 & E4 & _).
    split; [done|]. split; [by rewrite E4|]. split; [by rewrite E2|].
    split; [by destruct E3 as [-> ->]|]. split.
    + intros j s' Hj.
      apply fossilEffect_lookup in Hj as (s2 & Hj & Ef & _ & _ & Ee).
      rewrite Ef, Ee. by apply Hnew.
    + rewrite E1, fossilEffect_length. simpl. symmetry.
      apply bool_decide_eq_true_2. lia.
  - assert (slotClicked data (id s0) st1
            = {| slots := new; selectedItemId := None; success := false;
                 mistakes := mistakes st; alerts := alerts st;
                 timers := timers st |}) as Heq.
    { unfold slotClicked. rewrite Hclick. unfold checkCompletion.
      rewrite Hall, (bool_decide_eq_false_2 _ Hend). rewrite Hst1.
      reflexivity. }
    rewrite Heq in Hr2 |- *.
    split; [done|]. split; [done|]. split; [done|]. split; [done|]. split.
    + intros j s' Hj. by apply Hnew.
    + simpl. symmetry. apply bool_decide_eq_false_2. lia.
Qed.

End tree_solvable_steps.

Section tree_completable.
Import TreeExercise TreeView.

Implicit Types (sl : list Slot) (st : State) (data : ExerciseData).

Lemma layout_placedUpTo data st0 :
  layoutEffect data mount = Some st0 → placedUpTo data 0 st0.
Proof.
  intros Hl. pose proof (reach_layout data st0 Hl) as Hr.
  unfold layoutEffect in Hl. destruct (newSlots data) as [sl|] eqn:E; [|done].
  simpl in Hl. injection Hl as <-.
  split; [done|]. split_and!; simpl; try done.
  intros j s Hj. apply (newSlots_empty data sl s E).
  by eapply list_elem_of_lookup_2.
Qed.

Lemma solve_progress data sl0 :
  newSlots data = Some sl0 → wellPosed data sl0 →
  ∀ todo (k : nat) st,
    placedUpTo data k st → drop k sl0 = todo →
    placedUpTo data (k + length todo) (foldl (place data) st todo).
Proof.
  intros Hsl Hposed todo.
  induction todo as [|s0 todo IH]; intros k st Hp Hdrop; simpl.
  - by rewrite Nat.add_0_r.
  - assert (sl0 !! k = Some s0) as Hk.
    { rewrite <- (Nat.add_0_r k), <- lookup_drop, Hdrop. done. }
    rewrite (drop_S _ _ _ Hk) in Hdrop. injection Hdrop as Hdrop.
    replace (k + S (length todo))%nat with (S k + length todo)%nat by lia.
    apply IH; [|done]. by apply (place_progress data sl0 Hsl Hposed).
Qed.

(** Success is declared by a click on a slot: there is a slot. *)
Lemma reachable_success_nonempty data st :
  live data st → success st = true → slots st ≠ [].
Proof.
  induction 1 as [st0 Hl|st st' Hr IH Hstep].
  - unfold layoutEffect in Hl. destruct (newSlots data); [|done].
    simpl in Hl. by injection Hl as <-.
  - destruct Hstep as [st it ty Hit|st slot Hslot|st Hsucc|st Htimer].
    + unfold handleItemClick. destruct (success st) eqn:Es; [by rewrite Es|].
      simpl. congruence.
    + intros _ Hnil.
      pose proof (handleSlotClick_frame st (id slot)) as Hfr.
      apply (f_equal length) in Hfr. rewrite !length_fmap, Hnil in Hfr.
      destruct (slots st); [by apply elem_of_nil in Hslot|done].
    + intros _ Hnil. apply (IH Hsucc).
      pose proof (fossilEffect_length data st) as Hlen.
      rewrite Hnil in Hlen. by destruct (slots st).
    + destruct (alertTimer_frame st) as (-> & _ & -> & _). exact IH.
Qed.

Lemma success_wellPosed data st sl0 :
  live data st → success st = true → newSlots data = Some sl0 →
  wellPosed data sl0.
Proof.
  intros Hr Hs Hsl.
  pose proof (reachable_length data st sl0 Hr Hsl) as Hlen.
  assert (Hview : ∀ (j : nat) s0, sl0 !! j = Some s0 →
            ∃ s v, slots st !! j = Some s ∧ type s = type s0
                   ∧ expectedId s0 = Some v ∧ holds v s).
  { intros j s0 Hj.
    destruct (lookup_lt_is_Some_2 (slots st) j) as [s Hjs].
    { rewrite Hlen. by eapply lookup_lt_Some. }
    destruct (reachable_slot_of_layout data st sl0 j s Hr Hsl Hjs)
      as (s0' & Hj' & _ & Hty & He & _).
    assert (s0' = s0) as -> by congruence.
    destruct (success_slot_holds data st s Hr Hs) as (v & Hv & Hh);
      [by eapply list_elem_of_lookup_2|].
    exists s, v. split_and!; [done..|congruence|done]. }
  split_and!.
  - intros ->. simpl in Hlen.
    apply (reachable_success_nonempty data st Hr Hs).
    by destruct (slots st).
  - apply NoDup_alt. intros i j x Hi Hj.
    rewrite list_lookup_fmap in Hi, Hj.
    destruct (sl0 !! i) as [si|] eqn:Ei; [|done].
    destruct (sl0 !! j) as [sj|] eqn:Ej; [|done].
    simpl in Hi, Hj.
    destruct (Hview i si Ei) as (si' & vi & Hi' & _ & Evi & Hhi).
    destruct (Hview j sj Ej) as (sj' & vj & Hj' & _ & Evj & Hhj).
    assert (vi = vj) as -> by congruence.
    destruct (reachable_invariant data st Hr) as [Hone _].
    exact (Hone i j si' sj' vj Hi' Hj' Hhi Hhj).
  - intros s0 (j & Hj)%list_elem_of_lookup.
    destruct (Hview j s0 Hj) as (s & v & Hjs & Hty & Ev & [Hf _]).
    destruct (reachable_itemsKnown data st Hr) as [_ Hfill].
    destruct (Hfill s v) as (it & Hin & Hid & Hity);
      [by eapply list_elem_of_lookup_2|done|].
    exists it. split_and!; [done|congruence|congruence].
Qed.

(** X15. The tree can be completed exactly when the layout is well posed:
    it has a slot, no two slots expect the same id, and every slot expects
    the id of a payload item of its own kind (a taxon for a taxon slot, a
    character for an attribute slot). When it is, serving the slots one
    after the other, each with the item it expects (select the item, click
    the slot), is a session of the builder that ends with success and
    without a single error counted or alert shown, nor any alert left
    scheduled. *)
Theorem tree_completable_iff_well_posed data st0 :
  layoutEffect data mount = Some st0 →
  ((∃ st, reachable data st ∧ success st = true) ↔ wellPosed data (slots st0))
  ∧ (wellPosed data (slots st0) →
     let st := foldl (place data) st0 (slots st0) in
     reachable data st ∧ success st = true
     ∧ mistakes st = 0%nat ∧ alerts st = [] ∧ timers st = []).
Proof.
  intros Hl.
  assert (newSlots data = Some (slots st0)) as Hsl.
  { unfold layoutEffect in Hl. destruct (newSlots data) as [sl|]; [|done].
    simpl in Hl. by injection Hl as <-. }
  assert (Hsolve : wellPosed data (slots st0) →
            let st := foldl (place data) st0 (slots st0) in
            reachable data st ∧ success st = true
            ∧ mistakes st = 0%nat ∧ alerts st = [] ∧ timers st = []).
  { intros Hposed.
    destruct (solve_progress data (slots st0) Hsl Hposed (slots st0) 0 st0
                (layout_placedUpTo data st0 Hl) eq_refl)
      as (Hr & _ & Hm & [Ha Ht] & _ & Hs).
    simpl in *. split_and!; [by right| |done|done|done].
    rewrite Hs. apply bool_decide_eq_true_2.
    rewrite (reachable_length data _ (slots st0) Hr Hsl).
    destruct Hposed as (Hne & _). split; [|done].
    destruct (slots st0); [done|simpl; lia]. }
  split; [|exact Hsolve]. split.
  - intros (st & [->|Hr] & Hs); [done|]. by apply (success_wellPosed data st).
  - intros Hposed. destruct (Hsolve Hposed) as (Hr & Hs & _). eauto.
Qed.

End tree_completable.

Section tree_completable_witness.
Import TreeExercise TreeView.

Lemma tree_completable_iff_well_posed_witness :
  layoutEffect Sessions.fossilData mount = Some Sessions.fossilStart
  ∧ success (foldl (place Sessions.fossilData) Sessions.fossilStart
               (slots Sessions.fossilStart)) = true
  ∧ ((∃ st, reachable Sessions.fossilData st ∧ success st = true)
     ↔ wellPosed Sessions.fossilData (slots Sessions.fossilStart))
  ∧ (wellPosed Sessions.fossilData (slots Sessions.fossilStart) →
     let st := foldl (place Sessions.fossilData) Sessions.fossilStart
                 (slots Sessions.fossilStart) in
     reachable Sessions.fossilData st ∧ success st = true
     ∧ mistakes st = 0%nat ∧ alerts st = [] ∧ timers st = []).
Proof.
  split; [exact fossilStart_layout|]. split; [vm_compute; reflexivity|].
  exact (tree_completable_iff_well_posed Sessions.fossilData
           Sessions.fossilStart fossilStart_layout).
Defined.

End tree_completable_witness.

Section order_facts.

Local Open Scope Qc_scope.

Lemma num_le (a b : Z) : (a <= b)%Z → num a <= num b.
Proof.
  intros H. unfold num, Qcle. cbn [this Q2Qc]. rewrite !Qred_correct.
  by rewrite <- Zle_Qle.
Qed.

Lemma num_mul (a b : Z) : num (a * b) = num a * num b.
Proof.
  unfold num, Qcmult. apply Q2Qc_eq_iff. cbn [this Q2Qc].
  rewrite !Qred_correct, inject_Z_mult. reflexivity.
Qed.

Lemma num_opp (a : Z) : num (- a) = - num a.
Proof.
  unfold num, Qcopp. apply Q2Qc_eq_iff. cbn [this Q2Qc].
  rewrite !Qred_correct, inject_Z_opp. reflexivity.
Qed.

Lemma num_halve (a : Z) : num (2 * a) / num 2 = num a.
Proof. rewrite num_mul, num_2. field. apply two_nonzero. Qed.

Lemma half_range : 0 <= half ∧ half <= 1.
Proof. split; unfold Qcle; simpl; unfold Qle; simpl; lia. Qed.

Lemma bound_lo (p : Qc) (c e d : Z) :
  num c <= p → (d <= c + e)%Z → num d <= p + num e.
Proof.
  intros Hp Hd. apply (Qcle_trans _ (num c + num e)).
  - rewrite <- num_add. by apply num_le.
  - apply Qcplus_le_compat; [done|apply Qcle_refl].
Qed.

Lemma bound_hi (p : Qc) (c e d : Z) :
  p <= num c → (c + e <= d)%Z → p + num e <= num d.
Proof.
  intros Hp Hd. apply (Qcle_trans _ (num c + num e)).
  - apply Qcplus_le_compat; [done|apply Qcle_refl].
  - rewrite <- num_add. by apply num_le.
Qed.

Lemma num_minus (p : Qc) (a : Z) : p - num a = p + num (- a).
Proof. rewrite num_opp. ring. Qed.

Lemma num_minus_plus (p : Qc) (a b : Z) :
  p - num a + num b = p + num (b - a).
Proof.
  replace (b - a)%Z with (b + - a)%Z by lia. rewrite num_add, num_opp. ring.
Qed.

(** A point of a segment lies between its ends. *)
Lemma convex_bounds (a b t lo hi : Qc) :
  lo <= a → lo <= b → a <= hi → b <= hi → 0 <= t → t <= 1 →
  lo <= a + (b - a) * t ∧ a + (b - a) * t <= hi.
Proof.
  intros Ha Hb Ha' Hb' H0 H1.
  assert (0 <= 1 - t) as H1' by (by apply Qcle_minus_iff in H1).
  replace (a + (b - a) * t) with (a * (1 - t) + b * t) by ring.
  split.
  - replace lo with (lo * (1 - t) + lo * t) by ring.
    apply Qcplus_le_compat; by apply Qcmult_le_compat_r.
  - replace hi with (hi * (1 - t) + hi * t) by ring.
    apply Qcplus_le_compat; by apply Qcmult_le_compat_r.
Qed.

Lemma Qcmax_ge_l (a b : Qc) : a <= Qcmax a b.
Proof.
  unfold Qcmax. destruct (Qclt_le_dec a b); [by apply Qclt_le_weak|apply Qcle_refl].
Qed.

Lemma Qcmax_ge_r (a b : Qc) : b <= Qcmax a b.
Proof. unfold Qcmax. by destruct (Qclt_le_dec a b); [apply Qcle_refl|]. Qed.

(** The parameter of the attribute of a step lies on the trunk. *)
Lemma attrT_range (n i : nat) :
  (i < n)%nat → 0 <= TreeExercise.attrT n i ∧ TreeExercise.attrT n i <= 1.
Proof.
  intros Hi.
  assert (Hn : idx n ≠ 0) by (apply idx_nonzero; lia).
  assert (Hpos : 0 < idx n).
  { destruct (Qcle_lt_or_eq 0 (idx n)) as [?|E]; [|done|by destruct Hn].
    rewrite <- num_0. apply num_le. lia. }
  assert (E : TreeExercise.attrT n i * idx n = idx i + half).
  { unfold TreeExercise.attrT. by field. }
  destruct half_range as [Hh0 Hh1].
  split; apply (Qcmult_lt_0_le_reg_r _ _ (idx n) Hpos); rewrite E.
  - replace (0 * idx n) with (0 + 0) by ring.
    apply Qcplus_le_compat; [|done]. rewrite <- num_0. apply num_le. lia.
  - replace (1 * idx n) with (idx n) by ring.
    apply (Qcle_trans _ (idx i + 1)).
    + apply Qcplus_le_compat; [apply Qcle_refl|done].
    + rewrite <- idx_S. apply num_le. lia.
Qed.

End order_facts.

Section tree_canvas.
Import TreeExercise TreeView.

Implicit Types (sl : list Slot) (st : State) (data : ExerciseData).

Local Open Scope Qc_scope.

Lemma stepSlots_coords b tip positions count index step out s :
  stepSlots b tip positions count index step = Some out → s ∈ out →
  (type s = attribute
   ∧ x s = px (getTrunkPoint b tip (attrT count index)) - ATTR_W / num 2
   ∧ y s = py (getTrunkPoint b tip (attrT count index)) - ATTR_H / num 2)
  ∨ (type s = taxon
     ∧ ∃ p, positions !! index = Some p ∧ x s = px p ∧ y s = py p).
Proof.
  unfold stepSlots. destruct (positions !! index) as [p|] eqn:Ep; [|done]; simpl.
  intros [= <-] Hs. apply elem_of_app in Hs as [Hs|Hs].
  - destruct (truthy_opt (characterId step)); [|by apply elem_of_nil in Hs].
    apply list_elem_of_singleton in Hs as ->. by left.
  - destruct (truthy_opt (branchingTaxonId step)); [|by apply elem_of_nil in Hs].
    apply list_elem_of_singleton in Hs as ->. right. split; [done|]. by exists p.
Qed.

(** Where the layout effect puts a slot. *)
Lemma newSlots_coords data sl s :
  newSlots data = Some sl → s ∈ sl →
  let n := length (evolutionOrder data) in
  let P := getTrunkPoint geomTrunkBaseX (geomTrunkTipX n) in
  ∃ i : nat,
    (i < n)%nat
    ∧ ((type s = attribute
        ∧ x s = px (P (attrT n i)) - ATTR_W / num 2
        ∧ y s = py (P (attrT n i)) - ATTR_H / num 2)
       ∨ (type s = taxon
          ∧ x s = START_X + idx i * STEP_X ∧ y s = TAXON_TOP_Y)).
Proof.
  intros Hsl Hs n P. unfold newSlots in Hsl.
  destruct (effectTrunkTipX data) as [tip|] eqn:Etip; [|done]; simpl in Hsl.
  destruct (mapM _ _) as [outs|] eqn:E; [|done]; simpl in Hsl.
  injection Hsl as <-. apply mapM_Some_1 in E.
  apply list_elem_of_join in Hs as (out & Hs & Hout).
  apply list_elem_of_lookup in Hout as [i Hi].
  destruct (Forall2_lookup_r _ _ _ _ _ E Hi) as ([index step] & Hp & Hstep).
  rewrite list_lookup_imap in Hp.
  destruct (evolutionOrder data !! i) as [step'|] eqn:Ei; [|done].
  simpl in Hp. injection Hp as <- <-.
  assert (Hin : (i < n)%nat) by (by eapply lookup_lt_Some).
  rewrite effectTrunkTipX_eq in Etip by (fold n; lia). injection Etip as <-.
  exists i. split; [done|].
  destruct (stepSlots_coords _ _ _ _ _ _ _ _ Hstep Hs)
    as [?|(? & p & Hp & Hx & Hy)]; [by left|right].
  unfold taxonPositions in Hp. rewrite list_lookup_imap, Ei in Hp.
  simpl in Hp. injection Hp as <-. by rewrite Hx, Hy.
Qed.

Lemma geomTrunkTipX_num (n : nat) :
  geomTrunkTipX n = num (Z.of_nat n * 200 - 94).
Proof.
  unfold geomTrunkTipX, START_X, STEP_X, TAXON_W, idx.
  change (num 112) with (num (2 * 56)). rewrite num_halve.
  replace (Z.of_nat n * 200 - 94)%Z with (50 + (Z.of_nat n + - 1%Z) * 200 + 56)%Z
    by lia.
  rewrite !num_add, num_mul, num_add, num_opp, num_1. ring.
Qed.

End tree_canvas.

Section tree_canvas_theorem.
Import TreeExercise TreeView.

Implicit Types (sl : list Slot) (st : State) (data : ExerciseData).

Local Open Scope Qc_scope.

Lemma containerWidth_ge data :
  num (Z.of_nat (length (evolutionOrder data)) * 200 + 150)
  <= containerWidth data.
Proof.
  unfold containerWidth.
  eapply Qcle_trans; [|apply Qcmax_ge_r].
  unfold START_X, STEP_X, idx. rewrite <- num_mul, <- !num_add.
  apply num_le. lia.
Qed.

(** X16. In every state the builder can reach, the box of every slot lies
    inside the canvas, which is [containerWidth] wide and at least 600 high:
    the width computed from the number of steps is enough for every taxon
    card and every attribute slot, also after success has lowered the cards
    of the fossil taxons. *)
Theorem slots_fit_in_canvas data st s :
  reachable data st → s ∈ slots st →
  0 <= x s ∧ x s + slotWidth s <= containerWidth data
  ∧ 0 <= y s ∧ y s + slotHeight s <= containerMinHeight.
Proof.
  intros [->|Hr] Hs; [by apply elem_of_nil in Hs|].
  destruct (reachable_frame data st Hr) as (sl0 & low & Hsl & _ & Hfr).
  apply list_elem_of_lookup in Hs as [k Hk].
  apply (f_equal (λ l, l !! k)) in Hfr.
  rewrite !list_lookup_fmap, Hk in Hfr. simpl in Hfr.
  destruct (sl0 !! k) as [s0|] eqn:Hk0; [|done].
  simpl in Hfr. injection Hfr as _ Hty Hx Hy _.
  apply list_elem_of_lookup_2 in Hk0.
  pose proof (containerWidth_ge data) as Hw.
  destruct (newSlots_coords data sl0 s0 Hsl Hk0)
    as (i & Hi & [(Ht & Ex & Ey)|(Ht & Ex & Ey)]);
    unfold slotWidth, slotHeight, containerMinHeight;
    unfold lowered in Hy; rewrite Hty, Ht; rewrite Ht in Hy; simpl in Hy.
  - rewrite andb_false_r in Hy. rewrite Hx, Hy, Ex, Ey.
    unfold ATTR_W, ATTR_H.
    change (num 120) with (num (2 * 60)). change (num 40) with (num (2 * 20)).
    rewrite !num_halve.
    destruct (attrT_range _ i Hi) as [H0 H1].
    set (n := length (evolutionOrder data)) in *.
    set (t := attrT n i) in *.
    assert (Hbase : geomTrunkBaseX = num 150).
    { unfold geomTrunkBaseX, START_X. by rewrite <- num_add. }
    assert (Htip : TRUNK_TIP_Y = num 192).
    { unfold TRUNK_TIP_Y, TAXON_TOP_Y, TAXON_H. by rewrite <- !num_add. }
    destruct (convex_bounds geomTrunkBaseX (geomTrunkTipX n) t (num 106)
                (num (Z.of_nat n * 200 + 90))) as [Hxlo Hxhi];
      [rewrite Hbase; by apply num_le
      |rewrite geomTrunkTipX_num; apply num_le; lia
      |rewrite Hbase; apply num_le; lia
      |rewrite geomTrunkTipX_num; apply num_le; lia
      |done|done|].
    destruct (convex_bounds TRUNK_BASE_Y TRUNK_TIP_Y t (num 192) (num 550))
      as [Hylo Hyhi];
      [by apply num_le
      |rewrite Htip; apply Qcle_refl
      |apply Qcle_refl
      |rewrite Htip; by apply num_le
      |done|done|].
    unfold getTrunkPoint; simpl.
    set (X := geomTrunkBaseX + (geomTrunkTipX n - geomTrunkBaseX) * t) in *.
    set (Y := TRUNK_BASE_Y + (TRUNK_TIP_Y - TRUNK_BASE_Y) * t) in *.
    split_and!.
    + rewrite num_minus, <- num_0. by apply (bound_lo _ 106).
    + eapply Qcle_trans; [|exact Hw]. rewrite num_minus_plus.
      apply (bound_hi _ (Z.of_nat n * 200 + 90)); [done|lia].
    + rewrite num_minus, <- num_0. by apply (bound_lo _ 192).
    + rewrite num_minus_plus. by apply (bound_hi _ 550).
  - assert (Hyy : y s = num 40 ∨ y s = num 140).
    { rewrite Hy. destruct (low && _); [right|left].
      - unfold TAXON_TOP_Y, FOSSIL_OFFSET_Y. by rewrite <- num_add.
      - by rewrite Ey. }
    rewrite Hx, Ex. unfold START_X, STEP_X, idx. rewrite <- num_mul, <- !num_add.
    split_and!.
    + rewrite <- num_0. apply num_le. lia.
    + eapply Qcle_trans; [|exact Hw]. apply num_le. lia.
    + rewrite <- num_0. destruct Hyy as [-> | ->]; by apply num_le.
    + destruct Hyy as [-> | ->]; rewrite <- num_add; by apply num_le.
Qed.

End tree_canvas_theorem.

Section tree_canvas_witness.
Import TreeExercise TreeView.

Local Open Scope Qc_scope.

Lemma slots_fit_in_canvas_witness :
  ∃ s, slots Sessions.solved !! 1%nat = Some s
       ∧ type s = taxon ∧ y s = num 140
       ∧ 0 <= x s ∧ x s + slotWidth s <= containerWidth Sessions.fossilData
       ∧ 0 <= y s ∧ y s + slotHeight s <= containerMinHeight.
Proof.
  destruct (slots Sessions.solved !! 1%nat) as [s|] eqn:Hs;
    [|exfalso; vm_compute in Hs; discriminate].
  exists s. split; [reflexivity|].
  assert (Some (type s, y s) = Some (taxon, num 140)) as H.
  { transitivity ((λ s', (type s', y s')) <$> (slots Sessions.solved !! 1%nat)).
    - by rewrite Hs.
    - vm_compute; reflexivity. }
  injection H as Hty Hy. split; [exact Hty|]. split; [exact Hy|].
  apply (slots_fit_in_canvas Sessions.fossilData Sessions.solved s
           solved_reachable).
  by eapply list_elem_of_lookup_2.
Defined.

End tree_canvas_witness.

Section teacher_sheet.
Import TeacherZone.

Local Open Scope Qc_scope.

Lemma trunkTipX_num (n : nat) : trunkTipX n = num (Z.of_nat n * 150 - 50).
Proof.
  unfold trunkTipX, START_X, STEP_X, TAXON_W, idx.
  change (num 100) with (num (2 * 50)). rewrite num_halve.
  replace (Z.of_nat n * 150 - 50)%Z with (50 + (Z.of_nat n + - 1%Z) * 150 + 50)%Z
    by lia.
  rewrite !num_add, num_mul, num_add, num_opp, num_1. ring.
Qed.

Lemma sheet_width_ge data :
  num (Z.of_nat (length (evolutionOrder data)) * 150 + 150)
  <= width (getStaticTreeGeometry data).
Proof.
  unfold getStaticTreeGeometry; simpl.
  eapply Qcle_trans; [|apply Qcmax_ge_r].
  unfold START_X, STEP_X, idx. rewrite <- num_mul, <- !num_add.
  apply num_le. lia.
Qed.

(** X17. On the teacher sheet every box of the tree lies inside the view
    box of the drawing: the taxon box of every step, lowered or not, and
    the attribute box beside every tick. *)
Theorem sheet_boxes_inside_view_box data seg :
  seg ∈ segments (getStaticTreeGeometry data) →
  inViewBox (getStaticTreeGeometry data) (taxonBox seg)
  ∧ inViewBox (getStaticTreeGeometry data) (attrBox seg).
Proof.
  intros (i & Hi)%list_elem_of_lookup.
  pose proof (sheet_width_ge data) as Hw.
  unfold getStaticTreeGeometry in Hi; simpl in Hi.
  rewrite list_lookup_imap in Hi.
  destruct (evolutionOrder data !! i) as [st|] eqn:Ei; [|done].
  simpl in Hi. injection Hi as <-.
  assert (Hin : (i < length (evolutionOrder data))%nat)
    by (by eapply lookup_lt_Some).
  set (n := length (evolutionOrder data)) in *.
  assert (Hh : height (getStaticTreeGeometry data) = num 450) by done.
  unfold inViewBox. rewrite Hh. unfold taxonBox, attrBox, segment; simpl.
  split.
  - assert (E : START_X + idx i * STEP_X + TAXON_W / num 2
                = num (Z.of_nat i * 150 + 100)).
    { unfold START_X, STEP_X, TAXON_W, idx.
      change (num 100) with (num (2 * 50)). rewrite num_halve.
      rewrite <- num_mul, <- !num_add. f_equal. lia. }
    rewrite E.
    assert (Ey : ∃ z, (z = 60 ∨ z = 140)%Z
                      ∧ TAXON_TOP_Y + TAXON_H
                        + (if TreeExercise.isFossilId data (branchingTaxonId st)
                           then FOSSIL_OFFSET_Y else 0) = num z).
    { unfold TAXON_TOP_Y, TAXON_H, FOSSIL_OFFSET_Y.
      destruct (TreeExercise.isFossilId _ _).
      - exists 140%Z. split; [by right|]. by rewrite <- !num_add.
      - exists 60%Z. split; [by left|]. by rewrite <- num_0, <- !num_add. }
    destruct Ey as (z & Hz & ->).
    split_and!.
    + rewrite num_minus, <- num_add, <- num_0. apply num_le. lia.
    + eapply Qcle_trans; [|exact Hw].
      rewrite num_minus_plus, <- num_add. apply num_le. lia.
    + rewrite num_minus, <- num_add, <- num_0. apply num_le. lia.
    + rewrite num_minus_plus, <- num_add. apply num_le. lia.
  - destruct (attrT_range n i Hin) as [H0 H1].
    set (t := TreeExercise.attrT n i) in *.
    assert (Hbase : trunkBaseX = num 130).
    { unfold trunkBaseX, START_X. by rewrite <- num_add. }
    assert (Htip : TRUNK_TIP_Y = num 100).
    { unfold TRUNK_TIP_Y, TAXON_TOP_Y, TAXON_H. by rewrite <- !num_add. }
    destruct (convex_bounds trunkBaseX (trunkTipX n) t (num 100)
                (num (Z.of_nat n * 150 + 5))) as [Hxlo Hxhi];
      [rewrite Hbase; by apply num_le
      |rewrite trunkTipX_num; apply num_le; lia
      |rewrite Hbase; apply num_le; lia
      |rewrite trunkTipX_num; apply num_le; lia
      |done|done|].
    destruct (convex_bounds TRUNK_BASE_Y TRUNK_TIP_Y t (num 100) (num 400))
      as [Hylo Hyhi];
      [by apply num_le
      |rewrite Htip; apply Qcle_refl
      |apply Qcle_refl
      |rewrite Htip; by apply num_le
      |done|done|].
    set (X := trunkBaseX + (trunkTipX n - trunkBaseX) * t) in *.
    set (Y := TRUNK_BASE_Y + (TRUNK_TIP_Y - TRUNK_BASE_Y) * t) in *.
    split_and!.
    + rewrite <- num_0. by apply (bound_lo _ 100).
    + eapply Qcle_trans; [|exact Hw].
      rewrite <- Qcplus_assoc, <- num_add.
      apply (bound_hi _ (Z.of_nat n * 150 + 5)); [done|lia].
    + rewrite <- num_0. by apply (bound_lo _ 100).
    + rewrite <- Qcplus_assoc, <- num_add. by apply (bound_hi _ 400).
Qed.

End teacher_sheet.

Section teacher_sheet_witness.
Import TeacherZone.

Lemma sheet_boxes_inside_view_box_witness :
  ∃ seg, segments (getStaticTreeGeometry App.DEFAULT_DATA) !! 3%nat = Some seg
         ∧ inViewBox (getStaticTreeGeometry App.DEFAULT_DATA) (taxonBox seg)
         ∧ inViewBox (getStaticTreeGeometry App.DEFAULT_DATA) (attrBox seg).
Proof.
  destruct (segments (getStaticTreeGeometry App.DEFAULT_DATA) !! 3%nat)
    as [seg|] eqn:Hs; [|exfalso; vm_compute in Hs; discriminate].
  exists seg. split; [reflexivity|].
  apply (sheet_boxes_inside_view_box App.DEFAULT_DATA seg).
  by eapply list_elem_of_lookup_2.
Defined.

End teacher_sheet_witness.

Section shuffle_reach.
Import App Draws.
Context {A : Type}.

Implicit Types (a target : list A) (js : list nat).

Lemma randomIndex_drawFor (j i : nat) : randomIndex (drawFor j i) i = j.
Proof.
  unfold randomIndex, drawFor.
  assert (E : (inject_Z (2 * Z.of_nat j + 1) / inject_Z (2 * Z.of_nat (i + 1))
               * inject_Z (Z.of_nat (i + 1)) == (2 * Z.of_nat j + 1) # 2)%Q).
  { rewrite (Qmake_Qdiv (2 * Z.of_nat j + 1) 2), inject_Z_mult.
    change (inject_Z (Z.pos 2)) with (inject_Z 2).
    field. repeat split; intros H; unfold Qeq in H; simpl in H; lia. }
  rewrite E. unfold Qfloor.
  rewrite (Z.mul_comm 2), Z.div_add_l by lia.
  change (1 / 2)%Z with 0%Z. rewrite Z.add_0_r. apply Nat2Z.id.
Qed.

Lemma drawFor_ok (j i : nat) :
  (j <= i)%nat → (0 <= drawFor j i)%Q ∧ (drawFor j i < 1)%Q.
Proof.
  intros Hj. unfold drawFor.
  assert (0 < inject_Z (2 * Z.of_nat (i + 1)))%Q as Hpos.
  { unfold Qlt; simpl. lia. }
  split.
  - apply Qle_shift_div_l; [done|]. unfold Qle; simpl. lia.
  - apply Qlt_shift_div_r; [done|]. unfold Qlt; simpl. lia.
Qed.

Lemma oracleOf_ok (i : nat) js :
  (∀ (m : nat) j, js !! m = Some j → (j <= i - m)%nat) →
  random_ok (oracleOf i js).
Proof.
  intros Hjs m. unfold oracleOf. destruct (js !! m) as [j|] eqn:E.
  - apply drawFor_ok. by apply Hjs.
  - split; [apply Qle_refl|reflexivity].
Qed.

(** The loop run on an oracle that agrees with the chosen indices. *)
Lemma shuffleLoop_with js : ∀ (i k : nat) a rand,
  length js = i →
  (∀ (m : nat) j, js !! m = Some j →
     randomIndex (rand (k + m)%nat) (i - m) = j) →
  (shuffleLoop rand k i a).1 = shuffleWith js i a.
Proof.
  induction js as [|j js IH]; intros i k a rand Hlen Hr; simpl in Hlen; subst i.
  - done.
  - simpl. rewrite <- (Hr 0%nat j eq_refl), Nat.add_0_r at 1. simpl.
    apply IH; [done|].
    intros m j' Hm. specialize (Hr (S m) j' Hm).
    by replace (k + S m)%nat with (S k + m)%nat in Hr by lia.
Qed.

End shuffle_reach.

Section shuffle_every_order.
Import App Draws.
Context {A : Type}.

Implicit Types (a target : list A) (js : list nat).

(** Two arrangements of the same elements that agree from index [n] on are
    arrangements of each other before it. *)
Lemma Permutation_take a target (n : nat) :
  a ≡ₚ target → (∀ m : nat, (n <= m)%nat → a !! m = target !! m) →
  take n a ≡ₚ take n target.
Proof.
  intros Hp Hag.
  assert (drop n a = drop n target) as Hd.
  { apply list_eq. intros m. rewrite !lookup_drop. apply Hag. lia. }
  rewrite <- (take_drop n a), <- (take_drop n target), Hd in Hp.
  by apply Permutation_app_inv_r in Hp.
Qed.

Lemma swap_lookup a (i j : nat) x y :
  a !! i = Some y → a !! j = Some x →
  swap a i j !! i = Some x
  ∧ ∀ m : nat, m ≠ i → m ≠ j → swap a i j !! m = a !! m.
Proof.
  intros Hi Hj. unfold swap. rewrite Hi, Hj.
  pose proof (lookup_lt_Some _ _ _ Hi) as Hli.
  pose proof (lookup_lt_Some _ _ _ Hj) as Hlj.
  split.
  - destruct (decide (i = j)) as [->|Hne].
    + rewrite list_lookup_insert_eq by (by rewrite length_insert). congruence.
    + rewrite list_lookup_insert_ne by done.
      by rewrite list_lookup_insert_eq.
  - intros m Hmi Hmj. by rewrite !list_lookup_insert_ne.
Qed.

(** Indices can be chosen so that the loop builds any given arrangement. *)
Lemma shuffleWith_reaches : ∀ (i : nat) a target,
  (i <= length a - 1)%nat → a ≡ₚ target →
  (∀ m : nat, (i < m)%nat → a !! m = target !! m) →
  ∃ js, length js = i
        ∧ (∀ (m : nat) j, js !! m = Some j → (j <= i - m)%nat)
        ∧ shuffleWith js i a = target.
Proof.
  induction i as [|i IH]; intros a target Hi Hp Hag.
  - exists []. split; [done|]. split; [done|]. simpl.
    apply list_eq. intros [|m]; [|apply Hag; lia].
    pose proof (Permutation_take a target 1 Hp) as H1.
    assert (take 1 a ≡ₚ take 1 target) as Ht by (apply H1; intros m ?; apply Hag; lia).
    destruct a as [|x a], target as [|y target]; simpl in *; try done.
    + by apply Permutation_nil_cons in Ht.
    + symmetry in Ht. by apply Permutation_nil_cons in Ht.
    + apply Permutation_singleton_inj in Ht. by rewrite Ht.
  - assert (Hlen : length a = length target) by (by apply Permutation_length).
    destruct (lookup_lt_is_Some_2 a (S i)) as [y Hy]; [lia|].
    destruct (lookup_lt_is_Some_2 target (S i)) as [x Hx]; [lia|].
    assert (take (S (S i)) a ≡ₚ take (S (S i)) target) as Ht.
    { apply Permutation_take; [done|]. intros m ?. apply Hag. lia. }
    assert (x ∈ take (S (S i)) a) as Hin.
    { rewrite Ht. apply list_elem_of_lookup. exists (S i).
      rewrite lookup_take_lt by lia. done. }
    apply list_elem_of_lookup in Hin as [j Hj].
    assert (j < S (S i))%nat as Hji.
    { apply lookup_lt_Some in Hj. rewrite length_take in Hj. lia. }
    rewrite lookup_take_lt in Hj by done.
    destruct (swap_lookup a (S i) j x y Hy Hj) as [Hsi Hother].
    destruct (IH (swap a (S i) j) target) as (js & Hjs & Hrange & Hres).
    + rewrite swap_length. lia.
    + by rewrite swap_Permutation.
    + intros m Hm. destruct (decide (m = S i)) as [->|Hne]; [congruence|].
      rewrite Hother by lia. apply Hag. lia.
    + exists (j :: js). split; [simpl; lia|]. split; [|done].
      intros [|m] j' Hm; simpl in Hm.
      * injection Hm as <-. lia.
      * apply Hrange in Hm. simpl. lia.
Qed.

(** X18. The shuffle can produce every order: for every arrangement of the
    elements of an array there are values of [Math.random], all in [0, 1),
    for which [shuffleArray] returns exactly that arrangement. In particular
    it can return the array in its original order. *)
Theorem shuffleArray_reaches_every_order (array target : list A) :
  array ≡ₚ target →
  ∃ rand, random_ok rand ∧ (shuffleArray rand 0 array).1 = target.
Proof.
  intros Hp.
  destruct (shuffleWith_reaches (length array - 1) array target)
    as (js & Hjs & Hrange & Hres); [done|done| |].
  { intros m Hm. apply Permutation_length in Hp.
    rewrite !lookup_ge_None_2 by lia. done. }
  exists (oracleOf (length array - 1) js).
  split; [by apply oracleOf_ok|].
  unfold shuffleArray. rewrite <- Hres.
  apply shuffleLoop_with; [done|].
  intros m j Hm. simpl. unfold oracleOf. rewrite Hm.
  apply randomIndex_drawFor.
Qed.

End shuffle_every_order.

Section shuffle_every_order_witness.
Import App Draws.

Lemma shuffleArray_reaches_every_order_witness :
  ["a"; "b"; "c"] ≡ₚ ["c"; "a"; "b"]
  ∧ ∃ rand, random_ok rand
            ∧ (shuffleArray rand 0 ["a"; "b"; "c"]).1 = ["c"; "a"; "b"].
Proof.
  assert (["a"; "b"; "c"] ≡ₚ ["c"; "a"; "b"]) as Hp.
  { symmetry. apply (Permutation_cons_append ["a"; "b"] "c"). }
  split; [exact Hp|].
  exact (shuffleArray_reaches_every_order ["a"; "b"; "c"] ["c"; "a"; "b"] Hp).
Defined.

End shuffle_every_order_witness.

Section page_consistency.
Import Machine Page.

Lemma consistent_init : consistent init.
Proof. unfold consistent, init, screen; simpl. split_and!; done. Qed.

Lemma consistent_render m a' :
  consistent m → crashed m = false →
  (App.isLoading a' = true → App.state a' = setup) →
  (App.state a' ≠ setup → is_Some (App.exerciseData a')) →
  (App.state a' = matrix → is_Some (matrixView m) →
   App.exerciseData a' = App.exerciseData (app m)) →
  (App.state a' = tree → is_Some (treeView m) →
   App.exerciseData a' = App.exerciseData (app m)) →
  consistent (render m a').
Proof.
  intros (Hl & Hd & Hm & Ht & Hc0 & Hc1) Hcr Hl' Hd' Hm' Ht'.
  unfold render.
  destruct (App.state a') eqn:Es;
    destruct (App.exerciseData a') as [d|] eqn:Ed;
    try (by destruct Hd' as [? ?]);
    try (unfold consistent, screen; simpl; rewrite Es, ?Ed, Hcr;
         split_and!; by eauto).
  - (* matrix *)
    unfold consistent, screen; simpl. rewrite Es, Ed, Hcr.
    split_and!; try by eauto.
    intros v [= <-]. split; [done|]. exists d. split; [done|].
    destruct (matrixView m) as [v0|] eqn:Ev; simpl.
    + destruct (Hm v0 eq_refl) as (_ & d0 & Hd0 & Hr0).
      rewrite <- (Hm' eq_refl (ltac:(by eauto))) in Hd0. by injection Hd0 as <-.
    + apply MatrixExercise.reach_init.
  - (* tree *)
    destruct (treeView m) as [v0|] eqn:Ev.
    + unfold consistent, screen; simpl. rewrite Es, Ed, Hcr.
      split_and!; try by eauto.
      intros v [= <-]. split; [done|]. exists d. split; [done|].
      destruct (Ht v0 eq_refl) as (_ & d0 & Hd0 & Hr0).
      rewrite <- (Ht' eq_refl (ltac:(by eauto))) in Hd0. by injection Hd0 as <-.
    + destruct (TreeExercise.layoutEffect d TreeExercise.mount) as [v|] eqn:El.
      * unfold consistent, screen; simpl. rewrite Es, Ed, Hcr.
        split_and!; try by eauto.
        intros v' [= <-]. split; [done|]. exists d. split; [done|].
        by apply TreeExercise.reach_layout.
      * unfold consistent, screen; simpl. rewrite Es, Ed.
        split_and!; try by eauto.
        intros _. split; [done|]. exists d. split; [done|].
        destruct (evolutionOrder d) as [|e l] eqn:E; [done|].
        assert (evolutionOrder d ≠ []) as Hne by (by rewrite E).
        destruct (layoutEffect_defined d Hne) as [v Hv]. congruence.
Qed.

End page_consistency.

Section page_steps.
Import Machine Page.

Ltac by_render Hc Hcr :=
  apply (consistent_render _ _ Hc Hcr); simpl;
  first [done | congruence | by eauto | idtac].

Lemma consistent_step e m m' :
  consistent m → step e m = Some m' → consistent m'.
Proof.
  intros Hc Hstep. pose proof Hc as (Hl & Hd & Hm & Ht & Hc0 & Hc1).
  unfold step in Hstep. destruct (crashed m) eqn:Hcr; [done|].
  assert (Hview : ∀ s, App.state (app m) = s → s ≠ matrix →
                       matrixView m = None).
  { intros s Hs Hne. destruct (matrixView m) as [v|] eqn:Ev; [|done].
    destruct (Hm v eq_refl) as [E _]. unfold screen in E. congruence. }
  assert (Htview : ∀ s, App.state (app m) = s → s ≠ tree → treeView m = None).
  { intros s Hs Hne. destruct (treeView m) as [v|] eqn:Ev; [|done].
    destruct (Ht v eq_refl) as [E _]. unfold screen in E. congruence. }
  unfold screen in *.
  destruct e; simpl in Hstep.
  - (* TypeTopic *)
    case_bool_decide as Hs; [|done]. injection Hstep as <-.
    by_render Hc Hcr; congruence.
  - case_bool_decide as Hs; [|done]. injection Hstep as <-.
    by_render Hc Hcr; congruence.
  - case_bool_decide as Hs; [|done]. injection Hstep as <-.
    by_render Hc Hcr; congruence.
  - (* ClickGenerate *)
    case_bool_decide as Hs; [|done]. simpl in Hstep.
    destruct (App.isLoading (app m)); [done|]. injection Hstep as <-.
    by_render Hc Hcr; congruence.
  - (* Settles *)
    destruct (App.isLoading (app m)) eqn:El; [|done]. injection Hstep as <-.
    specialize (Hl eq_refl).
    destruct outcome as [err|data]; by_render Hc Hcr; congruence.
  - (* ClickDemo *)
    case_bool_decide as Hs; [|done]. simpl in Hstep.
    destruct (App.isLoading (app m)) eqn:El; [done|]. injection Hstep as <-.
    by_render Hc Hcr.
  - (* ClickHeader *)
    injection Hstep as <-. by_render Hc Hcr.
  - (* ClickEspaceProf *)
    destruct (App.exerciseData (app m)) eqn:Ed; [|done].
    case_bool_decide; [|done]. injection Hstep as <-.
    by_render Hc Hcr; by rewrite Ed.
  - destruct (App.exerciseData (app m)) eqn:Ed; [|done].
    destruct (App.showTeacherZone (app m)); [|done]. injection Hstep as <-.
    by_render Hc Hcr; by rewrite Ed.
  - (* ClickContinue *)
    destruct (App.state (app m)) eqn:Es; try done.
    destruct (App.exerciseData (app m)) eqn:Ed; [|done]. injection Hstep as <-.
    by_render Hc Hcr;
      try (intros El; specialize (Hl El); congruence);
      try (intros _ [v Hv]; by rewrite (Hview info) in Hv).
  - (* ClickCell *)
    destruct (matrixView m) as [v|] eqn:Ev; [|done].
    destruct (App.exerciseData (app m)) as [d|] eqn:Ed; [|done].
    destruct (taxons d !! i) as [t|]; [|done]. simpl in Hstep.
    destruct (characters d !! j) as [c|]; [|done]. simpl in Hstep.
    injection Hstep as <-.
    destruct (Hm v eq_refl) as (Hs & d0 & Hd0 & Hr).
    assert (d0 = d) as -> by congruence.
    unfold consistent, withMatrix, screen; simpl. rewrite Hcr.
    split_and!; try done; try (by apply Hc).
    intros v' [= <-]. split; [done|]. exists d. rewrite Ed. split; [done|].
    by apply MatrixExercise.reach_toggle.
  - (* ClickMatrixButton *)
    destruct (matrixView m) as [v|] eqn:Ev; [|done].
    destruct (App.exerciseData (app m)) as [d|] eqn:Ed; [|done].
    destruct (Hm v eq_refl) as (Hs & d0 & Hd0 & Hr).
    assert (d0 = d) as -> by congruence.
    destruct (MatrixExercise.button v) eqn:Eb; injection Hstep as <-.
    + unfold consistent, withMatrix, screen; simpl. rewrite Hcr.
      split_and!; try done; try (by apply Hc).
      intros v' [= <-]. split; [done|]. exists d. rewrite Ed. split; [done|].
      by apply MatrixExercise.reach_check.
    + by_render Hc Hcr;
        try (intros El; specialize (Hl El); congruence);
        try (intros _ [v' Hv']; by rewrite (Htview matrix) in Hv').
  - (* ClickItem *)
    destruct (treeView m) as [v|] eqn:Ev; [|done].
    destruct (App.exerciseData (app m)) as [d|] eqn:Ed; [|done].
    destruct (TreeExercise.getAvailableItems d v ty !! k) as [it|] eqn:Ei;
      [|done].
    injection Hstep as <-.
    destruct (Ht v eq_refl) as (Hs & d0 & Hd0 & Hr).
    assert (d0 = d) as -> by congruence.
    unfold consistent, withTree, screen; simpl. rewrite Hcr, ?Ev.
    split_and!; try done; try (by apply Hc); try (by eauto).
    intros v' [= <-]. split; [done|]. exists d. rewrite Ed. split; [done|].
    eapply TreeExercise.reach_step; [exact Hr|].
    apply TreeExercise.step_item. by eapply list_elem_of_lookup_2.
  - (* ClickSlot *)
    destruct (treeView m) as [v|] eqn:Ev; [|done].
    destruct (App.exerciseData (app m)) as [d|] eqn:Ed; [|done].
    destruct (TreeExercise.slots v !! k) as [slot|] eqn:Ek; [|done].
    injection Hstep as <-.
    destruct (Ht v eq_refl) as (Hs & d0 & Hd0 & Hr).
    assert (d0 = d) as -> by congruence.
    unfold consistent, withTree, screen; simpl. rewrite Hcr, ?Ev.
    split_and!; try done; try (by apply Hc); try (by eauto).
    intros v' [= <-]. split; [done|]. exists d. rewrite Ed. split; [done|].
    apply slotClicked_live; [exact Hr|]. by eapply list_elem_of_lookup_2.
  - (* ClickNouveau *)
    destruct (treeView m) as [v|]; [|done].
    destruct (TreeExercise.success v); [|done]. injection Hstep as <-.
    by_render Hc Hcr.
  - (* AlertDue *)
    destruct (treeView m) as [v|] eqn:Ev; [|done].
    destruct (TreeExercise.timers v) as [|message rest] eqn:Et; [done|].
    injection Hstep as <-.
    destruct (Ht v eq_refl) as (Hs & d & Hd0 & Hr).
    unfold consistent, withTree, screen; simpl. rewrite Hcr, ?Ev.
    split_and!; try done; try (by apply Hc); try (by eauto).
    intros v' [= <-]. split; [done|]. exists d. split; [done|].
    eapply TreeExercise.reach_step; [exact Hr|].
    apply TreeExercise.step_alert. by rewrite Et.
Qed.

Lemma consistent_run evs : ∀ m, consistent m →
  ∀ m', m' ∈ run m evs → consistent m'.
Proof.
  induction evs as [|e evs IH]; intros m Hc m' Hin; simpl in Hin.
  - apply list_elem_of_singleton in Hin as ->. done.
  - apply elem_of_cons in Hin as [->|Hin]; [done|].
    apply (IH (default m (step e m))); [|done].
    destruct (step e m) as [m1|] eqn:E; simpl; [|done].
    by apply (consistent_step e m).
Qed.

End page_steps.

Section page_theorems.
Import Machine Page.








End page_theorems.

Section page_progress.
Import Machine Page.

(** X21. The student moves on only over correct work. In every session of
    the page: when the button under the grid opens the tree screen, every
    cell of the grid is set and equals the entry of the answer key, which
    has a row for each taxon concerned; and when 'Nouveau' is offered in
    the tree builder, every slot holds the id it expects, and pressing it
    leads to the setup screen with the topic emptied and the exercise kept
    in memory. *)
Theorem student_moves_on_only_over_correct_work (evs : list Event) m m' :
  m ∈ run init evs →
  (step ClickMatrixButton m = Some m' → screen m' = tree →
   ∃ d v, App.exerciseData (app m) = Some d ∧ matrixView m = Some v
          ∧ ∀ t c, t ∈ taxons d → c ∈ characters d →
              ∃ b, MatrixExercise.cell (MatrixExercise.userMatrix v)
                     (Taxon.id t) (Character.id c) = Some b
                   ∧ MatrixExercise.shouldBePresent (correctMatrix d)
                       (Taxon.id t) (Character.id c) = Some b)
  ∧ (step ClickNouveau m = Some m' →
     ∃ d v, App.exerciseData (app m) = Some d ∧ treeView m = Some v
            ∧ (∀ s, s ∈ TreeExercise.slots v →
                 TreeExercise.filledWithId s = TreeExercise.expectedId s
                 ∧ truthy_opt (TreeExercise.filledWithId s) = true)
            ∧ screen m' = setup
            ∧ App.topic (app m') = ""
            ∧ App.exerciseData (app m') = Some d).
Proof.
  intros Hin.
  destruct (consistent_run evs init consistent_init m Hin)
    as (_ & _ & Hm & Ht & _ & _).
  split.
  - intros Hstep Htree. unfold step in Hstep.
    destruct (crashed m); [done|].
    destruct (matrixView m) as [v|] eqn:Ev; [|done].
    destruct (App.exerciseData (app m)) as [d|] eqn:Ed; [|done].
    destruct (Hm v eq_refl) as (Hs & d0 & Hd0 & Hr).
    assert (d0 = d) as -> by congruence.
    exists d, v. split; [done|]. split; [done|].
    destruct (MatrixExercise.button v) eqn:Eb; injection Hstep as <-.
    + unfold screen, withMatrix in Htree. simpl in Htree.
      unfold screen in Hs. congruence.
    + apply reachable_success_grid; [done|].
      unfold MatrixExercise.button in Eb.
      by destruct (MatrixExercise.success v).
  - intros Hstep. unfold step in Hstep.
    destruct (crashed m); [done|].
    destruct (treeView m) as [v|] eqn:Ev; [|done].
    destruct (TreeExercise.success v) eqn:Es; [|done]. injection Hstep as <-.
    destruct (Ht v eq_refl) as (Hs & d & Hd & Hr).
    exists d, v. split; [done|]. split; [done|].
    rewrite screen_render, app_render. simpl.
    split_and!; [|done..].
    intros s Hs'.
    destruct (success_slot_holds d v s Hr Es Hs') as (w & Hw & [Hf Hne]).
    split; [congruence|]. rewrite Hf. simpl. unfold truthy.
    by apply bool_decide_eq_true_2.
Qed.

Lemma demoGrid_in_session : demoGrid ∈ run init (demoSession (λ _, 0%Q)).
Proof.
  apply (list_elem_of_lookup_2 _ 26%nat). unfold demoGrid.
  destruct (run init (demoSession (λ _, 0%Q)) !! 26%nat) as [m|] eqn:E;
    [done|exfalso].
  apply lookup_ge_None_1 in E.
  pose proof demoSession_screens as H.
  destruct (run init (demoSession (λ _, 0%Q)) !! 27%nat) as [m|] eqn:E';
    [|done].
  apply lookup_lt_Some in E'. lia.
Qed.

Lemma demoGrid_opens_tree : step ClickMatrixButton demoGrid = Some demoTree.
Proof. vm_compute; reflexivity. Qed.

Lemma student_moves_on_only_over_correct_work_witness :
  demoGrid ∈ run init (demoSession (λ _, 0%Q))
  ∧ step ClickMatrixButton demoGrid = Some demoTree
  ∧ (step ClickMatrixButton demoGrid = Some demoTree →
     screen demoTree = tree →
     ∃ d v, App.exerciseData (app demoGrid) = Some d
            ∧ matrixView demoGrid = Some v
            ∧ ∀ t c, t ∈ taxons d → c ∈ characters d →
                ∃ b, MatrixExercise.cell (MatrixExercise.userMatrix v)
                       (Taxon.id t) (Character.id c) = Some b
                     ∧ MatrixExercise.shouldBePresent (correctMatrix d)
                         (Taxon.id t) (Character.id c) = Some b)
  ∧ (step ClickNouveau demoGrid = Some demoTree →
     ∃ d v, App.exerciseData (app demoGrid) = Some d
            ∧ treeView demoGrid = Some v
            ∧ (∀ s, s ∈ TreeExercise.slots v →
                 TreeExercise.filledWithId s = TreeExercise.expectedId s
                 ∧ truthy_opt (TreeExercise.filledWithId s) = true)
            ∧ screen demoTree = setup
            ∧ App.topic (app demoTree) = ""
            ∧ App.exerciseData (app demoTree) = Some d).
Proof.
  split; [exact demoGrid_in_session|]. split; [exact demoGrid_opens_tree|].
  exact (student_moves_on_only_over_correct_work (demoSession (λ _, 0%Q))
           demoGrid demoTree demoGrid_in_session).
Defined.

End page_progress.

Section page_exercise.
Import Machine Page.

Lemma run_next evs : ∀ m (k : nat) a b,
  run m evs !! k = Some a → run m evs !! S k = Some b →
  ∃ e, b = default a (step e a).
Proof.
  induction evs as [|e evs IH]; intros m k a b Ha Hb.
  - by destruct k.
  - simpl in Ha, Hb. destruct k as [|k]; simpl in *.
    + injection Ha as <-. exists e.
      destruct evs; simpl in Hb; congruence.
    + by eapply IH.
Qed.

Lemma step_exerciseData e m m' :
  consistent m → step e m = Some m' →
  (screen m ≠ setup →
   App.exerciseData (app m') = App.exerciseData (app m))
  ∧ (is_Some (App.exerciseData (app m)) →
     is_Some (App.exerciseData (app m'))).
Proof.
  intros (Hl & _) Hstep. unfold step in Hstep.
  destruct (crashed m); [done|]. unfold screen in *.
  destruct e; simpl in Hstep.
  - case_bool_decide as Hs; [|done]. injection Hstep as <-.
    by rewrite app_render.
  - case_bool_decide as Hs; [|done]. injection Hstep as <-.
    by rewrite app_render.
  - case_bool_decide as Hs; [|done]. injection Hstep as <-.
    by rewrite app_render.
  - (* ClickGenerate *)
    case_bool_decide as Hs; [|done]. simpl in Hstep.
    destruct (App.isLoading (app m)); [done|]. injection Hstep as <-.
    by rewrite app_render.
  - (* Settles *)
    destruct (App.isLoading (app m)) eqn:El; [|done]. injection Hstep as <-.
    rewrite app_render. split.
    + intros Hne. destruct Hne. by apply Hl.
    + intros Hs. destruct outcome; simpl; [done|by eauto].
  - (* ClickDemo *)
    case_bool_decide as Hs; [|done]. simpl in Hstep.
    destruct (App.isLoading (app m)) eqn:El; [done|]. injection Hstep as <-.
    rewrite app_render. split; [done|]. simpl. by eauto.
  - (* ClickHeader *)
    injection Hstep as <-. by rewrite app_render.
  - (* ClickEspaceProf *)
    destruct (App.exerciseData (app m)) eqn:Ed; [|done].
    case_bool_decide; [|done]. injection Hstep as <-.
    rewrite app_render. simpl. by rewrite Ed.
  - destruct (App.exerciseData (app m)) eqn:Ed; [|done].
    destruct (App.showTeacherZone (app m)); [|done]. injection Hstep as <-.
    rewrite app_render. simpl. by rewrite Ed.
  - (* ClickContinue *)
    destruct (App.state (app m)) eqn:Es; try done.
    destruct (App.exerciseData (app m)) eqn:Ed; [|done]. injection Hstep as <-.
    rewrite app_render. simpl. by rewrite Ed.
  - (* ClickCell *)
    destruct (matrixView m) as [v|] eqn:Ev; [|done].
    destruct (App.exerciseData (app m)) as [d|] eqn:Ed; [|done].
    destruct (taxons d !! i) as [t|]; [|done]. simpl in Hstep.
    destruct (characters d !! j) as [c|]; [|done]. simpl in Hstep.
    injection Hstep as <-. simpl. by rewrite Ed.
  - (* ClickMatrixButton *)
    destruct (matrixView m) as [v|] eqn:Ev; [|done].
    destruct (App.exerciseData (app m)) as [d|] eqn:Ed; [|done].
    destruct (MatrixExercise.button v) eqn:Eb; injection Hstep as <-.
    + simpl. by rewrite Ed.
    + rewrite app_render. simpl. by rewrite Ed.
  - (* ClickItem *)
    destruct (treeView m) as [v|] eqn:Ev; [|done].
    destruct (App.exerciseData (app m)) as [d|] eqn:Ed; [|done].
    destruct (TreeExercise.getAvailableItems d v ty !! k) as [it|] eqn:Ei;
      [|done].
    injection Hstep as <-. simpl. by rewrite Ed.
  - (* ClickSlot *)
    destruct (treeView m) as [v|] eqn:Ev; [|done].
    destruct (App.exerciseData (app m)) as [d|] eqn:Ed; [|done].
    destruct (TreeExercise.slots v !! k) as [slot|] eqn:Ek; [|done].
    injection Hstep as <-. simpl. by rewrite Ed.
  - (* ClickNouveau *)
    destruct (treeView m) as [v|]; [|done].
    destruct (TreeExercise.success v); [|done]. injection Hstep as <-.
    by rewrite app_render.
  - (* AlertDue *)
    destruct (treeView m) as [v|]; [|done].
    destruct (TreeExercise.timers v); [done|].
    injection Hstep as <-. simpl. split; [done|by eauto].
Qed.

(** X22. The exercise is fixed while the student works. Between two
    consecutive pages of a session: off the setup screen the exercise on
    display does not change; an exercise once loaded is never unset; and a
    generation is awaited on the setup screen only, so that a late answer
    of the model cannot replace an exercise the student is working on. *)
Theorem exercise_fixed_while_student_works (evs : list Event) (k : nat) a b :
  run init evs !! k = Some a → run init evs !! S k = Some b →
  (screen a ≠ setup → App.exerciseData (app b) = App.exerciseData (app a))
  ∧ (is_Some (App.exerciseData (app a)) → is_Some (App.exerciseData (app b)))
  ∧ (App.isLoading (app a) = true → screen a = setup).
Proof.
  intros Ha Hb.
  assert (consistent a) as Hc.
  { apply (consistent_run evs init consistent_init).
    by eapply list_elem_of_lookup_2. }
  destruct (run_next evs init k a b Ha Hb) as [e ->].
  destruct (step e a) as [m'|] eqn:E; simpl.
  - destruct (step_exerciseData e a m' Hc E) as [H1 H2].
    split_and!; [done..|]. by destruct Hc as [? _].
  - split_and!; [done..|]. by destruct Hc as [? _].
Qed.

Lemma exercise_fixed_while_student_works_witness :
  run init (demoSession (λ _, 0%Q)) !! 26%nat = Some demoGrid
  ∧ run init (demoSession (λ _, 0%Q)) !! 27%nat = Some demoTree
  ∧ (screen demoGrid ≠ setup →
     App.exerciseData (app demoTree) = App.exerciseData (app demoGrid))
  ∧ (is_Some (App.exerciseData (app demoGrid)) →
     is_Some (App.exerciseData (app demoTree)))
  ∧ (App.isLoading (app demoGrid) = true → screen demoGrid = setup).
Proof.
  assert (run init (demoSession (λ _, 0%Q)) !! 26%nat = Some demoGrid) as Ha
    by (vm_compute; reflexivity).
  assert (run init (demoSession (λ _, 0%Q)) !! 27%nat = Some demoTree) as Hb
    by (vm_compute; reflexivity).
  split; [exact Ha|]. split; [exact Hb|].
  exact (exercise_fixed_while_student_works (demoSession (λ _, 0%Q)) 26
           demoGrid demoTree Ha Hb).
Defined.

End page_exercise.

Section gemini_more.
Import geminiService.



Lemma swap_Forall2 {A B} (R : A → B → Prop) l l' (i j : nat) :
  Forall2 R l l' → Forall2 R (App.swap l i j) (App.swap l' i j).
Proof.
  intros HR. unfold App.swap.
  pose proof (proj1 (Forall2_lookup R l l') HR j) as Hj.
  pose proof (proj1 (Forall2_lookup R l l') HR i) as Hi.
  destruct Hj as [aj bj Rj|]; [|done].
  destruct Hi as [ai bi Ri|]; [|done].
  by apply Forall2_insert; [apply Forall2_insert|].
Qed.

(** The shuffle moves the entries of an array without looking at them. *)
Lemma shuffleLoop_Forall2 {A B} (R : A → B → Prop) rand (i : nat) :
  ∀ (k : nat) l l',
    Forall2 R l l' →
    Forall2 R (App.shuffleLoop rand k i l).1 (App.shuffleLoop rand k i l').1
    ∧ (App.shuffleLoop rand k i l).2 = (App.shuffleLoop rand k i l').2.
Proof.
  induction i as [|i IH]; intros k l l' HR; simpl; [done|].
  apply IH. by apply swap_Forall2.
Qed.

Lemma shuffleValue_typed {A} (read : option JS.Value → option A)
  env rand (k : nat) v l :
  Cast.asArray read v = Some l →
  ∃ items, App.shuffleValue env rand k v = Some items
           ∧ Cast.asArray read (Some (JS.Arr items.1))
             = Some (App.shuffleArray rand k l).1
           ∧ items.2 = (App.shuffleArray rand k l).2.
Proof.
  unfold Cast.asArray. destruct v as [[| | | |items|]|]; try done.
  intros Hl. apply mapM_Some in Hl.
  unfold App.shuffleValue. simpl. eexists. split; [done|].
  unfold App.shuffleArray. rewrite (Forall2_length _ _ _ Hl).
  destruct (shuffleLoop_Forall2 _ rand (length l - 1) k items l Hl) as [H1 H2].
  split; [|done]. by apply mapM_Some.
Qed.

(** A payload that is an exercise is shuffled as one. *)
Lemma shuffledPayload_typed env rand payload data :
  Cast.asExerciseData payload = Some data →
  ∃ shuffledData,
    App.shuffledPayload env rand payload = Some shuffledData
    ∧ Cast.asExerciseData shuffledData = Some (App.shuffled rand data).
Proof.
  unfold Cast.asExerciseData. intros H.
  apply bind_Some in H as (ti & Hti & H). apply bind_Some in H as (ts & Hts & H).
  apply bind_Some in H as (cs & Hcs & H). apply bind_Some in H as (m & Hm & H).
  apply bind_Some in H as (ev & Hev & H). injection H as <-.
  unfold App.shuffledPayload, App.shuffled. simpl.
  destruct (shuffleValue_typed Cast.asTaxon env rand 0 _ ts Hts)
    as ([ts1 k1] & -> & Hts1 & Hk1). simpl in *. subst k1.
  destruct (App.shuffleArray rand 0 ts) as [ts' k] eqn:Et. simpl in *.
  destruct (shuffleValue_typed Cast.asCharacter env rand k _ cs Hcs)
    as ([cs1 k1] & -> & Hcs1 & Hk1). simpl in *.
  destruct (App.shuffleArray rand k cs) as [cs' k'] eqn:Ec. simpl in *.
  eexists. split; [done|]. simpl. by rewrite Hti, Hts1, Hcs1, Hm, Hev.
Qed.

(** X24. A generation that succeeds with an exercise.  When
    [generateExercise] returns a payload and that payload has the shape
    that the type [ExerciseData] declares, which nothing in the code checks
    (a title that is a string, arrays of taxa, characters and steps, an
    answer key of arrays of strings), [startExercise] has issued exactly
    one request, made of the topic, the level and the fossil option of the
    form; it ends on the info screen, not loading and with no error message
    left; and the exercise it stores has the level picked in the form,
    whatever the response says, the taxa and the characters of the
    generated payload in shuffled order, and its title, answer key and
    evolution order unchanged. The form itself is left as it was. *)
Theorem startExercise_success_stores_shuffled_exercise
  env rand st sent payload data :
  generateExercise env (App.topic st) (App.level st) (App.includeFossils st)
  = (sent, inr payload) →
  Cast.asExerciseData payload = Some data →
  ∃ st',
    App.startExercise env rand true st
    = ([SentRequest (mkRequest (App.topic st) (App.level st)
                       (App.includeFossils st))], App.Ends st')
    ∧ st' = App.startExerciseSettle rand (inr data) (App.startExerciseBegin st)
    ∧ App.state st' = info
    ∧ App.isLoading st' = false
    ∧ App.error st' = None
    ∧ App.topic st' = App.topic st
    ∧ App.level st' = App.level st
    ∧ App.includeFossils st' = App.includeFossils st
    ∧ ∃ d, App.exerciseData st' = Some d
           ∧ difficulty d = App.level st
           ∧ title d = title data
           ∧ taxons d ≡ₚ taxons data
           ∧ characters d ≡ₚ characters data
           ∧ correctMatrix d = correctMatrix data
           ∧ evolutionOrder d = evolutionOrder data.
Proof.
  intros Hgen Hdata.
  destruct (shuffledPayload_typed env rand payload data Hdata)
    as (shuffledData & Hsh & Hty).
  unfold App.startExercise. simpl. rewrite Hgen. simpl. rewrite Hsh, Hty.
  destruct (generateExercise_inr _ _ _ _ _ _ Hgen)
    as (txt & rawData & m & -> & _ & _ & _ & ->).
  eexists. split; [done|]. split; [done|]. simpl.
  split_and!; try done.
  exists (App.shuffled rand data). split; [done|].
  destruct (shuffled_fields rand data) as (? & ? & ? & Hd & ? & ?).
  split_and!; try done.
  rewrite Hd. unfold Cast.asExerciseData in Hdata. simpl in Hdata.
  apply bind_Some in Hdata as (ti & _ & Hx).
  apply bind_Some in Hx as (ts & _ & Hx). apply bind_Some in Hx as (cs & _ & Hx).
  apply bind_Some in Hx as (m' & _ & Hx). apply bind_Some in Hx as (ev & _ & Hx).
  by injection Hx as <-.
Qed.

End gemini_more.

Section gemini_more_witness.
Import geminiService.

Lemma startExercise_success_stores_shuffled_exercise_witness :
  let st := Page.difficileForm in
  let data := mkExercise "Poissons" Difficile
                (Raw.taxons Worlds.danglingRaw)
                (Raw.characters Worlds.danglingRaw)
                (toCorrectMatrix (Raw.matrixList Worlds.danglingRaw))
                (Raw.evolutionOrder Worlds.danglingRaw) in
  let sent := [SentRequest (mkRequest "Poissons" Difficile false)] in
  Raw.difficulty Worlds.danglingRaw = Facile
  ∧ ∃ payload,
      generateExercise Worlds.danglingEnv (App.topic st) (App.level st)
        (App.includeFossils st) = (sent, inr payload)
      ∧ Cast.asExerciseData payload = Some data
      ∧ ∃ st',
          App.startExercise Worlds.danglingEnv (λ _, 0%Q) true st
          = ([SentRequest (mkRequest (App.topic st) (App.level st)
                             (App.includeFossils st))], App.Ends st')
          ∧ st' = App.startExerciseSettle (λ _, 0%Q) (inr data)
                    (App.startExerciseBegin st)
          ∧ App.state st' = info
          ∧ App.isLoading st' = false
          ∧ App.error st' = None
          ∧ App.topic st' = App.topic st
          ∧ App.level st' = App.level st
          ∧ App.includeFossils st' = App.includeFossils st
          ∧ ∃ d, App.exerciseData st' = Some d
                 ∧ difficulty d = App.level st
                 ∧ title d = title data
                 ∧ taxons d ≡ₚ taxons data
                 ∧ characters d ≡ₚ characters data
                 ∧ correctMatrix d = correctMatrix data
                 ∧ evolutionOrder d = evolutionOrder data.
Proof.
  intros st data sent. split; [reflexivity|].
  destruct (generateExercise Worlds.danglingEnv (App.topic st) (App.level st)
              (App.includeFossils st)) as [sent' [e|payload]] eqn:Hgen;
    [exfalso; vm_compute in Hgen; discriminate|].
  assert (sent' = sent) as ->.
  { by destruct (generateExercise_inr _ _ _ _ _ _ Hgen) as (_ & _ & _ & -> & _). }
  exists payload. split; [reflexivity|].
  assert (Cast.asExerciseData payload = Some data) as Hdata.
  { apply (generateExercise_typed Worlds.danglingEnv _ _ _ _ _
             Worlds.danglingValue Worlds.danglingRaw Hgen).
    - exists Worlds.danglingText. split; [vm_compute; reflexivity|reflexivity].
    - vm_compute; reflexivity. }
  split; [exact Hdata|].
  exact (startExercise_success_stores_shuffled_exercise Worlds.danglingEnv
           (λ _, 0%Q) st sent payload data Hgen Hdata).
Defined.

End gemini_more_witness.

Section page_error.
Import Machine Page.

(** The error message of the setup screen is the generation error or none,
    and none while a generation is awaited. *)
Lemma step_error e m m' :
  (App.isLoading (app m) = true → App.error (app m) = None) →
  step e m = Some m' →
  (App.isLoading (app m') = true → App.error (app m') = None)
  ∧ (App.error (app m') = App.error (app m)
     ∨ (App.error (app m') = None ∧ App.isLoading (app m') = true)
     ∨ (App.error (app m) = None
        ∧ App.error (app m') = Some App.generationError
        ∧ App.isLoading (app m) = true ∧ App.isLoading (app m') = false)).
Proof.
  intros Hl Hstep. unfold step in Hstep.
  destruct (crashed m); [done|].
  destruct e; simpl in Hstep.
  - case_bool_decide as Hs; [|done]. injection Hstep as <-.
    rewrite app_render. by auto.
  - case_bool_decide as Hs; [|done]. injection Hstep as <-.
    rewrite app_render. by auto.
  - case_bool_decide as Hs; [|done]. injection Hstep as <-.
    rewrite app_render. by auto.
  - (* ClickGenerate *)
    case_bool_decide as Hs; [|done]. simpl in Hstep.
    destruct (App.isLoading (app m)); [done|]. injection Hstep as <-.
    rewrite app_render. simpl. by auto.
  - (* Settles *)
    destruct (App.isLoading (app m)) eqn:El; [|done]. injection Hstep as <-.
    rewrite app_render. specialize (Hl eq_refl).
    destruct outcome as [err|data]; simpl; split; try done.
    + right; right. by rewrite Hl.
    + by left.
  - (* ClickDemo *)
    case_bool_decide as Hs; [|done]. simpl in Hstep.
    destruct (App.isLoading (app m)) eqn:El; [done|]. injection Hstep as <-.
    rewrite app_render. simpl. rewrite El. by auto.
  - (* ClickHeader *)
    injection Hstep as <-. rewrite app_render. by auto.
  - (* ClickEspaceProf *)
    destruct (App.exerciseData (app m)) eqn:Ed; [|done].
    case_bool_decide; [|done]. injection Hstep as <-.
    rewrite app_render. by auto.
  - destruct (App.exerciseData (app m)) eqn:Ed; [|done].
    destruct (App.showTeacherZone (app m)); [|done]. injection Hstep as <-.
    rewrite app_render. by auto.
  - (* ClickContinue *)
    destruct (App.state (app m)) eqn:Es; try done.
    destruct (App.exerciseData (app m)) eqn:Ed; [|done]. injection Hstep as <-.
    rewrite app_render. by auto.
  - (* ClickCell *)
    destruct (matrixView m) as [v|] eqn:Ev; [|done].
    destruct (App.exerciseData (app m)) as [d|] eqn:Ed; [|done].
    destruct (taxons d !! i) as [t|]; [|done]. simpl in Hstep.
    destruct (characters d !! j) as [c|]; [|done]. simpl in Hstep.
    injection Hstep as <-. by auto.
  - (* ClickMatrixButton *)
    destruct (matrixView m) as [v|] eqn:Ev; [|done].
    destruct (App.exerciseData (app m)) as [d|] eqn:Ed; [|done].
    destruct (MatrixExercise.button v) eqn:Eb; injection Hstep as <-.
    + by auto.
    + rewrite app_render. by auto.
  - (* ClickItem *)
    destruct (treeView m) as [v|] eqn:Ev; [|done].
    destruct (App.exerciseData (app m)) as [d|] eqn:Ed; [|done].
    destruct (TreeExercise.getAvailableItems d v ty !! k) as [it|] eqn:Ei;
      [|done].
    injection Hstep as <-. by auto.
  - (* ClickSlot *)
    destruct (treeView m) as [v|] eqn:Ev; [|done].
    destruct (App.exerciseData (app m)) as [d|] eqn:Ed; [|done].
    destruct (TreeExercise.slots v !! k) as [slot|] eqn:Ek; [|done].
    injection Hstep as <-. by auto.
  - (* ClickNouveau *)
    destruct (treeView m) as [v|]; [|done].
    destruct (TreeExercise.success v); [|done]. injection Hstep as <-.
    rewrite app_render. by auto.
  - (* AlertDue *)
    destruct (treeView m) as [v|]; [|done].
    destruct (TreeExercise.timers v); [done|].
    injection Hstep as <-. by auto.
Qed.

Lemma run_error evs : ∀ m,
  (App.isLoading (app m) = true → App.error (app m) = None) →
  ∀ m', m' ∈ run m evs →
        App.isLoading (app m') = true → App.error (app m') = None.
Proof.
  induction evs as [|e evs IH]; intros m Hl m' Hin; simpl in Hin.
  - apply list_elem_of_singleton in Hin as ->. done.
  - apply elem_of_cons in Hin as [->|Hin]; [done|].
    apply (IH (default m (step e m))); [|done].
    destruct (step e m) as [m1|] eqn:E; simpl; [|done].
    by destruct (step_error e m m1 Hl E).
Qed.

(** X25. The error message of the setup screen appears and goes with the
    generations only. Between two consecutive pages of a session the
    message is unchanged, or it is cleared because a generation has just
    been started, or it is set to the one generation error because the
    awaited generation has just failed; and none is shown while a
    generation is awaited. So the message of a failed generation is still
    there after the demo exercise has been opened and left. *)
Theorem generation_error_changes_with_generations_only (evs : list Event)
  (k : nat) a b :
  run init evs !! k = Some a → run init evs !! S k = Some b →
  (App.isLoading (app a) = true → App.error (app a) = None)
  ∧ (App.error (app b) = App.error (app a)
     ∨ (App.error (app b) = None ∧ App.isLoading (app b) = true)
     ∨ (App.error (app a) = None
        ∧ App.error (app b) = Some App.generationError
        ∧ App.isLoading (app a) = true ∧ App.isLoading (app b) = false)).
Proof.
  intros Ha Hb.
  assert (App.isLoading (app a) = true → App.error (app a) = None) as Hl.
  { apply (run_error evs init); [done|]. by eapply list_elem_of_lookup_2. }
  split; [exact Hl|].
  destruct (run_next evs init k a b Ha Hb) as [e ->].
  destruct (step e a) as [m'|] eqn:E; simpl; [|by left].
  by destruct (step_error e a m' Hl E).
Qed.

Lemma generation_error_changes_with_generations_only_witness :
  let a := default init (run init failedThenDemo !! 3%nat) in
  let b := default init (run init failedThenDemo !! 4%nat) in
  run init failedThenDemo !! 3%nat = Some a
  ∧ run init failedThenDemo !! 4%nat = Some b
  ∧ screen a = info ∧ screen b = setup
  ∧ App.error (app b) = Some App.generationError
  ∧ (App.isLoading (app a) = true → App.error (app a) = None)
  ∧ (App.error (app b) = App.error (app a)
     ∨ (App.error (app b) = None ∧ App.isLoading (app b) = true)
     ∨ (App.error (app a) = None
        ∧ App.error (app b) = Some App.generationError
        ∧ App.isLoading (app a) = true ∧ App.isLoading (app b) = false)).
Proof.
  intros a b.
  assert (run init failedThenDemo !! 3%nat = Some a) as Ha
    by (vm_compute; reflexivity).
  assert (run init failedThenDemo !! 4%nat = Some b) as Hb
    by (vm_compute; reflexivity).
  split; [exact Ha|]. split; [exact Hb|].
  split; [vm_compute; reflexivity|]. split; [vm_compute; reflexivity|].
  split; [vm_compute; reflexivity|].
  exact (generation_error_changes_with_generations_only failedThenDemo 3 a b
           Ha Hb).
Defined.

End page_error.
